(** * TinyFlux index: a shallow embedding of [tinyflux/index.py]

    The development follows the source file top-down: the sorted-list
    helpers imported from [tinyflux.utils], the [IndexResult] value
    class, the [Index] class with its maintenance methods, and the
    recursive query evaluator.  Definitions come first, the lemmas and
    the theorems about them afterwards. *)

From Stdlib Require Import ZArith Lia Sorted.
From stdpp Require Import gmap strings list fin_maps sorting.

#[local] Set Warnings "-clear-no-such-hyp".

Open Scope Z_scope.
Open Scope nat_scope.

(* ===================================================================== *)
(** * Part I: definitions *)
(* ===================================================================== *)

(** ** Sorted-list helpers ([tinyflux.utils]) *)

Module Utils.

(** Modelled from the spec: the loop shared by the binary searches of
    [tinyflux.utils], which is not part of the sources at hand.  It looks
    for the partition point of [below] between [lo] and [hi]: the
    interval is halved while [lo < hi].  [fuel] bounds the number of
    iterations; the callers pass the length of the sequence. *)
Fixpoint bisect_loop (below : Z → bool) (a : list Z) (fuel lo hi : nat) : nat :=
  match fuel with
  | O => lo
  | S fuel' =>
      if lo <? hi then
        let mid := (lo + hi) / 2 in
        match a !! mid with
        | Some y =>
            if below y
            then bisect_loop below a fuel' (S mid) hi
            else bisect_loop below a fuel' lo mid
        | None => lo
        end
      else lo
  end.

(** Modelled from the spec: first position whose element is not below [x]. *)
Definition bisect_left (a : list Z) (x : Z) : nat :=
  bisect_loop (λ y, y <? x)%Z a (length a) 0 (length a).

(** Modelled from the spec: first position whose element is above [x]. *)
Definition bisect_right (a : list Z) (x : Z) : nat :=
  bisect_loop (λ y, y <=? x)%Z a (length a) 0 (length a).

(** Modelled from the spec: [find_eq] of [tinyflux.utils], "the index of
    some occurrence equal to value", ties broken by the lowest index;
    [None] when the value is absent. *)
Definition find_eq (sorted_list : list Z) (x : Z) : option nat :=
  let i := bisect_left sorted_list x in
  match sorted_list !! i with
  | Some y => if (y =? x)%Z then Some i else None
  | None => None
  end.

(** Modelled from the spec: [find_lt] of [tinyflux.utils], the
    highest-index element strictly less than the value. *)
Definition find_lt (sorted_list : list Z) (x : Z) : option nat :=
  match bisect_left sorted_list x with
  | O => None
  | S i => Some i
  end.

(** Modelled from the spec: [find_le] of [tinyflux.utils], the
    highest-index element less than or equal to the value. *)
Definition find_le (sorted_list : list Z) (x : Z) : option nat :=
  match bisect_right sorted_list x with
  | O => None
  | S i => Some i
  end.

(** Modelled from the spec: [find_gt] of [tinyflux.utils], the
    lowest-index element strictly greater than the value. *)
Definition find_gt (sorted_list : list Z) (x : Z) : option nat :=
  let i := bisect_right sorted_list x in
  if i <? length sorted_list then Some i else None.

(** Modelled from the spec: [find_ge] of [tinyflux.utils], the
    lowest-index element greater than or equal to the value. *)
Definition find_ge (sorted_list : list Z) (x : Z) : option nat :=
  let i := bisect_left sorted_list x in
  if i <? length sorted_list then Some i else None.

(** Modelled from the spec: [union_two_sorted_lists] of [tinyflux.utils],
    a merge of two ascending position sequences that keeps one copy of a
    position present in both. *)
Fixpoint union_two_sorted_lists (l1 : list nat) : list nat → list nat :=
  match l1 with
  | [] => λ l2, l2
  | x :: r1 =>
      fix go (l2 : list nat) : list nat :=
        match l2 with
        | [] => x :: r1
        | y :: r2 =>
            if x <? y then x :: union_two_sorted_lists r1 (y :: r2)
            else if y <? x then y :: go r2
            else x :: union_two_sorted_lists r1 r2
        end
  end.

(** Modelled from the spec: [intersection_two_sorted_lists] of
    [tinyflux.utils], a merge that keeps the positions present in both
    ascending sequences. *)
Fixpoint intersection_two_sorted_lists (l1 : list nat) : list nat → list nat :=
  match l1 with
  | [] => λ _, []
  | x :: r1 =>
      fix go (l2 : list nat) : list nat :=
        match l2 with
        | [] => []
        | y :: r2 =>
            if x <? y then intersection_two_sorted_lists r1 (y :: r2)
            else if y <? x then go r2
            else x :: intersection_two_sorted_lists r1 r2
        end
  end.

(** Modelled from the spec: [difference_generator_and_sorted_lists] of
    [tinyflux.utils]: every value of the ascending universe [gen] that is
    not in the ascending exclude list.  The values the generator yields
    are given as a list, and so is the result. *)
Fixpoint difference_generator_and_sorted_lists (gen : list nat) : list nat → list nat :=
  match gen with
  | [] => λ _, []
  | x :: us =>
      fix go (sorted_list : list nat) : list nat :=
        match sorted_list with
        | [] => x :: us
        | y :: ys =>
            if x <? y then x :: difference_generator_and_sorted_lists us (y :: ys)
            else if y <? x then go ys
            else difference_generator_and_sorted_lists us ys
        end
  end.

End Utils.

Import Utils.

(** Python's [range(n)] for an [int] [n]: empty when [n] is not positive. *)
Definition range (n : Z) : list nat := seq 0 (Z.to_nat n).

(** A posting sequence or result is strictly ascending (hence duplicate-free). *)
Definition ascending (l : list nat) : Prop := StronglySorted lt l.

(** A timestamp sequence is in non-descending order. *)
Definition non_descending (l : list Z) : Prop := StronglySorted Z.le l.

(** ** IndexResult *)

Record IndexResult := mkIndexResult {
  _items : list nat;
  _is_complete : bool;
  _index_count : Z
}.

(** [IndexResult.__invert__] *)
Definition __invert__ (self : IndexResult) : IndexResult :=
  mkIndexResult
    (difference_generator_and_sorted_lists (range (_index_count self)) (_items self))
    (_is_complete self)
    (_index_count self).

(** [IndexResult.__and__] *)
Definition __and__ (self other : IndexResult) : IndexResult :=
  mkIndexResult
    (intersection_two_sorted_lists (_items self) (_items other))
    (_is_complete self && _is_complete other)
    (_index_count self).

(** [IndexResult.__or__] *)
Definition __or__ (self other : IndexResult) : IndexResult :=
  mkIndexResult
    (union_two_sorted_lists (_items self) (_items other))
    (_is_complete self && _is_complete other)
    (_index_count self).

(** ** Points and the Index state *)

(** A record to index.  [time] is the epoch value [point.time.timestamp()]:
    the index compares timestamps with each other and hands them to
    [datetime.fromtimestamp], so an integer stands for it.  The values
    of [fields] are never inspected by the index. *)
Record Point := mkPoint {
  time : Z;
  measurement : string;
  tags : gmap string string;
  fields : gmap string Z
}.

Record Index := mkIndex {
  _num_items : Z;
  _tags : gmap string (gmap string (list nat));
  _fields : gmap string (list nat);
  _measurements : gmap string (list nat);
  _timestamps : list Z;
  _valid : bool
}.

(** [Index.__init__] *)
Definition __init__ (valid : bool) : Index := mkIndex 0 ∅ ∅ ∅ [] valid.

Definition set_num_items (n : Z) (self : Index) : Index :=
  mkIndex n (_tags self) (_fields self) (_measurements self) (_timestamps self) (_valid self).
Definition set_tags (t : gmap string (gmap string (list nat))) (self : Index) : Index :=
  mkIndex (_num_items self) t (_fields self) (_measurements self) (_timestamps self) (_valid self).
Definition set_fields (f : gmap string (list nat)) (self : Index) : Index :=
  mkIndex (_num_items self) (_tags self) f (_measurements self) (_timestamps self) (_valid self).
Definition set_measurements (m : gmap string (list nat)) (self : Index) : Index :=
  mkIndex (_num_items self) (_tags self) (_fields self) m (_timestamps self) (_valid self).
Definition set_timestamps (ts : list Z) (self : Index) : Index :=
  mkIndex (_num_items self) (_tags self) (_fields self) (_measurements self) ts (_valid self).
Definition set_valid (v : bool) (self : Index) : Index :=
  mkIndex (_num_items self) (_tags self) (_fields self) (_measurements self) (_timestamps self) v.

(** [Index.empty] *)
Definition empty (self : Index) : bool :=
  bool_decide (_num_items self = 0%Z)
  && bool_decide (_tags self = ∅)
  && bool_decide (_fields self = ∅)
  && bool_decide (_measurements self = ∅)
  && bool_decide (_timestamps self = []).

(** [Index.valid] *)
Definition valid (self : Index) : bool := _valid self.

(** [Index.__len__] *)
Definition __len__ (self : Index) : Z := _num_items self.

(** [Index.get_measurement_names] *)
Definition get_measurement_names (self : Index) : gset string :=
  dom (_measurements self).

(** One step of the loop of [Index._insert_fields]. *)
Definition insert_field_key (idx : nat) (field_key : string)
    (fs : gmap string (list nat)) : gmap string (list nat) :=
  match fs !! field_key with
  | None => <[field_key := [idx]]> fs
  | Some items => <[field_key := items ++ [idx]]> fs
  end.

(** [Index._insert_fields]: the loop over [fields.keys()]. *)
Definition _insert_fields (idx : nat) (fields : gmap string Z) (self : Index) : Index :=
  set_fields (map_fold (λ field_key _ fs, insert_field_key idx field_key fs)
                (_fields self) fields) self.

(** [Index._insert_measurements] *)
Definition _insert_measurements (idx : nat) (measurement : string) (self : Index) : Index :=
  set_measurements
    (match _measurements self !! measurement with
     | None => <[measurement := [idx]]> (_measurements self)
     | Some items => <[measurement := items ++ [idx]]> (_measurements self)
     end) self.

(** One step of the loop of [Index._insert_tags]. *)
Definition insert_tag_pair (idx : nat) (tag_key tag_value : string)
    (ts : gmap string (gmap string (list nat))) : gmap string (gmap string (list nat)) :=
  let ts1 := match ts !! tag_key with
             | None => <[tag_key := ∅]> ts
             | Some _ => ts
             end in
  let values := ts1 !!! tag_key in
  match values !! tag_value with
  | None => <[tag_key := <[tag_value := [idx]]> values]> ts1
  | Some items => <[tag_key := <[tag_value := items ++ [idx]]> values]> ts1
  end.

(** [Index._insert_tags]: the loop over [tags.items()]. *)
Definition _insert_tags (idx : nat) (tags : gmap string string) (self : Index) : Index :=
  set_tags (map_fold (insert_tag_pair idx) (_tags self) tags) self.

(** [Index._insert_time] *)
Definition _insert_time (time : Z) (self : Index) : Index :=
  set_timestamps (_timestamps self ++ [time]) self.

(** [Index._reset] *)
Definition _reset (self : Index) : Index := mkIndex 0 ∅ ∅ ∅ [] true.

(** The body shared by the loops of [build] and [insert]: index one point
    at position [idx]. *)
Definition index_point (idx : nat) (point : Point) (self : Index) : Index :=
  _insert_measurements idx (measurement point)
    (_insert_fields idx (fields point)
      (_insert_tags idx (tags point)
        (_insert_time (time point)
          (set_num_items (_num_items self + 1) self)))).

(** The loop [for idx, point in enumerate(points)], positions counted
    from [start_idx]. *)
Fixpoint index_points (start_idx : nat) (points : list Point) (self : Index) : Index :=
  match points with
  | [] => self
  | point :: rest => index_points (S start_idx) rest (index_point start_idx point self)
  end.

(** [Index.build] *)
Definition build (points : list Point) (self : Index) : Index :=
  index_points 0 points (_reset self).

(** [Index.insert] *)
Definition insert (points : list Point) (self : Index) : Index :=
  index_points (length (_timestamps self)) points self.

(** [Index.invalidate] *)
Definition invalidate (self : Index) : Index := set_valid false (_reset self).

(** The comprehension [[i for i in old_items if i not in r_items]]. *)
Definition keep_items (r_items : gset nat) (old_items : list nat) : list nat :=
  filter (λ i, i ∉ r_items) old_items.

(** [Index._remove_fields] *)
Definition _remove_fields (r_items : gset nat) (self : Index) : Index :=
  set_fields
    (map_fold (λ field_key old_items new_fields,
                 match keep_items r_items old_items with
                 | [] => new_fields
                 | new_items => <[field_key := new_items]> new_fields
                 end) ∅ (_fields self)) self.

(** [Index._remove_measurements] *)
Definition _remove_measurements (r_items : gset nat) (self : Index) : Index :=
  set_measurements
    (map_fold (λ m old_items new_measurements,
                 match keep_items r_items old_items with
                 | [] => new_measurements
                 | new_items => <[m := new_items]> new_measurements
                 end) ∅ (_measurements self)) self.

(** The body of the inner loop of [Index._remove_tags]. *)
Definition remove_tag_value (r_items : gset nat) (tag_key value : string)
    (old_items : list nat) (new_tags : gmap string (gmap string (list nat)))
    : gmap string (gmap string (list nat)) :=
  match keep_items r_items old_items with
  | [] => new_tags
  | new_items =>
      match new_tags !! tag_key with
      | None => <[tag_key := {[value := new_items]}]> new_tags
      | Some values => <[tag_key := <[value := new_items]> values]> new_tags
      end
  end.

(** [Index._remove_tags] *)
Definition _remove_tags (r_items : gset nat) (self : Index) : Index :=
  set_tags
    (map_fold (λ tag_key tag_values new_tags,
                 map_fold (remove_tag_value r_items tag_key) new_tags tag_values)
       ∅ (_tags self)) self.

(** The loop of [Index._remove_timestamps], [i] being the position of the
    head of the sequence. *)
Fixpoint remove_timestamps_from (i : nat) (r_items : gset nat) (ts : list Z) : list Z :=
  match ts with
  | [] => []
  | t :: rest =>
      if decide (i ∈ r_items)
      then remove_timestamps_from (S i) r_items rest
      else t :: remove_timestamps_from (S i) r_items rest
  end.

(** [Index._remove_timestamps] *)
Definition _remove_timestamps (r_items : gset nat) (self : Index) : Index :=
  set_timestamps (remove_timestamps_from 0 r_items (_timestamps self)) self.

(** [Index.remove] *)
Definition remove (r_items : gset nat) (self : Index) : Index :=
  let s1 := _remove_timestamps r_items self in
  let s2 := _remove_measurements r_items s1 in
  let s3 := _remove_tags r_items s2 in
  let s4 := _remove_fields r_items s3 in
  set_num_items (_num_items s4 - Z.of_nat (size r_items)) s4.

(** The loop [for i in old_items: updated_items.append(u_items[i])];
    [None] is the [KeyError] of a position missing from [u_items]. *)
Definition update_items (u_items : gmap nat nat) (old_items : list nat) : option (list nat) :=
  mapM (λ i, u_items !! i) old_items.

(** [Index._update_fields]: the posting lists are replaced in place.
    [None] stands for the propagated [KeyError]; the partly rewritten
    index it leaves behind is not represented. *)
Definition _update_fields (u_items : gmap nat nat) (self : Index) : option Index :=
  fs ← map_fold (λ field_key old_items acc,
                   fs ← acc;
                   updated_items ← update_items u_items old_items;
                   Some (<[field_key := updated_items]> fs))
         (Some (_fields self)) (_fields self);
  Some (set_fields fs self).

(** [Index._update_measurements]: a new mapping is filled. *)
Definition _update_measurements (u_items : gmap nat nat) (self : Index) : option Index :=
  ms ← map_fold (λ m old_items acc,
                   new_measurements ← acc;
                   updated_items ← update_items u_items old_items;
                   Some (match updated_items with
                         | [] => new_measurements
                         | _ => <[m := updated_items]> new_measurements
                         end))
         (Some ∅) (_measurements self);
  Some (set_measurements ms self).

(** [Index._update_tags]: [self._tags[tag_key][value] = updated_items],
    in place. *)
Definition _update_tags (u_items : gmap nat nat) (self : Index) : option Index :=
  ts ← map_fold (λ tag_key tag_values acc,
                   map_fold (λ value old_items acc,
                               ts ← acc;
                               updated_items ← update_items u_items old_items;
                               Some (alter (λ values, <[value := updated_items]> values)
                                       tag_key ts))
                     acc tag_values)
         (Some (_tags self)) (_tags self);
  Some (set_tags ts self).

(** [Index.update] *)
Definition update (u_items : gmap nat nat) (self : Index) : option Index :=
  s1 ← _update_measurements u_items self;
  s2 ← _update_tags u_items s1;
  _update_fields u_items s2.

(** ** Queries ([tinyflux.queries]) *)

(** The value of [SimpleQuery._point_attr]; [attr_other] is any other string. *)
Inductive PointAttr := attr_time | attr_measurement | attr_tags | attr_fields | attr_other.

(** The value of [SimpleQuery._operator]: the six comparisons of the
    [operator] module, or any other callable. *)
Inductive Operator := op_eq | op_ne | op_lt | op_le | op_gt | op_ge | op_other.

(** The value of [CompoundQuery.operator]. *)
Inductive Connective := op_and | op_or | op_not | op_unknown.

(** What the index hands to a path resolver: a time rebuilt from a stored
    timestamp, a measurement name, or the one-entry mapping [{key: value}]. *)
Inductive Context :=
| CtxTime (time : Z)
| CtxName (name : string)
| CtxEntry (key value : string).

(** Modelled from the spec: the leaf predicate of [tinyflux.queries],
    which is not part of the sources at hand: an attribute-kind tag, a
    comparison operator, a right-hand value (read by the timestamp search
    only, as [rhs.timestamp()]), a resolver from a context to a resolved
    value or a fault ([None]), and a boolean test of resolved values. *)
Record SimpleQuery := mkSimpleQuery {
  _point_attr : PointAttr;
  _operator : Operator;
  _rhs : Z;
  _path_resolver : Context → option Context;
  _test : Context → bool
}.

(** Modelled from the spec: the predicate tree of [tinyflux.queries]: a
    leaf, a compound node with a connective and its children ([query2]
    is not read for a negation), or anything else ([NoQuery]). *)
Inductive Query :=
| Simple (q : SimpleQuery)
| Compound (operator : Connective) (query1 query2 : Query)
| NoQuery.

(** ** The library call of the fallback scan *)

(** [datetime.fromtimestamp], which the fallback loop of
    [_search_timestamps] calls on every stored timestamp, belongs to the
    Python library and not to the package: the evaluator takes it as a
    parameter.  It gives the time of a timestamp, or raises ([None]) for
    a timestamp outside the range the platform converts. *)
Class Datetime := fromtimestamp : Z → option Z.

(** ** The evaluator: reads of the index in a state-and-exception monad *)

(** What a search raises: the [TypeError] of [_search_helper], the fault
    of a path resolver, and the error of [datetime.fromtimestamp] for a
    timestamp out of range ([ValueError]; [OverflowError] or [OSError]
    on some platforms). *)
Inductive Exn := TypeError | ResolverFault | ValueError.

Inductive Outcome (A : Type) :=
| Ok (a : A)
| Raise (e : Exn).
Arguments Ok {A} a.
Arguments Raise {A} e.

(** A method of [Index] that may read and write [self] and may raise. *)
Definition Method (A : Type) : Type := Index → Outcome A * Index.

Definition ret {A} (a : A) : Method A := λ self, (Ok a, self).
Definition raise {A} (e : Exn) : Method A := λ self, (Raise e, self).
Definition bind {A B} (m : Method A) (k : A → Method B) : Method B :=
  λ self, match m self with
          | (Ok a, self') => k a self'
          | (Raise e, self') => (Raise e, self')
          end.
(** Read an attribute of [self]. *)
Definition attr {A} (f : Index → A) : Method A := λ self, (Ok (f self), self).

Notation "'let*' x ':=' m 'in' k" := (bind m (λ x, k))
  (at level 10, x name, m at level 100, k at level 200,
   format "'[v' 'let*'  x  :=  m  'in' '/' k ']'").

(** [Index._search_fields]: only the resolver's applicability is checked;
    a fault is caught and the key skipped. *)
Definition _search_fields (query : SimpleQuery) : Method (list nat) :=
  let* fields := attr _fields in
  ret (map_fold (λ field_key items rst_items,
                   match _path_resolver query (CtxEntry field_key "") with
                   | None => rst_items
                   | Some _ => union_two_sorted_lists rst_items items
                   end) [] fields).

(** [Index._search_measurement]: a fault of the resolver is not caught. *)
Definition _search_measurement (query : SimpleQuery) : Method (list nat) :=
  let* measurements := attr _measurements in
  match map_fold (λ key items acc,
                    match acc with
                    | Raise e => Raise e
                    | Ok rst_items =>
                        match _path_resolver query (CtxName key) with
                        | None => Raise ResolverFault
                        | Some test_value =>
                            if _test query test_value
                            then Ok (union_two_sorted_lists rst_items items)
                            else Ok rst_items
                        end
                    end) (Ok []) measurements with
  | Ok rst_items => ret rst_items
  | Raise e => raise e
  end.

(** [Index._search_tags]: a fault of the resolver is caught and the pair
    skipped. *)
Definition _search_tags (query : SimpleQuery) : Method (list nat) :=
  let* tags := attr _tags in
  ret (map_fold (λ tag_key tag_values rst_items,
                   map_fold (λ value items rst_items,
                               match _path_resolver query (CtxEntry tag_key value) with
                               | None => rst_items
                               | Some test_value =>
                                   if _test query test_value
                                   then union_two_sorted_lists rst_items items
                                   else rst_items
                               end) rst_items tag_values) [] tags).

(** The [while] loop of the equality branches of [_search_timestamps]:
    [rest] is the part of the timestamps from position [match_] on; the
    loop appends positions until a timestamp differs from [rhs] or the
    sequence ends. *)
Fixpoint collect_equal (rhs : Z) (match_ : nat) (rest : list Z) : list nat :=
  match rest with
  | [] => []
  | t :: rest' =>
      if (t =? rhs)%Z then match_ :: collect_equal rhs (S match_) rest' else []
  end.

(** The positions equal to [rhs], as both equality branches compute them
    once [find_eq] has answered [match_]. *)
Definition equal_run (timestamps : list Z) (rhs : Z) (match_ : nat) : list nat :=
  match_ :: collect_equal rhs (S match_) (drop (S match_) timestamps).

(** The fallback loop of [_search_timestamps]: [idx] is the position of
    the head of the sequence.  Each stored timestamp is converted by
    [datetime.fromtimestamp], the time is resolved and the resolved
    value tested, in this order; neither the error of the conversion nor
    a fault of the resolver is caught, so the first one ends the loop. *)
Fixpoint scan_timestamps {lib : Datetime} (query : SimpleQuery) (idx : nat)
    (timestamps : list Z) : Outcome (list nat) :=
  match timestamps with
  | [] => Ok []
  | timestamp :: rest =>
      match fromtimestamp timestamp with
      | None => Raise ValueError
      | Some time =>
          match _path_resolver query (CtxTime time) with
          | None => Raise ResolverFault
          | Some v =>
              match scan_timestamps query (S idx) rest with
              | Raise e => Raise e
              | Ok items => Ok (if _test query v then idx :: items else items)
              end
          end
      end
  end.

(** [Index._search_timestamps] *)
Definition _search_timestamps {lib : Datetime} (query : SimpleQuery) : Method (list nat) :=
  let* timestamps := attr _timestamps in
  let rhs := _rhs query in
  match _operator query with
  | op_eq =>
      match find_eq timestamps rhs with
      | None => ret []
      | Some match_ => ret (equal_run timestamps rhs match_)
      end
  | op_ne =>
      match find_eq timestamps rhs with
      | None => ret (seq 0 (length timestamps))
      | Some match_ =>
          ret (difference_generator_and_sorted_lists
                 (seq 0 (length timestamps)) (equal_run timestamps rhs match_))
      end
  | op_lt =>
      match find_lt timestamps rhs with
      | None => ret []
      | Some match_ => ret (seq 0 (match_ + 1))
      end
  | op_le =>
      match find_le timestamps rhs with
      | None => ret []
      | Some match_ => ret (seq 0 (match_ + 1))
      end
  | op_gt =>
      match find_gt timestamps rhs with
      | None => ret []
      | Some match_ => ret (seq match_ (length timestamps - match_))
      end
  | op_ge =>
      match find_ge timestamps rhs with
      | None => ret []
      | Some match_ => ret (seq match_ (length timestamps - match_))
      end
  | op_other =>
      match scan_timestamps query 0 timestamps with
      | Ok items => ret items
      | Raise e => raise e
      end
  end.

(** The test of the negation branch: the child is a leaf on [_fields]. *)
Definition is_field_leaf (query : Query) : bool :=
  match query with
  | Simple q => match _point_attr q with attr_fields => true | _ => false end
  | _ => false
  end.

(** [Index._search_helper] *)
Fixpoint _search_helper {lib : Datetime} (query : Query) : Method IndexResult :=
  match query with
  | Compound op_and query1 query2 =>
      let* rst1 := _search_helper query1 in
      let* rst2 := _search_helper query2 in
      ret (__and__ rst1 rst2)
  | Compound op_or query1 query2 =>
      let* rst1 := _search_helper query1 in
      let* rst2 := _search_helper query2 in
      ret (__or__ rst1 rst2)
  | Compound op_not query1 _ =>
      let* rst := _search_helper query1 in
      if is_field_leaf query1 then
        let* num_items := attr _num_items in
        ret (mkIndexResult (range num_items) (_is_complete rst) (_index_count rst))
      else ret (__invert__ rst)
  | Compound op_unknown _ _ => raise TypeError
  | Simple q =>
      match _point_attr q with
      | attr_time =>
          let* items := _search_timestamps q in
          let* num_items := attr _num_items in
          ret (mkIndexResult items true num_items)
      | attr_measurement =>
          let* items := _search_measurement q in
          let* num_items := attr _num_items in
          ret (mkIndexResult items true num_items)
      | attr_tags =>
          let* items := _search_tags q in
          let* num_items := attr _num_items in
          ret (mkIndexResult items true num_items)
      | attr_fields =>
          let* items := _search_fields q in
          let* num_items := attr _num_items in
          ret (mkIndexResult items false num_items)
      | attr_other => raise TypeError
      end
  | NoQuery => raise TypeError
  end.

(** [Index.search] *)
Definition search {lib : Datetime} (query : Query) : Method IndexResult :=
  _search_helper query.
Arguments search : simpl never.

(** ** Reference definitions the theorems compare the code with *)

(** The positions, counted from [idx], of the timestamps that satisfy
    [P]: a plain left-to-right scan of the sequence. *)
Fixpoint manual_scan_from (idx : nat) (P : Z → bool) (timestamps : list Z) : list nat :=
  match timestamps with
  | [] => []
  | t :: rest =>
      if P t then idx :: manual_scan_from (S idx) P rest
      else manual_scan_from (S idx) P rest
  end.

Definition manual_scan (P : Z → bool) (timestamps : list Z) : list nat :=
  manual_scan_from 0 P timestamps.

(** The closed range [0 .. match], or nothing without a match. *)
Definition closed_prefix (match_ : option nat) : list nat :=
  match match_ with
  | Some m => seq 0 (S m)
  | None => []
  end.

(** The range [match .. n), or nothing without a match. *)
Definition suffix_from (match_ : option nat) (n : nat) : list nat :=
  match match_ with
  | Some m => seq m (n - m)
  | None => []
  end.

(** The fallback scan gets through the stored [timestamp]: the library
    converts it and the resolver of [q] applies to the time. *)
Definition converts_and_resolves {lib : Datetime} (q : SimpleQuery) (timestamp : Z) : Prop :=
  ∃ time, fromtimestamp timestamp = Some time
          ∧ is_Some (_path_resolver q (CtxTime time)).


(** What the fallback scan tests at a stored timestamp that converts
    and resolves: the test of [q] on the resolved time. *)
Definition fallback_test {lib : Datetime} (q : SimpleQuery) (timestamp : Z) : bool :=
  match fromtimestamp timestamp with
  | Some time => from_option (_test q) false (_path_resolver q (CtxTime time))
  | None => false
  end.

(** A posting list once the members of [r_items] are filtered out; no
    list at all ([None]: the key is dropped) when nothing is left. *)
Definition surviving (r_items : gset nat) (old_items : list nat) : option (list nat) :=
  match filter (λ i, i ∉ r_items) old_items with
  | [] => None
  | new_items => Some new_items
  end.

(** The values of one tag key once every posting list is filtered; no
    mapping at all when no value is left. *)
Definition surviving_values (r_items : gset nat) (tag_values : gmap string (list nat))
    : option (gmap string (list nat)) :=
  let new_values := omap (surviving r_items) tag_values in
  if decide (new_values = ∅) then None else Some new_values.

(** A sequence with the entries at the indices in [r_items] deleted:
    each entry is paired with its index and kept when the index is not
    in the set. *)
Definition without_positions (r_items : gset nat) (ts : list Z) : list Z :=
  (filter (λ ix, ix.1 ∉ r_items) (zip (seq 0 (length ts)) ts)).*2.

(** [items] is one of the posting sequences the index stores. *)
Definition posting (self : Index) (items : list nat) : Prop :=
  (∃ m, _measurements self !! m = Some items)
  ∨ (∃ tag_key tag_values value,
       _tags self !! tag_key = Some tag_values ∧ tag_values !! value = Some items)
  ∨ (∃ field_key, _fields self !! field_key = Some items).

(** The position [p] is referenced by some posting collection. *)
Definition referenced (self : Index) (p : nat) : Prop :=
  ∃ items, posting self items ∧ p ∈ items.

(** A posting list with each position [p] replaced by [u_items[p]]. *)
Definition remap (u_items : gmap nat nat) (items : list nat) : list nat :=
  (λ p, u_items !!! p) <$> items.

(** The values of one tag key with every posting list remapped. *)
Definition remap_values (u_items : gmap nat nat) (tag_values : gmap string (list nat))
    : gmap string (list nat) :=
  remap u_items <$> tag_values.

(** [missing u m]: some posting list of [m] holds a position that [u]
    does not map; [covered u m]: none does. *)
Definition missing (u : gmap nat nat) (m : gmap string (list nat)) : Prop :=
  ∃ key items p, m !! key = Some items ∧ p ∈ items ∧ u !! p = None.
Definition covered (u : gmap nat nat) (m : gmap string (list nat)) : Prop :=
  ∀ key items p, m !! key = Some items → p ∈ items → is_Some (u !! p).

(** ** Sequences of maintenance operations *)

Inductive Operation :=
| Build (points : list Point)
| Insert (points : list Point)
| Remove (r_items : gset nat)
| Update (u_items : gmap nat nat)
| Invalidate.

(** One call on the index; [None] when [update] propagates its fault. *)
Definition apply_operation (op : Operation) (self : Index) : option Index :=
  match op with
  | Build points => Some (build points self)
  | Insert points => Some (insert points self)
  | Remove r_items => Some (remove r_items self)
  | Update u_items => update u_items self
  | Invalidate => Some (invalidate self)
  end.

(** The calls of [ops] one after the other. *)
Fixpoint run (ops : list Operation) (self : Index) : option Index :=
  match ops with
  | [] => Some self
  | op :: rest => self' ← apply_operation op self; run rest self'
  end.

(** The timestamps of the points handed to [insert] or [build] are in
    non-descending order. *)
Definition time_ordered (op : Operation) : Prop :=
  match op with
  | Build points | Insert points => non_descending (time <$> points)
  | _ => True
  end.

(** A posting list is strictly ascending and within [0 .. n). *)
Definition good_posting (n : nat) (items : list nat) : Prop :=
  ascending items ∧ Forall (λ p, p < n) items.

(** The invariant of the data model: the timestamps are aligned with
    [num_items], and every posting sequence is strictly ascending with
    its positions in [0 .. num_items). *)
Definition well_indexed (self : Index) : Prop :=
  Z.of_nat (length (_timestamps self)) = _num_items self
  ∧ ∀ items, posting self items → good_posting (length (_timestamps self)) items.

(** A position map that renumbers into [0 .. n) and keeps the order. *)
Definition renumbers (u_items : gmap nat nat) (n : Z) : Prop :=
  (∀ p q, u_items !! p = Some q → (Z.of_nat q < n)%Z)
  ∧ (∀ p1 p2 q1 q2,
       u_items !! p1 = Some q1 → u_items !! p2 = Some q2 → p1 < p2 → q1 < q2).

(** The states an index goes through when every [remove] of positions
    within [0 .. num_items) is followed at once by the [update] that
    renumbers the positions left. *)
Inductive reachable : Index → Prop :=
| reachable_init valid : reachable (__init__ valid)
| reachable_build points self : reachable self → reachable (build points self)
| reachable_insert points self : reachable self → reachable (insert points self)
| reachable_invalidate self : reachable self → reachable (invalidate self)
| reachable_compact r_items u_items self self' :
    reachable self →
    (∀ p, p ∈ r_items → (Z.of_nat p < _num_items self)%Z) →
    renumbers u_items (_num_items self - Z.of_nat (size r_items)) →
    update u_items (remove r_items self) = Some self' →
    reachable self'.

(** The values of a tag key after [idx] is indexed under [tag_value]. *)
Definition tagged (idx : nat) (tag_value : string) (old : option (gmap string (list nat)))
    : gmap string (list nat) :=
  <[tag_value := default [] (default ∅ old !! tag_value) ++ [idx]]> (default ∅ old).

(** ** Reference definitions for the properties of the postings *)

(** The positions, counted from [idx], of the points that satisfy [P]. *)
Fixpoint positions_from (idx : nat) (P : Point → bool) (points : list Point) : list nat :=
  match points with
  | [] => []
  | point :: rest =>
      if P point then idx :: positions_from (S idx) P rest
      else positions_from (S idx) P rest
  end.

Definition positions_where (P : Point → bool) (points : list Point) : list nat :=
  positions_from 0 P points.

(** A posting list as a stored entry: no entry for no position. *)
Definition as_posting (items : list nat) : option (list nat) :=
  match items with
  | [] => None
  | _ => Some items
  end.

(** The entry under a key once the positions [new] are appended to it. *)
Definition extend_posting (old : option (list nat)) (new : list nat) : option (list nat) :=
  match new with
  | [] => old
  | _ => Some (default [] old ++ new)
  end.

Definition has_measurement (name : string) (point : Point) : bool :=
  bool_decide (measurement point = name).

Definition has_field (field_key : string) (point : Point) : bool :=
  bool_decide (is_Some (fields point !! field_key)).

Definition has_tag (tag_key tag_value : string) (point : Point) : bool :=
  bool_decide (tags point !! tag_key = Some tag_value).

(** The posting list stored for a tag key and value. *)
Definition tag_posting (self : Index) (tag_key tag_value : string) : option (list nat) :=
  _tags self !! tag_key ≫= λ tag_values, tag_values !! tag_value.

(** No stored posting list is empty, and no tag key has an empty
    mapping of values. *)
Definition no_empty_posting (self : Index) : Prop :=
  (∀ items, posting self items → items ≠ [])
  ∧ (∀ tag_key, _tags self !! tag_key ≠ Some ∅).

(** The evaluation of the query reaches a leaf on fields. *)
Fixpoint touches_fields (query : Query) : bool :=
  match query with
  | Simple q => match _point_attr q with attr_fields => true | _ => false end
  | Compound op_and query1 query2 | Compound op_or query1 query2 =>
      touches_fields query1 || touches_fields query2
  | Compound op_not query1 _ => touches_fields query1
  | Compound op_unknown _ _ => false
  | NoQuery => false
  end.

(** The nodes the evaluation visits are leaves on one of the four
    attributes and AND, OR and NOT nodes. *)
Fixpoint tree_shaped (query : Query) : bool :=
  match query with
  | Simple q => match _point_attr q with attr_other => false | _ => true end
  | Compound op_and query1 query2 | Compound op_or query1 query2 =>
      tree_shaped query1 && tree_shaped query2
  | Compound op_not query1 _ => tree_shaped query1
  | Compound op_unknown _ _ => false
  | NoQuery => false
  end.

(** The points left when those at the positions in [r_items] are
    deleted, [i] being the position of the head of the list. *)
Fixpoint delete_from (i : nat) (r_items : gset nat) (points : list Point) : list Point :=
  match points with
  | [] => []
  | point :: rest =>
      if decide (i ∈ r_items)
      then delete_from (S i) r_items rest
      else point :: delete_from (S i) r_items rest
  end.

Definition delete_positions (r_items : gset nat) (points : list Point) : list Point :=
  delete_from 0 r_items points.

(** The number of positions below [p] that are not in [r_items]: the
    position that [p] takes when the others close the gaps. *)
Definition rank (r_items : gset nat) (p : nat) : nat :=
  length (filter (λ i, i ∉ r_items) (seq 0 p)).

(** The flag [valid] that a sequence of calls leads to: the last
    [build] sets it, the last [invalidate] clears it, the other calls
    keep it. *)
Fixpoint expected_valid (ops : list Operation) (valid : bool) : bool :=
  match ops with
  | [] => valid
  | Build _ :: rest => expected_valid rest true
  | Invalidate :: rest => expected_valid rest false
  | _ :: rest => expected_valid rest valid
  end.

(** [num_items] is the number of timestamps stored. *)
Definition aligned (self : Index) : Prop :=
  Z.of_nat (length (_timestamps self)) = _num_items self.

(** The library of the examples: timestamps count seconds, and the
    conversion covers the years 1 to 9999 in UTC; the timestamp stored
    for [datetime.max], 253402300800, is the first one out of range. *)
#[export] Instance utc_datetime : Datetime :=
  λ timestamp, if ((-62135596800 <=? timestamp) && (timestamp <? 253402300800))%Z
               then Some timestamp else None.

(* ===================================================================== *)
(** * Part II: lemmas and theorems *)
(* ===================================================================== *)

(** ** Strictly ascending sequences *)

Lemma ascending_cons x l : ascending (x :: l) ↔ Forall (lt x) l ∧ ascending l.
Proof. apply StronglySorted_cons. Qed.

Lemma ascending_nil : ascending [].
Proof. constructor. Qed.

Lemma ascending_NoDup l : ascending l → NoDup l.
Proof.
  induction l as [|x l IH]; intros H; [constructor|].
  apply ascending_cons in H as [Hx Hl]. constructor; [|auto].
  intros Hin. rewrite Forall_forall in Hx. specialize (Hx _ Hin). lia.
Qed.

Lemma ascending_seq start len : ascending (seq start len).
Proof.
  revert start. induction len as [|len IH]; intros start; simpl; [constructor|].
  apply ascending_cons. split; [|apply IH].
  apply Forall_forall. intros y Hy. apply elem_of_seq in Hy. lia.
Qed.

Lemma ascending_snoc l x : ascending l → Forall (λ y, y < x) l → ascending (l ++ [x]).
Proof.
  intros Hl Hx. apply StronglySorted_app. split_and!; [|done|repeat constructor].
  intros y z Hy Hz. apply list_elem_of_singleton in Hz as ->.
  rewrite Forall_forall in Hx. auto.
Qed.

Lemma ascending_sublist l k : l `sublist_of` k → ascending k → ascending l.
Proof.
  induction 1 as [|x l k Hs IH|x l k Hs IH]; intros Hk; [done|..];
    apply ascending_cons in Hk as [Hx Hk].
  - apply ascending_cons. split; [|auto].
    apply Forall_forall. intros y Hy. rewrite Forall_forall in Hx.
    apply Hx. eapply elem_of_sublist; eauto.
  - auto.
Qed.

(** Two strictly ascending sequences with the same members are equal. *)
Lemma ascending_ext l1 l2 :
  ascending l1 → ascending l2 → (∀ x, x ∈ l1 ↔ x ∈ l2) → l1 = l2.
Proof.
  revert l2. induction l1 as [|x l1 IH]; intros [|y l2] H1 H2 Hext.
  - done.
  - exfalso. specialize (Hext y). set_solver.
  - exfalso. specialize (Hext x). set_solver.
  - apply ascending_cons in H1 as [Hx H1]. apply ascending_cons in H2 as [Hy H2].
    rewrite Forall_forall in Hx. rewrite Forall_forall in Hy.
    assert (x = y) as ->.
    { pose proof (proj1 (Hext x) ltac:(left)) as Ha.
      pose proof (proj2 (Hext y) ltac:(left)) as Hb.
      apply elem_of_cons in Ha as [?|Ha]; [done|].
      apply elem_of_cons in Hb as [?|Hb]; [done|].
      specialize (Hx _ Hb). specialize (Hy _ Ha). lia. }
    f_equal. apply IH; [done..|].
    intros z. split; intros Hz.
    + pose proof (proj1 (Hext z) ltac:(by right)) as Ha.
      apply elem_of_cons in Ha as [->|Ha]; [|done].
      specialize (Hx _ Hz). lia.
    + pose proof (proj2 (Hext z) ltac:(by right)) as Ha.
      apply elem_of_cons in Ha as [->|Ha]; [|done].
      specialize (Hy _ Hz). lia.
Qed.

(** ** The merges of [tinyflux.utils] *)

Section merges.
Implicit Types l r : list nat.

Lemma union_nil_r l : union_two_sorted_lists l [] = l.
Proof. by destruct l. Qed.

Lemma union_cons_cons x r1 y r2 :
  union_two_sorted_lists (x :: r1) (y :: r2) =
    if x <? y then x :: union_two_sorted_lists r1 (y :: r2)
    else if y <? x then y :: union_two_sorted_lists (x :: r1) r2
    else x :: union_two_sorted_lists r1 r2.
Proof. reflexivity. Qed.

Lemma intersection_nil_r l : intersection_two_sorted_lists l [] = [].
Proof. by destruct l. Qed.

Lemma intersection_cons_cons x r1 y r2 :
  intersection_two_sorted_lists (x :: r1) (y :: r2) =
    if x <? y then intersection_two_sorted_lists r1 (y :: r2)
    else if y <? x then intersection_two_sorted_lists (x :: r1) r2
    else x :: intersection_two_sorted_lists r1 r2.
Proof. reflexivity. Qed.

Lemma difference_nil_r l : difference_generator_and_sorted_lists l [] = l.
Proof. by destruct l. Qed.

Lemma difference_cons_cons x r1 y r2 :
  difference_generator_and_sorted_lists (x :: r1) (y :: r2) =
    if x <? y then x :: difference_generator_and_sorted_lists r1 (y :: r2)
    else if y <? x then difference_generator_and_sorted_lists (x :: r1) r2
    else difference_generator_and_sorted_lists r1 r2.
Proof. reflexivity. Qed.

(** Case analysis on the comparison of the two heads. *)
Ltac heads x y :=
  destruct (Nat.ltb_spec x y); [|destruct (Nat.ltb_spec y x)].

Lemma elem_of_union l1 l2 z :
  z ∈ union_two_sorted_lists l1 l2 ↔ z ∈ l1 ∨ z ∈ l2.
Proof.
  revert l2. induction l1 as [|x r1 IH1]; intros l2; [set_solver|].
  induction l2 as [|y r2 IH2]; [rewrite union_nil_r; set_solver|].
  rewrite union_cons_cons. heads x y.
  - rewrite elem_of_cons, IH1. set_solver.
  - rewrite elem_of_cons, IH2. set_solver.
  - assert (x = y) as -> by lia. rewrite elem_of_cons, IH1. set_solver.
Qed.

Lemma union_ascending l1 l2 :
  ascending l1 → ascending l2 → ascending (union_two_sorted_lists l1 l2).
Proof.
  revert l2. induction l1 as [|x r1 IH1]; intros l2 H1 H2; [done|].
  induction l2 as [|y r2 IH2]; [by rewrite union_nil_r|].
  pose proof H1 as H1'. pose proof H2 as H2'.
  apply ascending_cons in H1' as [Hx Hr1]. apply ascending_cons in H2' as [Hy Hr2].
  rewrite Forall_forall in Hx. rewrite Forall_forall in Hy.
  rewrite union_cons_cons. heads x y; apply ascending_cons; (split; [|auto]).
  - apply Forall_forall. intros z Hz. apply elem_of_union in Hz as [Hz|Hz]; [auto|].
    apply elem_of_cons in Hz as [->|Hz]; [done|]. specialize (Hy _ Hz). lia.
  - apply Forall_forall. intros z Hz. apply elem_of_union in Hz as [Hz|Hz]; [|auto].
    apply elem_of_cons in Hz as [->|Hz]; [done|]. specialize (Hx _ Hz). lia.
  - assert (x = y) as -> by lia.
    apply Forall_forall. intros z Hz. apply elem_of_union in Hz as [Hz|Hz]; auto.
Qed.

Lemma intersection_sublist l1 l2 :
  intersection_two_sorted_lists l1 l2 `sublist_of` l1.
Proof.
  revert l2. induction l1 as [|x r1 IH1]; intros l2; [done|].
  induction l2 as [|y r2 IH2]; [rewrite intersection_nil_r; apply sublist_nil_l|].
  rewrite intersection_cons_cons. heads x y.
  - by apply sublist_cons.
  - done.
  - by apply sublist_skip.
Qed.

Lemma elem_of_intersection_1 l1 l2 z :
  z ∈ intersection_two_sorted_lists l1 l2 → z ∈ l1 ∧ z ∈ l2.
Proof.
  revert l2. induction l1 as [|x r1 IH1]; intros l2; [set_solver|].
  induction l2 as [|y r2 IH2]; [rewrite intersection_nil_r; set_solver|].
  rewrite intersection_cons_cons. heads x y.
  - intros Hz. apply IH1 in Hz. set_solver.
  - intros Hz. apply IH2 in Hz. set_solver.
  - assert (x = y) as -> by lia. rewrite elem_of_cons.
    intros [->|Hz]; [set_solver|]. apply IH1 in Hz. set_solver.
Qed.

Lemma elem_of_intersection l1 l2 z :
  ascending l1 → ascending l2 →
  z ∈ intersection_two_sorted_lists l1 l2 ↔ z ∈ l1 ∧ z ∈ l2.
Proof.
  intros H1 H2. split; [apply elem_of_intersection_1|].
  revert l2 H1 H2. induction l1 as [|x r1 IH1]; intros l2 H1 H2; [set_solver|].
  induction l2 as [|y r2 IH2]; [set_solver|].
  pose proof H1 as H1'. pose proof H2 as H2'.
  apply ascending_cons in H1' as [Hx Hr1]. apply ascending_cons in H2' as [Hy Hr2].
  rewrite Forall_forall in Hx. rewrite Forall_forall in Hy.
  rewrite intersection_cons_cons. intros [Hz1 Hz2].
  apply elem_of_cons in Hz1. apply elem_of_cons in Hz2. heads x y.
  - apply IH1; [done..|]. split.
    + destruct Hz1 as [->|?]; [|done]. destruct Hz2 as [->|Hz2]; [lia|].
      specialize (Hy _ Hz2). lia.
    + apply elem_of_cons. done.
  - apply IH2; [done|]. split.
    + apply elem_of_cons. done.
    + destruct Hz2 as [->|?]; [|done]. destruct Hz1 as [->|Hz1]; [lia|].
      specialize (Hx _ Hz1). lia.
  - assert (x = y) as -> by lia. apply elem_of_cons.
    destruct Hz1 as [->|Hz1]; [by left|]. destruct Hz2 as [->|Hz2]; [by left|].
    right. apply IH1; done.
Qed.

Lemma intersection_ascending l1 l2 :
  ascending l1 → ascending (intersection_two_sorted_lists l1 l2).
Proof. apply ascending_sublist, intersection_sublist. Qed.

Lemma difference_sublist l1 l2 :
  difference_generator_and_sorted_lists l1 l2 `sublist_of` l1.
Proof.
  revert l2. induction l1 as [|x r1 IH1]; intros l2; [done|].
  induction l2 as [|y r2 IH2]; [by rewrite difference_nil_r|].
  rewrite difference_cons_cons. heads x y.
  - by apply sublist_skip.
  - done.
  - by apply sublist_cons.
Qed.

Lemma difference_ascending l1 l2 :
  ascending l1 → ascending (difference_generator_and_sorted_lists l1 l2).
Proof. apply ascending_sublist, difference_sublist. Qed.

Lemma elem_of_difference_sorted l1 l2 z :
  ascending l1 → ascending l2 →
  z ∈ difference_generator_and_sorted_lists l1 l2 ↔ z ∈ l1 ∧ z ∉ l2.
Proof.
  revert l2. induction l1 as [|x r1 IH1]; intros l2 H1 H2; [set_solver|].
  induction l2 as [|y r2 IH2]; [rewrite difference_nil_r; set_solver|].
  pose proof H1 as H1'. pose proof H2 as H2'.
  apply ascending_cons in H1' as [Hx Hr1]. apply ascending_cons in H2' as [Hy Hr2].
  rewrite Forall_forall in Hx. rewrite Forall_forall in Hy.
  rewrite difference_cons_cons. heads x y.
  - rewrite elem_of_cons, IH1 by done. rewrite !elem_of_cons.
    split; [|naive_solver].
    intros [->|?]; [|naive_solver]. split; [by left|].
    intros [?|Hz]; [lia|]. specialize (Hy _ Hz). lia.
  - rewrite IH2 by done. rewrite !elem_of_cons.
    split; [|naive_solver]. intros [Hz ?]. split; [done|].
    intros [->|?]; [|done].
    destruct Hz as [?|Hz]; [lia|]. specialize (Hx _ Hz). lia.
  - assert (x = y) as -> by lia. rewrite IH1 by done.
    rewrite !elem_of_cons. split.
    + intros [Hz ?]. split; [by right|]. intros [->|?]; [|done].
      specialize (Hx _ Hz). lia.
    + intros [[->|?] ?]; [naive_solver|]. split; [done|]. naive_solver.
Qed.

End merges.

(** Sortedness of a sequence given in full. *)
Ltac solve_sorted :=
  unfold non_descending, ascending; simpl; repeat constructor; lia.

(** ** The result algebra *)

Lemma elem_of_range n p : p ∈ range n ↔ (Z.of_nat p < n)%Z.
Proof. unfold range. rewrite elem_of_seq. lia. Qed.

Lemma ascending_range n : ascending (range n).
Proof. apply ascending_seq. Qed.

(** C3: [__and__] and [__or__] give a complete result exactly when both
    operands are complete; an incomplete operand makes the combination
    incomplete. *)
Theorem completeness_propagation (a b : IndexResult) :
  _index_count a = _index_count b →
  (_is_complete (__and__ a b) = true ↔ _is_complete a = true ∧ _is_complete b = true)
  ∧ (_is_complete (__or__ a b) = true ↔ _is_complete a = true ∧ _is_complete b = true)
  ∧ (_is_complete a = false ∨ _is_complete b = false →
     _is_complete (__and__ a b) = false ∧ _is_complete (__or__ a b) = false).
Proof.
  intros _. simpl. rewrite andb_true_iff. split_and!; [done..|].
  intros [->| ->]; [done|]. by rewrite andb_false_r.
Qed.

Lemma completeness_propagation_witness :
  let a := mkIndexResult [0; 2] true 3 in
  let b := mkIndexResult [1; 2] false 3 in
  _index_count a = _index_count b ∧
  _is_complete (__and__ a b) = false ∧ _is_complete (__or__ a b) = false.
Proof.
  intros a b. split; [reflexivity|].
  apply (completeness_propagation a b); [reflexivity|]. right. reflexivity.
Defined.

(** C7: for a complete result [r] whose items are strictly ascending
    positions below [index_count]: the intersection of [r] with its
    complement is empty, their union is the whole range
    [0 .. index_count), and complementing twice gives back the items. *)
Theorem complement_laws (r : IndexResult) :
  ascending (_items r) →
  Forall (λ p, (Z.of_nat p < _index_count r)%Z) (_items r) →
  _is_complete r = true →
  _items (__and__ r (__invert__ r)) = []
  ∧ _items (__or__ r (__invert__ r)) = range (_index_count r)
  ∧ _items (__invert__ (__invert__ r)) = _items r.
Proof.
  destruct r as [items c n]. simpl. intros Hasc Hin _.
  rewrite Forall_forall in Hin.
  pose proof (ascending_range n) as Hr.
  pose proof (difference_ascending (range n) items Hr) as Hd.
  split_and!.
  - apply elem_of_nil_inv. intros z Hz.
    apply elem_of_intersection_1 in Hz as [Hz1 Hz2].
    apply elem_of_difference_sorted in Hz2 as [_ Hz2]; done.
  - apply ascending_ext; [by apply union_ascending|done|].
    intros z. rewrite elem_of_union, elem_of_difference_sorted by done.
    rewrite elem_of_range. split.
    + intros [Hz|[Hz _]]; auto.
    + intros Hz. destruct (decide (z ∈ items)); auto.
  - apply ascending_ext; [by apply difference_ascending|done|].
    intros z. rewrite !elem_of_difference_sorted by done.
    rewrite elem_of_range. split.
    + intros [Hz Hn]. destruct (decide (z ∈ items)); [done|].
      exfalso. apply Hn. done.
    + intros Hz. split; [auto|]. intros [_ Hn]. done.
Qed.

Lemma complement_laws_witness :
  let r := mkIndexResult [1; 3] true 5 in
  _items (__and__ r (__invert__ r)) = []
  ∧ _items (__or__ r (__invert__ r)) = [0; 1; 2; 3; 4]
  ∧ _items (__invert__ (__invert__ r)) = [1; 3].
Proof.
  intros r. apply (complement_laws r).
  - repeat constructor.
  - repeat constructor.
  - reflexivity.
Defined.

(** ** Binary search *)

Lemma non_descending_lookup (a : list Z) i j x y :
  non_descending a → a !! i = Some x → a !! j = Some y → i ≤ j → (x ≤ y)%Z.
Proof.
  intros Ha. revert i j. induction Ha as [|z a Ha IH Hz]; intros i j Hi Hj Hij; [done|].
  destruct i as [|i], j as [|j]; simpl in *; simplify_eq; try lia.
  - rewrite Forall_forall in Hz. apply Hz. eapply list_elem_of_lookup_2; eauto.
  - eapply IH; eauto. lia.
Qed.

Section bisect.
Variable below : Z → bool.
Variable a : list Z.
(** [below] holds on a prefix of [a]. *)
Hypothesis below_prefix :
  ∀ i j x y, a !! i = Some x → a !! j = Some y → i ≤ j →
    below y = true → below x = true.

Lemma bisect_loop_step fuel lo hi :
  bisect_loop below a (S fuel) lo hi =
    if lo <? hi then
      match a !! ((lo + hi) / 2) with
      | Some y =>
          if below y
          then bisect_loop below a fuel (S ((lo + hi) / 2)) hi
          else bisect_loop below a fuel lo ((lo + hi) / 2)
      | None => lo
      end
    else lo.
Proof. reflexivity. Qed.

Lemma bisect_loop_spec fuel lo hi :
  lo ≤ hi ≤ length a → hi - lo ≤ fuel →
  (∀ i x, a !! i = Some x → i < lo → below x = true) →
  (∀ i x, a !! i = Some x → hi ≤ i → below x = false) →
  lo ≤ bisect_loop below a fuel lo hi ≤ hi
  ∧ (∀ i x, a !! i = Some x → i < bisect_loop below a fuel lo hi → below x = true)
  ∧ (∀ i x, a !! i = Some x → bisect_loop below a fuel lo hi ≤ i → below x = false).
Proof.
  revert lo hi. induction fuel as [|fuel IH]; intros lo hi Hb Hf Hlo Hhi.
  { simpl. assert (lo = hi) as -> by lia. auto with lia. }
  rewrite bisect_loop_step.
  destruct (Nat.ltb_spec lo hi) as [Hlt|Hge]; cycle 1.
  { assert (lo = hi) as -> by lia. auto with lia. }
  pose proof (Nat.div_mod_eq (lo + hi) 2) as Hdiv.
  pose proof (Nat.mod_upper_bound (lo + hi) 2 ltac:(lia)) as Hmod.
  set (mid := (lo + hi) / 2) in *.
  assert (lo ≤ mid < hi) as Hmid by lia.
  destruct (lookup_lt_is_Some_2 a mid ltac:(lia)) as [y Hy]. rewrite Hy.
  destruct (below y) eqn:Hby.
  - destruct (IH (S mid) hi) as (?&?&?); [lia|lia| |done|].
    + intros i x Hx Hi. eapply (below_prefix i mid); eauto. lia.
    + split_and!; (lia || done).
  - destruct (IH lo mid) as (?&?&?); [lia|lia|done| |].
    + intros i x Hx Hi. destruct (below x) eqn:Hbx; [|done].
      rewrite (below_prefix mid i y x) in Hby; done.
    + split_and!; (lia || done).
Qed.

(** The search over the whole sequence returns the partition point. *)
Lemma bisect_partition :
  let r := bisect_loop below a (length a) 0 (length a) in
  r ≤ length a ∧ ∀ i x, a !! i = Some x → (below x = true ↔ i < r).
Proof.
  destruct (bisect_loop_spec (length a) 0 (length a)) as (Hr&Hlt&Hge);
    [lia|lia| |..].
  - intros i x _ Hi. lia.
  - intros i x Hx Hi. apply lookup_lt_Some in Hx. lia.
  - simpl. split; [lia|]. intros i x Hx. split.
    + intros Hb. destruct (Nat.lt_ge_cases i (bisect_loop below a (length a) 0 (length a)))
        as [?|Hi]; [done|].
      rewrite (Hge _ _ Hx Hi) in Hb. done.
    + eauto.
Qed.
End bisect.

Lemma bisect_left_spec (a : list Z) (x : Z) :
  non_descending a →
  bisect_left a x ≤ length a
  ∧ ∀ i y, a !! i = Some y → ((y <? x)%Z = true ↔ i < bisect_left a x).
Proof.
  intros Ha. apply (bisect_partition (λ y, y <? x)%Z a).
  intros i j y z Hy Hz Hij Hlt. pose proof (non_descending_lookup a i j y z Ha Hy Hz Hij).
  lia.
Qed.

Lemma bisect_right_spec (a : list Z) (x : Z) :
  non_descending a →
  bisect_right a x ≤ length a
  ∧ ∀ i y, a !! i = Some y → ((y <=? x)%Z = true ↔ i < bisect_right a x).
Proof.
  intros Ha. apply (bisect_partition (λ y, y <=? x)%Z a).
  intros i j y z Hy Hz Hij Hlt. pose proof (non_descending_lookup a i j y z Ha Hy Hz Hij).
  lia.
Qed.

(** ** Linear scans of a partitioned sequence *)

Lemma manual_scan_from_ext P Q k (a : list Z) :
  (∀ x, x ∈ a → P x = Q x) → manual_scan_from k P a = manual_scan_from k Q a.
Proof.
  revert k. induction a as [|y a IH]; intros k HPQ; simpl; [done|].
  rewrite (HPQ y) by set_solver. rewrite IH by set_solver. done.
Qed.

Lemma manual_scan_from_app P k (a b : list Z) :
  manual_scan_from k P (a ++ b)
  = manual_scan_from k P a ++ manual_scan_from (k + length a) P b.
Proof.
  revert k. induction a as [|y a IH]; intros k; simpl.
  - by rewrite Nat.add_0_r.
  - rewrite IH. replace (S k + length a) with (k + S (length a)) by lia.
    by destruct (P y).
Qed.

Lemma manual_scan_from_none P k (a : list Z) :
  (∀ x, x ∈ a → P x = false) → manual_scan_from k P a = [].
Proof.
  revert k. induction a as [|y a IH]; intros k HP; simpl; [done|].
  rewrite (HP y) by set_solver. apply IH. set_solver.
Qed.

Lemma manual_scan_from_all P k (a : list Z) :
  (∀ x, x ∈ a → P x = true) → manual_scan_from k P a = seq k (length a).
Proof.
  revert k. induction a as [|y a IH]; intros k HP; simpl; [done|].
  rewrite (HP y) by set_solver. f_equal. apply IH. set_solver.
Qed.

Lemma elem_of_manual_scan_from P k (a : list Z) p :
  p ∈ manual_scan_from k P a ↔ ∃ i x, p = k + i ∧ a !! i = Some x ∧ P x = true.
Proof.
  revert k. induction a as [|y a IH]; intros k; simpl.
  - split; [by intros ?%elem_of_nil|]. by intros (i&x&_&?&_).
  - assert (p ∈ manual_scan_from (S k) P a ↔
            ∃ i x, p = k + S i ∧ a !! i = Some x ∧ P x = true) as IH'.
    { rewrite IH. by setoid_rewrite Nat.add_succ_r. }
    destruct (P y) eqn:HPy; [rewrite elem_of_cons|]; rewrite IH'; split.
    + intros [->|(i&x&?&?&?)]; [exists 0, y|exists (S i), x]; auto with lia.
    + intros ([|i]&x&?&Hx&?); simpl in Hx; [left; lia|right; eauto].
    + intros (i&x&?&?&?). exists (S i), x. auto.
    + intros ([|i]&x&?&Hx&?); simpl in Hx; simplify_eq; [congruence|eauto].
Qed.

Lemma ascending_manual_scan_from P k (a : list Z) : ascending (manual_scan_from k P a).
Proof.
  revert k. induction a as [|y a IH]; intros k; simpl; [constructor|].
  destruct (P y); [|done]. apply ascending_cons. split; [|done].
  apply Forall_forall. intros p (i&x&->&_)%elem_of_manual_scan_from. lia.
Qed.

(** When [P] holds exactly below position [r], the scan is the prefix
    [0 .. r); when it holds exactly from [r] on, it is the suffix. *)
Lemma manual_scan_prefix P (a : list Z) r :
  r ≤ length a → (∀ i x, a !! i = Some x → (P x = true ↔ i < r)) →
  manual_scan P a = seq 0 r.
Proof.
  intros Hr HP. apply ascending_ext;
    [apply ascending_manual_scan_from|apply ascending_seq|].
  intros p. unfold manual_scan. rewrite elem_of_manual_scan_from, elem_of_seq. split.
  - intros (i&x&->&Hx&HPx). apply (HP i x Hx) in HPx. lia.
  - intros Hp. destruct (lookup_lt_is_Some_2 a p ltac:(lia)) as [x Hx].
    exists p, x. split_and!; [done..|]. apply (HP p x Hx). lia.
Qed.

Lemma manual_scan_suffix P (a : list Z) r :
  (∀ i x, a !! i = Some x → (P x = true ↔ r ≤ i)) →
  manual_scan P a = seq r (length a - r).
Proof.
  intros HP. apply ascending_ext;
    [apply ascending_manual_scan_from|apply ascending_seq|].
  intros p. unfold manual_scan. rewrite elem_of_manual_scan_from, elem_of_seq. split.
  - intros (i&x&->&Hx&HPx). pose proof (lookup_lt_Some _ _ _ Hx).
    apply (HP i x Hx) in HPx. lia.
  - intros Hp. destruct (lookup_lt_is_Some_2 a p ltac:(lia)) as [x Hx].
    exists p, x. split_and!; [done..|]. apply (HP p x Hx). lia.
Qed.

(** ** The timestamp search *)

Lemma collect_equal_scan (t : Z) k (b : list Z) :
  non_descending b → Forall (λ x, (t ≤ x)%Z) b →
  collect_equal t k b = manual_scan_from k (λ x, (x =? t)%Z) b.
Proof.
  intros Hb. revert k. induction Hb as [|x b Hb IH Hx]; intros k Hge; simpl; [done|].
  apply Forall_cons in Hge as [Hxt Hge].
  destruct (Z.eqb_spec x t) as [->|Hne]; [by rewrite IH|].
  symmetry. apply manual_scan_from_none. intros y Hy.
  rewrite Forall_forall in Hx. specialize (Hx _ Hy). lia.
Qed.

Lemma find_eq_scan (a : list Z) (t : Z) :
  non_descending a →
  match find_eq a t with
  | Some match_ => equal_run a t match_
  | None => []
  end = manual_scan (λ x, (x =? t)%Z) a.
Proof.
  intros Ha. destruct (bisect_left_spec a t Ha) as [Hr Hpart].
  unfold find_eq, manual_scan. set (r := bisect_left a t) in *.
  replace (manual_scan_from 0 (λ x, (x =? t)%Z) a)
    with (manual_scan_from 0 (λ x, (x =? t)%Z) (take r a ++ drop r a))
    by (by rewrite take_drop).
  rewrite manual_scan_from_app.
  rewrite (manual_scan_from_none _ _ (take r a)); cycle 1.
  { intros x (i&Hx)%list_elem_of_lookup_1. apply lookup_take_Some in Hx as [Hx Hi].
    apply (Hpart i x Hx) in Hi. lia. }
  rewrite length_take, Nat.min_l by lia. simpl.
  assert (non_descending (drop r a)) as Hsd.
  { unfold non_descending in *. rewrite <- (take_drop r a) in Ha.
    by apply StronglySorted_app_1_r in Ha. }
  assert (Forall (λ x, (t ≤ x)%Z) (drop r a)) as Hge.
  { apply Forall_forall. intros x (i&Hx)%list_elem_of_lookup_1.
    rewrite lookup_drop in Hx. destruct (Z.ltb_spec x t) as [Hlt|?]; [|done].
    pose proof (proj1 (Hpart _ _ Hx)) as Hi.
    destruct (Z.ltb_spec x t); [|lia]. specialize (Hi eq_refl). lia. }
  rewrite <- collect_equal_scan by done.
  destruct (a !! r) as [y|] eqn:Hy.
  - rewrite (drop_S _ _ _ Hy). simpl. by destruct (y =? t)%Z.
  - apply lookup_ge_None in Hy. by rewrite drop_ge.
Qed.

Lemma find_lt_scan (a : list Z) (t : Z) :
  non_descending a →
  manual_scan (λ x, (x <? t)%Z) a = closed_prefix (find_lt a t)
  ∧ find_lt a t = last (manual_scan (λ x, (x <? t)%Z) a).
Proof.
  intros Ha. destruct (bisect_left_spec a t Ha) as [Hr Hpart].
  rewrite (manual_scan_prefix _ a (bisect_left a t)) by done.
  unfold find_lt. destruct (bisect_left a t) as [|m]; [done|].
  split; [done|]. by rewrite seq_S, last_snoc.
Qed.

Lemma find_le_scan (a : list Z) (t : Z) :
  non_descending a →
  manual_scan (λ x, (x <=? t)%Z) a = closed_prefix (find_le a t)
  ∧ find_le a t = last (manual_scan (λ x, (x <=? t)%Z) a).
Proof.
  intros Ha. destruct (bisect_right_spec a t Ha) as [Hr Hpart].
  rewrite (manual_scan_prefix _ a (bisect_right a t)) by done.
  unfold find_le. destruct (bisect_right a t) as [|m]; [done|].
  split; [done|]. by rewrite seq_S, last_snoc.
Qed.

Lemma head_seq_lt k n : 0 < n → head (seq k n) = Some k.
Proof. destruct n; [lia|done]. Qed.

Lemma find_gt_scan (a : list Z) (t : Z) :
  non_descending a →
  manual_scan (λ x, (t <? x)%Z) a = suffix_from (find_gt a t) (length a)
  ∧ find_gt a t = head (manual_scan (λ x, (t <? x)%Z) a).
Proof.
  intros Ha. destruct (bisect_right_spec a t Ha) as [Hr Hpart].
  rewrite (manual_scan_suffix _ a (bisect_right a t)); cycle 1.
  { intros i x Hx. specialize (Hpart i x Hx).
    rewrite Z.leb_le in Hpart. rewrite Z.ltb_lt. lia. }
  unfold find_gt. simpl. destruct (Nat.ltb_spec (bisect_right a t) (length a)).
  - split; [done|]. by rewrite head_seq_lt by lia.
  - replace (length a - bisect_right a t) with 0 by lia. done.
Qed.

Lemma find_ge_scan (a : list Z) (t : Z) :
  non_descending a →
  manual_scan (λ x, (t <=? x)%Z) a = suffix_from (find_ge a t) (length a)
  ∧ find_ge a t = head (manual_scan (λ x, (t <=? x)%Z) a).
Proof.
  intros Ha. destruct (bisect_left_spec a t Ha) as [Hr Hpart].
  rewrite (manual_scan_suffix _ a (bisect_left a t)); cycle 1.
  { intros i x Hx. specialize (Hpart i x Hx).
    rewrite Z.ltb_lt in Hpart. rewrite Z.leb_le. lia. }
  unfold find_ge. simpl. destruct (Nat.ltb_spec (bisect_left a t) (length a)).
  - split; [done|]. by rewrite head_seq_lt by lia.
  - replace (length a - bisect_left a t) with 0 by lia. done.
Qed.

(** ** Building the index *)

Lemma index_point_timestamps idx point self :
  _timestamps (index_point idx point self) = _timestamps self ++ [time point].
Proof. reflexivity. Qed.

Lemma index_point_num_items idx point self :
  _num_items (index_point idx point self) = (_num_items self + 1)%Z.
Proof. reflexivity. Qed.

Lemma index_point_valid idx point self :
  _valid (index_point idx point self) = _valid self.
Proof. reflexivity. Qed.

Lemma index_points_timestamps start_idx points self :
  _timestamps (index_points start_idx points self) = _timestamps self ++ (time <$> points).
Proof.
  revert start_idx self. induction points as [|pt points IH]; intros k self; simpl.
  - by rewrite app_nil_r.
  - rewrite IH, index_point_timestamps, <- app_assoc. done.
Qed.

Lemma index_points_num_items start_idx points self :
  _num_items (index_points start_idx points self)
  = (_num_items self + Z.of_nat (length points))%Z.
Proof.
  revert start_idx self. induction points as [|pt points IH]; intros k self; simpl.
  - lia.
  - rewrite IH, index_point_num_items. lia.
Qed.

Lemma index_points_valid start_idx points self :
  _valid (index_points start_idx points self) = _valid self.
Proof.
  revert start_idx self. induction points as [|pt points IH]; intros k self; simpl.
  - done.
  - by rewrite IH, index_point_valid.
Qed.

Lemma build_timestamps points self : _timestamps (build points self) = time <$> points.
Proof. unfold build. by rewrite index_points_timestamps. Qed.

Lemma build_num_items points self :
  _num_items (build points self) = Z.of_nat (length points).
Proof. unfold build. by rewrite index_points_num_items. Qed.

(** ** Searching a time leaf *)

Lemma search_time_leaf {lib : Datetime} q self :
  _point_attr q = attr_time →
  search (Simple q) self =
    match _search_timestamps q self with
    | (Ok items, self') => (Ok (mkIndexResult items true (_num_items self')), self')
    | (Raise e, self') => (Raise e, self')
    end.
Proof.
  intros Hattr. unfold search. simpl. rewrite Hattr. unfold bind, attr, ret.
  by destruct (_search_timestamps q self) as [[|] ?].
Qed.

(** C1: after [build] over points in non-descending time order, the
    search for [time == t] answers a complete result whose items are
    exactly the positions of the points whose timestamp is [t], as a
    manual scan of the points finds them (all duplicates, none when [t]
    is absent). *)
Theorem search_time_eq_round_trip {lib : Datetime} (points : list Point) (self : Index) (q : SimpleQuery) :
  non_descending (time <$> points) →
  _point_attr q = attr_time →
  _operator q = op_eq →
  ∃ rst, search (Simple q) (build points self) = (Ok rst, build points self)
    ∧ _items rst = manual_scan (λ x, (x =? _rhs q)%Z) (time <$> points)
    ∧ (∀ p, p ∈ _items rst ↔ ∃ pt, points !! p = Some pt ∧ time pt = _rhs q)
    ∧ _is_complete rst = true.
Proof.
  intros Hsorted Hattr Hop. rewrite (search_time_leaf _ _ Hattr).
  unfold _search_timestamps, bind, attr, ret. rewrite Hop, build_timestamps.
  pose proof (find_eq_scan _ (_rhs q) Hsorted) as Hscan.
  assert (∀ items, items = manual_scan (λ x, (x =? _rhs q)%Z) (time <$> points) →
    ∀ p, p ∈ items ↔ ∃ pt, points !! p = Some pt ∧ time pt = _rhs q) as Hmem.
  { intros items -> p. unfold manual_scan. rewrite elem_of_manual_scan_from. split.
    - intros (i&x&->&Hx&Heq). rewrite list_lookup_fmap in Hx.
      destruct (points !! i) as [pt|] eqn:Hpt; simplify_eq/=.
      exists pt. split; [done|lia].
    - intros (pt&Hpt&Heq). exists p, (time pt). rewrite list_lookup_fmap, Hpt.
      split_and!; [done..|]. simpl. lia. }
  destruct (find_eq (time <$> points) (_rhs q)); eexists;
    (split; [reflexivity|]); simpl; split_and!; auto.
Qed.

Lemma search_time_eq_round_trip_witness :
  let points := [mkPoint 10 "m" ∅ ∅; mkPoint 20 "m" ∅ ∅; mkPoint 20 "m" ∅ ∅] in
  let q := mkSimpleQuery attr_time op_eq 20 Some (λ _, true) in
  ∃ rst, search (Simple q) (build points (__init__ true))
           = (Ok rst, build points (__init__ true))
    ∧ _items rst = [1; 2]
    ∧ (∀ p, p ∈ _items rst ↔ ∃ pt, points !! p = Some pt ∧ time pt = 20%Z)
    ∧ _is_complete rst = true.
Proof.
  intros points q.
  apply (search_time_eq_round_trip points (__init__ true) q).
  - subst points. solve_sorted.
  - reflexivity.
  - reflexivity.
Defined.

(** C4: on an index whose timestamps are in non-descending order, the
    searches for [time < t] and [time <= t] answer exactly the positions
    whose timestamp qualifies, the closed prefix up to the rightmost
    qualifying position; those for [time > t] and [time >= t] answer
    exactly the qualifying positions, the suffix from the leftmost
    one up to the length of the timestamps, which is [num_items] when
    the two are aligned; nothing when no timestamp qualifies.  Each
    result is complete. *)
Theorem search_time_ranges {lib : Datetime} (self : Index) (q : SimpleQuery) :
  non_descending (_timestamps self) →
  _point_attr q = attr_time →
  let ts := _timestamps self in
  let t := _rhs q in
  let answers (P : Z → bool) (shape : nat → list nat) :=
    ∃ rst, search (Simple q) self = (Ok rst, self)
      ∧ _items rst = manual_scan P ts
      ∧ _items rst = shape (length ts)
      ∧ (Z.of_nat (length ts) = _num_items self →
         _items rst = shape (Z.to_nat (_num_items self)))
      ∧ _is_complete rst = true in
  (_operator q = op_lt →
   answers (λ x, x <? t)%Z (λ _, closed_prefix (last (manual_scan (λ x, x <? t)%Z ts))))
  ∧ (_operator q = op_le →
     answers (λ x, x <=? t)%Z
       (λ _, closed_prefix (last (manual_scan (λ x, x <=? t)%Z ts))))
  ∧ (_operator q = op_gt →
     answers (λ x, t <? x)%Z (suffix_from (head (manual_scan (λ x, t <? x)%Z ts))))
  ∧ (_operator q = op_ge →
     answers (λ x, t <=? x)%Z (suffix_from (head (manual_scan (λ x, t <=? x)%Z ts)))).
Proof.
  intros Hsorted Hattr ts t answers. subst answers. simpl.
  rewrite (search_time_leaf _ _ Hattr).
  unfold _search_timestamps, bind, attr, ret. fold ts t.
  split_and!; intros ->.
  - destruct (find_lt_scan ts t Hsorted) as [-> <-].
    destruct (find_lt ts t); eexists; (split; [reflexivity|]); simpl;
      rewrite ?Nat.add_1_r; done.
  - destruct (find_le_scan ts t Hsorted) as [-> <-].
    destruct (find_le ts t); eexists; (split; [reflexivity|]); simpl;
      rewrite ?Nat.add_1_r; done.
  - destruct (find_gt_scan ts t Hsorted) as [-> <-].
    destruct (find_gt ts t); eexists; (split; [reflexivity|]); simpl;
      (split_and!; try done; intros <-; by rewrite Nat2Z.id).
  - destruct (find_ge_scan ts t Hsorted) as [-> <-].
    destruct (find_ge ts t); eexists; (split; [reflexivity|]); simpl;
      (split_and!; try done; intros <-; by rewrite Nat2Z.id).
Qed.

Lemma search_time_ranges_witness :
  let self := build [mkPoint 10 "m" ∅ ∅; mkPoint 20 "m" ∅ ∅; mkPoint 20 "m" ∅ ∅]
                (__init__ true) in
  let q := mkSimpleQuery attr_time op_gt 10 Some (λ _, true) in
  ∃ rst, search (Simple q) self = (Ok rst, self)
    ∧ _items rst = [1; 2] ∧ _items rst = seq 1 (3 - 1)
    ∧ (Z.of_nat 3 = 3%Z → _items rst = seq 1 (3 - 1))
    ∧ _is_complete rst = true.
Proof.
  intros self q.
  refine (proj1 (proj2 (proj2 (search_time_ranges self q _ _))) _).
  - subst self. solve_sorted.
  - reflexivity.
  - reflexivity.
Defined.

(** ** The evaluator *)

Lemma search_timestamps_frame {lib : Datetime} q self : snd (_search_timestamps q self) = self.
Proof.
  unfold _search_timestamps, bind, attr, ret, raise. simpl.
  destruct (_operator q); simpl;
    repeat match goal with |- context [match ?x with _ => _ end] => destruct x end;
    reflexivity.
Qed.

Lemma search_measurement_frame q self : snd (_search_measurement q self) = self.
Proof.
  unfold _search_measurement, bind, attr, ret, raise. simpl.
  by destruct (map_fold _ _ _).
Qed.

Lemma search_tags_eval q self : ∃ items, _search_tags q self = (Ok items, self).
Proof. by eexists. Qed.

Lemma search_fields_eval q self : ∃ items, _search_fields q self = (Ok items, self).
Proof. by eexists. Qed.

Lemma bind_frame {A B} (m : Method A) (k : A → Method B) self :
  snd (m self) = self → (∀ a, snd (k a self) = self) → snd (bind m k self) = self.
Proof.
  unfold bind. destruct (m self) as [[a|e] self'] eqn:Hm; simpl; intros ->; auto.
Qed.

Lemma search_frame {lib : Datetime} query self : snd (search query self) = self.
Proof.
  unfold search. revert self.
  induction query as [q|op query1 IH1 query2 IH2|]; intros self; simpl; [| |done].
  - destruct (_point_attr q); try done; (apply bind_frame; [|done]);
      first [apply search_timestamps_frame|apply search_measurement_frame|done].
  - destruct op; try done.
    + apply bind_frame; [done|]. intros rst1. apply bind_frame; done.
    + apply bind_frame; [done|]. intros rst1. apply bind_frame; done.
    + apply bind_frame; [done|]. intros rst. by destruct (is_field_leaf query1).
Qed.









(** C2: a negation whose child is a leaf on fields answers the whole
    range [0 .. num_items) and stays incomplete; a negation over any
    other child answers the complement of the child's result. *)
Theorem search_not {lib : Datetime} (self : Index) (query1 query2 : Query) :
  (∀ q, query1 = Simple q → _point_attr q = attr_fields →
     search (Compound op_not query1 query2) self
     = (Ok (mkIndexResult (range (_num_items self)) false (_num_items self)), self))
  ∧ (is_field_leaf query1 = false →
     ∀ rst self', search query1 self = (Ok rst, self') →
       search (Compound op_not query1 query2) self = (Ok (__invert__ rst), self')).
Proof.
  split.
  - intros q -> Hattr. unfold search. simpl. rewrite Hattr. reflexivity.
  - intros Hleaf rst self' Hsearch. unfold search in *. simpl.
    unfold bind. rewrite Hsearch, Hleaf. reflexivity.
Qed.

Lemma search_not_witness :
  let self := build [mkPoint 10 "m" ∅ {["x" := 1%Z]}; mkPoint 20 "m" ∅ ∅;
                     mkPoint 20 "m" ∅ ∅] (__init__ true) in
  let field_x :=
    mkSimpleQuery attr_fields op_eq 0
      (λ c, match c with
            | CtxEntry k _ => if decide (k = "y") then Some c else None
            | _ => None
            end) (λ _, true) in
  let time_20 := mkSimpleQuery attr_time op_eq 20 Some (λ _, true) in
  search (Compound op_not (Simple field_x) NoQuery) self
    = (Ok (mkIndexResult [0; 1; 2] false 3), self)
  ∧ search (Compound op_not (Simple time_20) NoQuery) self
    = (Ok (mkIndexResult [0] true 3), self).
Proof.
  intros self field_x time_20. split.
  - apply (proj1 (search_not self (Simple field_x) NoQuery) field_x); reflexivity.
  - apply (proj2 (search_not self (Simple time_20) NoQuery) eq_refl
             (mkIndexResult [1; 2] true 3) self).
    reflexivity.
Defined.

(** C10: whatever the index held before, also after [invalidate],
    [build] leaves the state a fresh index reaches by the same [build],
    and the index is valid. *)
Theorem build_from_any_state (points : list Point) (self : Index) :
  build points self = build points (__init__ true)
  ∧ build points (invalidate self) = build points (__init__ true)
  ∧ _valid (invalidate self) = false
  ∧ valid (build points self) = true
  ∧ valid (build points (invalidate self)) = true.
Proof.
  split_and!; try reflexivity.
  - unfold valid, build. by rewrite index_points_valid.
  - unfold valid, build. by rewrite index_points_valid.
Qed.

(** ** Removing positions *)

Lemma remove_timestamps_from_zip i (r_items : gset nat) (ts : list Z) :
  remove_timestamps_from i r_items ts
  = (filter (λ ix, ix.1 ∉ r_items) (zip (seq i (length ts)) ts)).*2.
Proof.
  revert i. induction ts as [|t ts IH]; intros i; simpl; [done|].
  rewrite filter_cons. simpl. rewrite IH.
  destruct (decide (i ∈ r_items)), (decide (i ∉ r_items)); done.
Qed.

Lemma remove_timestamps_from_length i (r_items : gset nat) (ts : list Z) :
  length (remove_timestamps_from i r_items ts)
  = length (filter (λ p, p ∉ r_items) (seq i (length ts))).
Proof.
  revert i. induction ts as [|t ts IH]; intros i; simpl; [done|].
  rewrite filter_cons.
  destruct (decide (i ∈ r_items)), (decide (i ∉ r_items)); simpl; try done;
    by rewrite IH.
Qed.

(** Of [n] positions, [n - |S|] are left when [S] lies within them. *)
Lemma length_filter_not_in (r_items : gset nat) n :
  (∀ p, p ∈ r_items → p < n) →
  length (filter (λ p, p ∉ r_items) (seq 0 n)) = n - size r_items.
Proof.
  intros Hin.
  pose proof (filter_app_complement (λ p, p ∈ r_items) (seq 0 n)) as Hperm.
  apply Permutation_length in Hperm. rewrite length_app, length_seq in Hperm.
  assert (filter (λ p, p ∈ r_items) (seq 0 n) ≡ₚ elements r_items) as Hel.
  { apply NoDup_Permutation.
    - apply NoDup_filter, NoDup_seq.
    - apply NoDup_elements.
    - intros p. rewrite list_elem_of_filter, elem_of_seq, elem_of_elements.
      split; [by intros [? _]|]. intros Hp. split; [done|]. specialize (Hin p Hp). lia. }
  apply Permutation_length in Hel. unfold size, set_size. simpl. lia.
Qed.

Lemma size_bounded (r_items : gset nat) n :
  (∀ p, p ∈ r_items → p < n) → size r_items ≤ n.
Proof.
  intros Hin. assert (elements r_items ⊆+ seq 0 n) as Hsub.
  { apply NoDup_submseteq; [apply NoDup_elements|].
    intros p Hp%elem_of_elements. apply elem_of_seq. specialize (Hin p Hp). lia. }
  apply submseteq_length in Hsub. by rewrite length_seq in Hsub.
Qed.

Lemma remove_postings_omap (r_items : gset nat) (m : gmap string (list nat)) :
  map_fold (λ key old_items new,
              match keep_items r_items old_items with
              | [] => new
              | new_items => <[key := new_items]> new
              end) ∅ m
  = omap (surviving r_items) m.
Proof.
  apply (map_fold_weak_ind (λ r m, r = omap (surviving r_items) m)).
  - by rewrite omap_empty.
  - intros key items m' r Hkey ->. unfold keep_items.
    destruct (filter _ items) as [|p new_items] eqn:Hf.
    + rewrite omap_insert_None; [|by unfold surviving; rewrite Hf].
      rewrite delete_id; [done|]. by rewrite lookup_omap, Hkey.
    + by rewrite (omap_insert_Some _ _ _ _ (p :: new_items));
        [|unfold surviving; rewrite Hf].
Qed.

(** The inner loop of [_remove_tags], run for a tag key that the new
    mapping does not hold yet. *)
Lemma remove_tag_values_fold (r_items : gset nat) tag_key
    (tag_values : gmap string (list nat)) new_tags :
  new_tags !! tag_key = None →
  map_fold (remove_tag_value r_items tag_key) new_tags tag_values
  = match surviving_values r_items tag_values with
    | Some new_values => <[tag_key := new_values]> new_tags
    | None => new_tags
    end.
Proof.
  intros Hnew. unfold surviving_values.
  transitivity (if decide (omap (surviving r_items) tag_values = ∅) then new_tags
                else <[tag_key := omap (surviving r_items) tag_values]> new_tags);
    [|by destruct (decide _)].
  pose (P := λ (r : gmap string (gmap string (list nat))) (m : gmap string (list nat)),
    r = if decide (omap (surviving r_items) m = ∅) then new_tags
        else <[tag_key := omap (surviving r_items) m]> new_tags).
  apply (map_fold_weak_ind P); subst P; simpl.
  - by rewrite omap_empty, decide_True.
  - intros value items m r Hvalue ->. unfold remove_tag_value, keep_items.
    destruct (filter _ items) as [|p new_items] eqn:Hf.
    + rewrite omap_insert_None; [|by unfold surviving; rewrite Hf].
      rewrite delete_id; [done|]. by rewrite lookup_omap, Hvalue.
    + rewrite (omap_insert_Some _ _ _ _ (p :: new_items));
        [|by unfold surviving; rewrite Hf].
      rewrite (decide_False (P := <[_ := _]> _ = ∅)); [|apply insert_non_empty].
      destruct (decide (omap (surviving r_items) m = ∅)) as [->|Hne].
      * by rewrite Hnew, insert_empty.
      * by rewrite lookup_insert_eq, insert_insert_eq.
Qed.

Lemma remove_tags_omap (r_items : gset nat) (tags : gmap string (gmap string (list nat))) :
  map_fold (λ tag_key tag_values new_tags,
              map_fold (remove_tag_value r_items tag_key) new_tags tag_values) ∅ tags
  = omap (surviving_values r_items) tags.
Proof.
  apply (map_fold_weak_ind (λ r m, r = omap (surviving_values r_items) m)).
  - by rewrite omap_empty.
  - intros tag_key tag_values m r Hkey ->.
    rewrite remove_tag_values_fold; [|by rewrite lookup_omap, Hkey].
    destruct (surviving_values r_items tag_values) as [new_values|] eqn:Hs.
    + by rewrite (omap_insert_Some _ _ _ _ new_values).
    + rewrite omap_insert_None by done.
      rewrite delete_id; [done|]. by rewrite lookup_omap, Hkey.
Qed.

Lemma remove_eq (r_items : gset nat) (self : Index) :
  remove r_items self
  = mkIndex (_num_items self - Z.of_nat (size r_items))
      (omap (surviving_values r_items) (_tags self))
      (omap (surviving r_items) (_fields self))
      (omap (surviving r_items) (_measurements self))
      (without_positions r_items (_timestamps self))
      (_valid self).
Proof.
  unfold remove, _remove_fields, _remove_tags, _remove_measurements,
    _remove_timestamps, set_num_items, set_fields, set_tags, set_measurements,
    set_timestamps. simpl.
  rewrite !remove_postings_omap, remove_tags_omap, remove_timestamps_from_zip. done.
Qed.

Lemma without_positions_length (r_items : gset nat) (ts : list Z) :
  (∀ p, p ∈ r_items → p < length ts) →
  length (without_positions r_items ts) = length ts - size r_items.
Proof.
  intros Hin. rewrite <- length_filter_not_in by done.
  rewrite <- remove_timestamps_from_length. by rewrite remove_timestamps_from_zip.
Qed.

(** C6: on an index built from a list of points, removing a set of
    positions within [0 .. num_items) leaves the timestamps without
    the entries at those indices, each posting list of measurements,
    tags and fields with the removed positions filtered out and the
    other positions as they were, no key with an empty posting list,
    and [num_items] smaller by the size of the set. *)
Theorem remove_spec (points : list Point) (self0 : Index) (r_items : gset nat) :
  let self := build points self0 in
  (∀ p, p ∈ r_items → (Z.of_nat p < _num_items self)%Z) →
  let self' := remove r_items self in
  _timestamps self' = without_positions r_items (_timestamps self)
  ∧ _measurements self' = omap (surviving r_items) (_measurements self)
  ∧ _tags self' = omap (surviving_values r_items) (_tags self)
  ∧ _fields self' = omap (surviving r_items) (_fields self)
  ∧ _num_items self' = (_num_items self - Z.of_nat (size r_items))%Z
  ∧ Z.of_nat (length (_timestamps self')) = _num_items self'.
Proof.
  intros self Hin self'. subst self'. rewrite remove_eq. simpl.
  split_and!; try done.
  assert (∀ p, p ∈ r_items → p < length points) as Hin'.
  { intros p Hp. specialize (Hin p Hp). subst self.
    rewrite build_num_items in Hin. lia. }
  subst self. rewrite build_timestamps, build_num_items.
  rewrite without_positions_length; rewrite length_fmap; [|done].
  pose proof (size_bounded r_items (length points) Hin'). lia.
Qed.

Lemma remove_spec_witness :
  let points := [mkPoint 10 "m" {["host" := "a"]} ∅;
                 mkPoint 20 "m" {["host" := "b"]} ∅;
                 mkPoint 20 "n" {["host" := "a"]} ∅] in
  let r_items : gset nat := {[1]} in
  let self := build points (__init__ true) in
  let self' := remove r_items self in
  _timestamps self' = [10; 20]%Z
  ∧ _measurements self' = omap (surviving r_items) (_measurements self)
  ∧ _tags self' = omap (surviving_values r_items) (_tags self)
  ∧ _fields self' = omap (surviving r_items) (_fields self)
  ∧ _num_items self' = (_num_items self - Z.of_nat (size r_items))%Z
  ∧ Z.of_nat (length (_timestamps self')) = _num_items self'.
Proof.
  intros points r_items self.
  apply (remove_spec points (__init__ true) r_items).
  intros p Hp. apply elem_of_singleton in Hp as ->. vm_compute. reflexivity.
Defined.

(** ** Remapping positions *)

Lemma update_items_Some u (items items' : list nat) :
  update_items u items = Some items' → items' = remap u items.
Proof.
  unfold update_items, remap. rewrite mapM_Some.
  induction 1 as [|p q items items' Hp _ IH]; simpl; [done|].
  by rewrite (lookup_total_correct _ _ _ Hp), IH.
Qed.

Lemma update_items_None u (items : list nat) :
  update_items u items = None ↔ ∃ p, p ∈ items ∧ u !! p = None.
Proof. unfold update_items. by rewrite mapM_None, Exists_exists. Qed.

Lemma update_items_covered u (items : list nat) :
  (∀ p, p ∈ items → is_Some (u !! p)) → update_items u items = Some (remap u items).
Proof.
  intros Hcov. destruct (update_items u items) as [items'|] eqn:Hu.
  - by rewrite (update_items_Some _ _ _ Hu).
  - apply update_items_None in Hu as (p&Hp&Hnone).
    destruct (Hcov p Hp) as [? ?]. congruence.
Qed.

Lemma remap_nil_inv u (items : list nat) : remap u items = [] → items = [].
Proof. by destruct items. Qed.

Lemma missing_insert u key items (m : gmap string (list nat)) :
  m !! key = None → missing u m → missing u (<[key := items]> m).
Proof.
  intros Hkey (k&l&p&Hk&Hp&Hu). exists k, l, p. split_and!; [|done..].
  rewrite lookup_insert_ne; [done|]. intros ->. congruence.
Qed.

Lemma covered_insert u key items (m : gmap string (list nat)) :
  covered u m → (∀ p, p ∈ items → is_Some (u !! p)) → covered u (<[key := items]> m).
Proof.
  intros Hm Hitems k l p Hk Hp. destruct (decide (key = k)) as [->|Hne].
  - rewrite lookup_insert_eq in Hk. simplify_eq. auto.
  - rewrite lookup_insert_ne in Hk by done. eauto.
Qed.

Lemma covered_not_missing u (m : gmap string (list nat)) :
  covered u m → missing u m → False.
Proof.
  intros Hc (k&l&p&Hk&Hp&Hu). destruct (Hc k l p Hk Hp) as [? ?]. congruence.
Qed.

(** The loop of [_update_measurements]. *)
Lemma update_measurements_fold u (m : gmap string (list nat)) :
  match map_fold (λ key old_items acc,
                    new_measurements ← acc;
                    updated_items ← update_items u old_items;
                    Some (match updated_items with
                          | [] => new_measurements
                          | _ => <[key := updated_items]> new_measurements
                          end)) (Some ∅) m with
  | None => missing u m
  | Some new_measurements =>
      covered u m
      ∧ new_measurements = remap u <$> filter (λ kl, kl.2 ≠ []) m
  end.
Proof.
  apply (map_fold_weak_ind (λ r m,
    match r with
    | None => missing u m
    | Some new_measurements =>
        covered u m ∧ new_measurements = remap u <$> filter (λ kl, kl.2 ≠ []) m
    end)).
  - split; [by intros ???|]. by rewrite map_filter_empty, fmap_empty.
  - intros key items m' r Hkey IH. destruct r as [new|]; simpl.
    + destruct IH as [Hcov ->].
      destruct (update_items u items) as [updated|] eqn:Hu; simpl.
      * apply update_items_Some in Hu as Hupd. split.
        { apply covered_insert; [done|]. intros p Hp.
          destruct (u !! p) eqn:Hup; [done|].
          assert (update_items u items = None) as Hn
            by (apply update_items_None; eauto). congruence. }
        destruct updated as [|q updated].
        -- symmetry in Hupd. apply remap_nil_inv in Hupd as ->.
           rewrite map_filter_insert_False by (simpl; tauto).
           by rewrite delete_id.
        -- rewrite map_filter_insert_True; [|by simpl; intros ->].
           by rewrite fmap_insert, <- Hupd.
      * apply update_items_None in Hu as (p&Hp&Hup).
        exists key, items, p. by rewrite lookup_insert_eq.
    + by apply missing_insert.
Qed.

(** The loop of [_update_fields], which overwrites the entries of the
    mapping [base] it started from. *)
Lemma update_fields_fold u (base m : gmap string (list nat)) :
  match map_fold (λ field_key old_items acc,
                    fs ← acc;
                    updated_items ← update_items u old_items;
                    Some (<[field_key := updated_items]> fs)) (Some base) m with
  | None => missing u m
  | Some fs => covered u m ∧ fs = (remap u <$> m) ∪ base
  end.
Proof.
  apply (map_fold_weak_ind (λ r m,
    match r with
    | None => missing u m
    | Some fs => covered u m ∧ fs = (remap u <$> m) ∪ base
    end)).
  - split; [by intros ???|]. by rewrite fmap_empty, (left_id_L ∅ (∪)).
  - intros key items m' r Hkey IH. destruct r as [fs|]; simpl.
    + destruct IH as [Hcov ->].
      destruct (update_items u items) as [updated|] eqn:Hu; simpl.
      * apply update_items_Some in Hu as Hupd. split.
        { apply covered_insert; [done|]. intros p Hp.
          destruct (u !! p) eqn:Hup; [done|].
          assert (update_items u items = None) as Hn
            by (apply update_items_None; eauto). congruence. }
        by rewrite fmap_insert, <- insert_union_l, Hupd.
      * apply update_items_None in Hu as (p&Hp&Hup).
        exists key, items, p. by rewrite lookup_insert_eq.
    + by apply missing_insert.
Qed.

Lemma fmap_union_self {A} (f : A → A) (m : gmap string A) : (f <$> m) ∪ m = f <$> m.
Proof.
  apply map_eq. intros k. rewrite lookup_union, lookup_fmap.
  by destruct (m !! k).
Qed.

(** The inner loop of [_update_tags] for the values of one tag key. *)
Lemma update_tag_values_fold u tag_key (tag_values : gmap string (list nat))
    (acc : option (gmap string (gmap string (list nat)))) :
  match map_fold (λ value old_items acc,
                    ts ← acc;
                    updated_items ← update_items u old_items;
                    Some (alter (λ values, <[value := updated_items]> values) tag_key ts))
          acc tag_values with
  | None => acc = None ∨ missing u tag_values
  | Some ts' =>
      ∃ ts, acc = Some ts ∧ covered u tag_values
        ∧ ts' = alter (λ values, (remap u <$> tag_values) ∪ values) tag_key ts
  end.
Proof.
  apply (map_fold_weak_ind (λ r m,
    match r with
    | None => acc = None ∨ missing u m
    | Some ts' =>
        ∃ ts, acc = Some ts ∧ covered u m
          ∧ ts' = alter (λ values, (remap u <$> m) ∪ values) tag_key ts
    end)).
  - destruct acc as [ts|]; [|by left]. exists ts. split_and!; [done|by intros ???|].
    symmetry. apply alter_id. intros values _.
    by rewrite fmap_empty, (left_id_L ∅ (∪)).
  - intros value items m r Hvalue IH. destruct r as [ts'|]; simpl.
    + destruct IH as (ts&->&Hcov&->).
      destruct (update_items u items) as [updated|] eqn:Hu; simpl.
      * apply update_items_Some in Hu as Hupd. exists ts. split_and!; [done| |].
        { apply covered_insert; [done|]. intros p Hp.
          destruct (u !! p) eqn:Hup; [done|].
          assert (update_items u items = None) as Hn
            by (apply update_items_None; eauto). congruence. }
        rewrite alter_alter_eq. apply alter_ext. intros values _. simpl.
        by rewrite fmap_insert, <- insert_union_l, Hupd.
      * right. apply update_items_None in Hu as (p&Hp&Hup).
        exists value, items, p. by rewrite lookup_insert_eq.
    + destruct IH as [?|?]; [by left|]. right. by apply missing_insert.
Qed.

(** The loop of [_update_tags] over the tag keys of [m], run on the
    mapping [base]. *)
Lemma update_tags_fold u (base m : gmap string (gmap string (list nat))) :
  match map_fold (λ tag_key tag_values acc,
                    map_fold (λ value old_items acc,
                                ts ← acc;
                                updated_items ← update_items u old_items;
                                Some (alter (λ values, <[value := updated_items]> values)
                                        tag_key ts))
                      acc tag_values) (Some base) m with
  | None => ∃ tag_key tag_values, m !! tag_key = Some tag_values ∧ missing u tag_values
  | Some ts =>
      (∀ tag_key tag_values, m !! tag_key = Some tag_values → covered u tag_values)
      ∧ ∀ tag_key, ts !! tag_key =
          match m !! tag_key with
          | Some tag_values => (λ values, (remap u <$> tag_values) ∪ values) <$> base !! tag_key
          | None => base !! tag_key
          end
  end.
Proof.
  apply (map_fold_weak_ind (λ r m,
    match r with
    | None => ∃ tag_key tag_values, m !! tag_key = Some tag_values ∧ missing u tag_values
    | Some ts =>
        (∀ tag_key tag_values, m !! tag_key = Some tag_values → covered u tag_values)
        ∧ ∀ tag_key, ts !! tag_key =
            match m !! tag_key with
            | Some tag_values =>
                (λ values, (remap u <$> tag_values) ∪ values) <$> base !! tag_key
            | None => base !! tag_key
            end
    end)).
  - split; [by intros ??|]. intros k. by rewrite lookup_empty.
  - intros tag_key tag_values m' r Hkey IH.
    pose proof (update_tag_values_fold u tag_key tag_values r) as Hinner.
    destruct (map_fold _ r tag_values) as [ts'|].
    + destruct Hinner as (ts&->&Hcov&->). destruct IH as [Hall Hlook]. split.
      * intros k vals Hk. destruct (decide (tag_key = k)) as [->|Hne].
        -- rewrite lookup_insert_eq in Hk. by simplify_eq.
        -- rewrite lookup_insert_ne in Hk by done. eauto.
      * intros k. destruct (decide (tag_key = k)) as [->|Hne].
        -- rewrite lookup_alter_eq, lookup_insert_eq, Hlook, Hkey. done.
        -- rewrite lookup_alter_ne, lookup_insert_ne by done. apply Hlook.
    + destruct Hinner as [->|Hmiss].
      * destruct IH as (k&vals&Hk&Hmiss). exists k, vals. split; [|done].
        rewrite lookup_insert_ne; [done|]. intros ->. congruence.
      * exists tag_key, tag_values. by rewrite lookup_insert_eq.
Qed.

Lemma _update_measurements_spec u self :
  match _update_measurements u self with
  | None => missing u (_measurements self)
  | Some self' =>
      covered u (_measurements self)
      ∧ self' = set_measurements
                  (remap u <$> filter (λ kl, kl.2 ≠ []) (_measurements self)) self
  end.
Proof.
  unfold _update_measurements.
  pose proof (update_measurements_fold u (_measurements self)) as H.
  destruct (map_fold _ _ _) as [ms|]; simpl; [|done].
  by destruct H as [? ->].
Qed.

Lemma _update_tags_spec u self :
  match _update_tags u self with
  | None => ∃ tag_key tag_values,
      _tags self !! tag_key = Some tag_values ∧ missing u tag_values
  | Some self' =>
      (∀ tag_key tag_values, _tags self !! tag_key = Some tag_values →
         covered u tag_values)
      ∧ self' = set_tags (remap_values u <$> _tags self) self
  end.
Proof.
  unfold _update_tags.
  pose proof (update_tags_fold u (_tags self) (_tags self)) as H.
  destruct (map_fold _ _ _) as [ts|]; simpl; [|done].
  destruct H as [Hcov Hlook]. split; [done|]. f_equal.
  apply map_eq. intros k. rewrite Hlook, lookup_fmap.
  destruct (_tags self !! k) as [vals|]; simpl; [|done].
  by rewrite fmap_union_self.
Qed.

Lemma _update_fields_spec u self :
  match _update_fields u self with
  | None => missing u (_fields self)
  | Some self' =>
      covered u (_fields self) ∧ self' = set_fields (remap u <$> _fields self) self
  end.
Proof.
  unfold _update_fields.
  pose proof (update_fields_fold u (_fields self) (_fields self)) as H.
  destruct (map_fold _ _ _) as [fs|]; simpl; [|done].
  destruct H as [? ->]. by rewrite fmap_union_self.
Qed.

Lemma referenced_missing u self :
  (∃ p, referenced self p ∧ u !! p = None)
  ↔ missing u (_measurements self)
    ∨ (∃ tag_key tag_values,
         _tags self !! tag_key = Some tag_values ∧ missing u tag_values)
    ∨ missing u (_fields self).
Proof.
  unfold referenced, posting, missing. split.
  - intros (p&(items&[(m&Hm)|[(k&vals&v&Hk&Hv)|(f&Hf)]]&Hp)&Hu).
    + left. eauto 10.
    + right. left. eauto 10.
    + right. right. eauto 10.
  - intros [(m&items&p&?&?&?)|[(k&vals&?&v&items&p&?&?&?)|(f&items&p&?&?&?)]];
      exists p; (split; [exists items; split; [|done]|done]).
    + left. eauto.
    + right. left. eauto 10.
    + right. right. eauto.
Qed.

Lemma update_cases u self :
  match update u self with
  | None =>
      missing u (_measurements self)
      ∨ (∃ tag_key tag_values,
           _tags self !! tag_key = Some tag_values ∧ missing u tag_values)
      ∨ missing u (_fields self)
  | Some self' =>
      (covered u (_measurements self)
       ∧ (∀ tag_key tag_values, _tags self !! tag_key = Some tag_values →
            covered u tag_values)
       ∧ covered u (_fields self))
      ∧ self' = mkIndex (_num_items self)
                  (remap_values u <$> _tags self)
                  (remap u <$> _fields self)
                  (remap u <$> filter (λ kl, kl.2 ≠ []) (_measurements self))
                  (_timestamps self)
                  (_valid self)
  end.
Proof.
  unfold update.
  pose proof (_update_measurements_spec u self) as Hm.
  destruct (_update_measurements u self) as [s1|]; simpl; [|auto].
  destruct Hm as [Hcm ->].
  match goal with |- context [_update_tags u ?s] =>
    pose proof (_update_tags_spec u s) as Ht; destruct (_update_tags u s) as [s2|] end;
    simpl in *; [|auto].
  destruct Ht as [Hct ->].
  match goal with |- context [_update_fields u ?s] =>
    pose proof (_update_fields_spec u s) as Hf; destruct (_update_fields u s) as [s3|] end;
    simpl in *; [|auto].
  destruct Hf as [Hcf ->]. done.
Qed.

(** C8: [update] propagates the lookup fault exactly when a position
    referenced by measurements, tags or fields is missing from the map;
    when the map has every referenced position, [update] returns and
    every posting list holds the mapped positions. *)
Theorem update_spec (u_items : gmap nat nat) (self : Index) :
  (update u_items self = None ↔ ∃ p, referenced self p ∧ u_items !! p = None)
  ∧ ((∀ p, referenced self p → is_Some (u_items !! p)) →
     update u_items self
     = Some (mkIndex (_num_items self)
               (remap_values u_items <$> _tags self)
               (remap u_items <$> _fields self)
               (remap u_items <$> filter (λ kl, kl.2 ≠ []) (_measurements self))
               (_timestamps self)
               (_valid self))).
Proof.
  pose proof (update_cases u_items self) as Hcases.
  rewrite referenced_missing.
  destruct (update u_items self) as [self'|].
  - destruct Hcases as [(Hcm&Hct&Hcf) ->]. split; [|done].
    split; [done|]. intros [Hmiss|[(k&vals&Hk&Hmiss)|Hmiss]]; exfalso.
    + exact (covered_not_missing _ _ Hcm Hmiss).
    + exact (covered_not_missing _ _ (Hct k vals Hk) Hmiss).
    + exact (covered_not_missing _ _ Hcf Hmiss).
  - split; [done|]. intros Hcov. exfalso.
    apply referenced_missing in Hcases as (p&Hp&Hnone).
    destruct (Hcov p Hp) as [? ?]. congruence.
Qed.

Lemma update_spec_witness :
  let self := build [mkPoint 10 "m" {["host" := "a"]} {["x" := 1%Z]};
                     mkPoint 20 "n" {["host" := "a"]} ∅] (__init__ true) in
  let u_items : gmap nat nat := {[0 := 1; 1 := 0]} in
  update u_items self
  = Some (mkIndex 2 {["host" := {["a" := [1; 0]]}]} {["x" := [1]]}
            {["m" := [1]; "n" := [0]]} [10; 20]%Z true).
Proof.
  intros self u_items.
  assert (∀ p, referenced self p → is_Some (u_items !! p)) as Hcov.
  { intros p (items&Hposting&Hp).
    assert (p = 0 ∨ p = 1) as [-> | ->]; [|by eexists..].
    assert (items = [0] ∨ items = [1] ∨ items = [0; 1]) as Hitems.
    { destruct Hposting as [(m&Hm)|[(k&vals&v&Hk&Hv)|(f&Hf)]].
      - change (_measurements self) with ({["n" := [1]; "m" := [0]]} : gmap _ _) in Hm.
        apply lookup_insert_Some in Hm as [[_ <-]|[_ Hm]]; [auto|].
        apply lookup_singleton_Some in Hm as [_ <-]. auto.
      - change (_tags self)
          with ({["host" := {["a" := [0; 1]]}]} : gmap string (gmap string (list nat)))
          in Hk.
        apply lookup_singleton_Some in Hk as [_ <-].
        apply lookup_singleton_Some in Hv as [_ <-]. auto.
      - change (_fields self) with ({["x" := [0]]} : gmap _ _) in Hf.
        apply lookup_singleton_Some in Hf as [_ <-]. auto. }
    destruct Hitems as [->|[->| ->]]; set_solver. }
  etransitivity; [apply (proj2 (update_spec u_items self) Hcov)|].
  vm_compute. reflexivity.
Defined.

(** ** The posting invariant under insertion *)

Lemma good_posting_snoc n items : good_posting n items → good_posting (S n) (items ++ [n]).
Proof.
  intros [Hasc Hlt]. split.
  - by apply ascending_snoc.
  - apply Forall_app. split; [|repeat constructor].
    eapply Forall_impl; [done|]. simpl. lia.
Qed.

Lemma good_posting_singleton n : good_posting (S n) [n].
Proof. apply (good_posting_snoc n []). split; constructor. Qed.

Lemma good_posting_mono n n' items : n ≤ n' → good_posting n items → good_posting n' items.
Proof.
  intros Hn [Hasc Hlt]. split; [done|]. eapply Forall_impl; [done|]. simpl. lia.
Qed.

(** Appending [idx] to the list under a key, or starting one. *)
Lemma good_posting_appended idx (old : option (list nat)) :
  (∀ items, old = Some items → good_posting idx items) →
  good_posting (S idx) (default [] old ++ [idx]).
Proof.
  intros Hold. destruct old as [items|]; simpl.
  - by apply good_posting_snoc, Hold.
  - apply good_posting_singleton.
Qed.

Lemma insert_fields_lookup idx (point_fields : gmap string Z)
    (fs : gmap string (list nat)) key :
  map_fold (λ field_key _ fs, insert_field_key idx field_key fs) fs point_fields !! key
  = match point_fields !! key with
    | Some _ => Some (default [] (fs !! key) ++ [idx])
    | None => fs !! key
    end.
Proof.
  revert key. apply (map_fold_weak_ind (λ r m, ∀ key,
    r !! key = match m !! key with
               | Some _ => Some (default [] (fs !! key) ++ [idx])
               | None => fs !! key
               end)).
  - intros key. by rewrite lookup_empty.
  - intros field_key x m r Hm IH key. unfold insert_field_key.
    pose proof (IH field_key) as Hr. rewrite Hm in Hr.
    destruct (decide (field_key = key)) as [->|Hne].
    + rewrite lookup_insert_eq, Hr.
      destruct (fs !! key); by rewrite lookup_insert_eq.
    + rewrite (lookup_insert_ne m) by done. rewrite <- IH.
      destruct (r !! field_key); by rewrite lookup_insert_ne.
Qed.

Lemma insert_measurements_lookup idx name (ms : gmap string (list nat)) key :
  match ms !! name with
  | None => <[name := [idx]]> ms
  | Some items => <[name := items ++ [idx]]> ms
  end !! key
  = if decide (name = key) then Some (default [] (ms !! key) ++ [idx]) else ms !! key.
Proof.
  destruct (decide (name = key)) as [->|Hne].
  - destruct (ms !! key); by rewrite lookup_insert_eq.
  - destruct (ms !! name); by rewrite lookup_insert_ne.
Qed.

Lemma insert_tag_pair_lookup idx tag_key tag_value
    (ts : gmap string (gmap string (list nat))) key :
  insert_tag_pair idx tag_key tag_value ts !! key
  = if decide (tag_key = key) then Some (tagged idx tag_value (ts !! key)) else ts !! key.
Proof.
  unfold insert_tag_pair, tagged.
  destruct (ts !! tag_key) as [values|] eqn:Hts.
  - rewrite (lookup_total_correct _ _ _ Hts).
    destruct (decide (tag_key = key)) as [->|Hne].
    + rewrite Hts. simpl. destruct (values !! tag_value); by rewrite lookup_insert_eq.
    + destruct (values !! tag_value); by rewrite lookup_insert_ne.
  - rewrite lookup_total_insert_eq, lookup_empty, insert_insert_eq.
    destruct (decide (tag_key = key)) as [->|Hne].
    + by rewrite Hts, lookup_insert_eq.
    + by rewrite lookup_insert_ne.
Qed.

Lemma insert_tags_lookup idx (point_tags : gmap string string)
    (ts : gmap string (gmap string (list nat))) key :
  map_fold (insert_tag_pair idx) ts point_tags !! key
  = match point_tags !! key with
    | Some tag_value => Some (tagged idx tag_value (ts !! key))
    | None => ts !! key
    end.
Proof.
  revert key. apply (map_fold_weak_ind (λ r m, ∀ key,
    r !! key = match m !! key with
               | Some tag_value => Some (tagged idx tag_value (ts !! key))
               | None => ts !! key
               end)).
  - intros key. by rewrite lookup_empty.
  - intros tag_key tag_value m r Hm IH key. rewrite insert_tag_pair_lookup.
    pose proof (IH tag_key) as Hr. rewrite Hm in Hr.
    destruct (decide (tag_key = key)) as [->|Hne].
    + by rewrite lookup_insert_eq, Hr.
    + rewrite lookup_insert_ne by done. apply IH.
Qed.

Lemma index_point_measurements idx point self :
  _measurements (index_point idx point self)
  = match _measurements self !! measurement point with
    | None => <[measurement point := [idx]]> (_measurements self)
    | Some items => <[measurement point := items ++ [idx]]> (_measurements self)
    end.
Proof. reflexivity. Qed.

Lemma index_point_fields idx point self :
  _fields (index_point idx point self)
  = map_fold (λ field_key _ fs, insert_field_key idx field_key fs)
      (_fields self) (fields point).
Proof. reflexivity. Qed.

Lemma index_point_tags idx point self :
  _tags (index_point idx point self)
  = map_fold (insert_tag_pair idx) (_tags self) (tags point).
Proof. reflexivity. Qed.

Lemma index_point_well_indexed point self :
  well_indexed self →
  well_indexed (index_point (length (_timestamps self)) point self).
Proof.
  intros [Hlen Hpost]. set (n := length (_timestamps self)) in *.
  split.
  { rewrite index_point_timestamps, index_point_num_items, length_app. simpl. lia. }
  rewrite index_point_timestamps, length_app, Nat.add_1_r. simpl. fold n.
  intros items [(m&Hm)|[(k&vals&v&Hk&Hv)|(f&Hf)]].
  - rewrite index_point_measurements, insert_measurements_lookup in Hm.
    case_decide as Hd.
    + simplify_eq. apply good_posting_appended. intros old Hold.
      apply Hpost. left. eauto.
    + apply (good_posting_mono n); [lia|]. apply Hpost. left. eauto.
  - rewrite index_point_tags, insert_tags_lookup in Hk.
    destruct (tags point !! k) as [tag_value|].
    + simplify_eq. unfold tagged in Hv.
      destruct (decide (tag_value = v)) as [->|Hne].
      * rewrite lookup_insert_eq in Hv. simplify_eq.
        apply good_posting_appended. intros old Hold.
        destruct (_tags self !! k) as [old_values|] eqn:Hk; simpl in Hold; [|done].
        apply Hpost. right. left. eauto 10.
      * rewrite lookup_insert_ne in Hv by done.
        destruct (_tags self !! k) as [old_values|] eqn:Hk; simpl in Hv; [|done].
        apply (good_posting_mono n); [lia|]. apply Hpost. right. left. eauto 10.
    + apply (good_posting_mono n); [lia|]. apply Hpost. right. left. eauto 10.
  - rewrite index_point_fields, insert_fields_lookup in Hf.
    destruct (fields point !! f).
    + simplify_eq. apply good_posting_appended. intros old Hold.
      apply Hpost. right. right. eauto.
    + apply (good_posting_mono n); [lia|]. apply Hpost. right. right. eauto.
Qed.

Lemma index_points_well_indexed points self :
  well_indexed self →
  well_indexed (index_points (length (_timestamps self)) points self).
Proof.
  revert self. induction points as [|point points IH]; intros self Hwi; simpl; [done|].
  pose proof (index_point_well_indexed point self Hwi) as Hwi'.
  specialize (IH _ Hwi').
  rewrite index_point_timestamps, length_app, Nat.add_1_r in IH. done.
Qed.

Lemma well_indexed_reset self : well_indexed (_reset self).
Proof.
  split; [done|]. intros items [(m&Hm)|[(k&vals&v&Hk&Hv)|(f&Hf)]]; simpl in *;
    by rewrite lookup_empty in *.
Qed.

Lemma well_indexed_init valid : well_indexed (__init__ valid).
Proof.
  split; [done|]. intros items [(m&Hm)|[(k&vals&v&Hk&Hv)|(f&Hf)]]; simpl in *;
    by rewrite lookup_empty in *.
Qed.

Lemma well_indexed_build points self : well_indexed (build points self).
Proof. apply (index_points_well_indexed points (_reset self)), well_indexed_reset. Qed.

Lemma well_indexed_insert points self : well_indexed self → well_indexed (insert points self).
Proof. apply index_points_well_indexed. Qed.

Lemma well_indexed_invalidate self : well_indexed (invalidate self).
Proof.
  split; [done|]. intros items [(m&Hm)|[(k&vals&v&Hk&Hv)|(f&Hf)]]; simpl in *;
    by rewrite lookup_empty in *.
Qed.

(** ** Results of a search are strictly ascending *)

Lemma collect_equal_sublist rhs k (rest : list Z) :
  collect_equal rhs k rest `sublist_of` seq k (length rest).
Proof.
  revert k. induction rest as [|t rest IH]; intros k; simpl; [done|].
  destruct (t =? rhs)%Z; [by apply sublist_skip|apply sublist_nil_l].
Qed.

Lemma equal_run_ascending (ts : list Z) rhs m : ascending (equal_run ts rhs m).
Proof.
  unfold equal_run.
  apply (ascending_sublist _ (seq m (S (length (drop (S m) ts)))));
    [|apply ascending_seq].
  simpl. apply sublist_skip, collect_equal_sublist.
Qed.

Lemma scan_timestamps_sublist {lib : Datetime} q idx (ts : list Z) items :
  scan_timestamps q idx ts = Ok items → items `sublist_of` seq idx (length ts).
Proof.
  revert idx items. induction ts as [|t ts IH]; intros idx items; simpl.
  - by intros [= <-].
  - destruct (fromtimestamp t) as [time|]; [|done].
    destruct (_path_resolver q (CtxTime time)) as [v|]; [|done].
    destruct (scan_timestamps q (S idx) ts) as [items'|] eqn:Hscan; [|done].
    intros [= <-]. specialize (IH _ _ Hscan).
    destruct (_test q v); [by apply sublist_skip|by apply sublist_cons].
Qed.

Lemma search_timestamps_ascending {lib : Datetime} q self items self' :
  _search_timestamps q self = (Ok items, self') → ascending items.
Proof.
  unfold _search_timestamps, bind, attr, ret, raise. simpl.
  destruct (_operator q); simpl.
  - destruct (find_eq _ _); intros [= <- _];
      [apply equal_run_ascending|apply ascending_nil].
  - destruct (find_eq _ _); intros [= <- _];
      [apply difference_ascending|]; apply ascending_seq.
  - destruct (find_lt _ _); intros [= <- _]; [apply ascending_seq|apply ascending_nil].
  - destruct (find_le _ _); intros [= <- _]; [apply ascending_seq|apply ascending_nil].
  - destruct (find_gt _ _); intros [= <- _]; [apply ascending_seq|apply ascending_nil].
  - destruct (find_ge _ _); intros [= <- _]; [apply ascending_seq|apply ascending_nil].
  - destruct (scan_timestamps q 0 (_timestamps self)) as [items'|] eqn:Hscan; [|done].
    intros [= <- _]. eapply ascending_sublist; [|apply ascending_seq].
    by eapply scan_timestamps_sublist.
Qed.

Lemma lookup_insert_fresh {A} (m : gmap string A) i x k y :
  m !! i = None → m !! k = Some y → <[i := x]> m !! k = Some y.
Proof. intros Hi Hk. rewrite lookup_insert_ne; [done|]. intros ->. congruence. Qed.

Lemma search_measurement_ascending q self items self' :
  (∀ l, posting self l → ascending l) →
  _search_measurement q self = (Ok items, self') → ascending items.
Proof.
  intros Hpost. unfold _search_measurement, bind, attr, ret, raise. simpl.
  match goal with |- context [map_fold ?f ?b ?m] =>
    assert (∀ rst, map_fold f b m = Ok rst → ascending rst) as Hfold end.
  { assert (∀ key l, _measurements self !! key = Some l → ascending l) as Hm.
    { intros key l Hl. apply Hpost. left. eauto. }
    revert Hm. generalize (_measurements self).
    refine (map_fold_weak_ind (λ r m,
      (∀ key l, m !! key = Some l → ascending l) → ∀ rst, r = Ok rst → ascending rst)
      _ _ _ _).
    - intros _ rst [= <-]. apply ascending_nil.
    - intros key l m r Hkey IH Hm rst.
      assert (ascending l) as Hl by (apply (Hm key); by rewrite lookup_insert_eq).
      assert (∀ rst, r = Ok rst → ascending rst) as IH'.
      { apply IH. intros k' l' Hk'. apply (Hm k'). by apply lookup_insert_fresh. }
      destruct r as [acc|]; [|done].
      destruct (_path_resolver q (CtxName key)) as [v|]; [|done].
      destruct (_test q v); intros [= <-]; [apply union_ascending|]; auto. }
  destruct (map_fold _ _ _) as [rst|]; [|done]. intros [= <- _]. auto.
Qed.

Lemma search_fields_ascending q self items self' :
  (∀ l, posting self l → ascending l) →
  _search_fields q self = (Ok items, self') → ascending items.
Proof.
  intros Hpost. unfold _search_fields, bind, attr, ret. simpl. intros [= <- _].
  assert (∀ key l, _fields self !! key = Some l → ascending l) as Hm.
  { intros key l Hl. apply Hpost. right. right. eauto. }
  revert Hm. generalize (_fields self).
  refine (map_fold_weak_ind (λ r m,
    (∀ key l, m !! key = Some l → ascending l) → ascending r) _ _ _ _).
  - intros _. apply ascending_nil.
  - intros key l m r Hkey IH Hm.
    assert (ascending l) as Hl by (apply (Hm key); by rewrite lookup_insert_eq).
    assert (ascending r) as IH'.
    { apply IH. intros k' l' Hk'. apply (Hm k'). by apply lookup_insert_fresh. }
    destruct (_path_resolver q (CtxEntry key "")); [apply union_ascending|]; auto.
Qed.

Lemma search_tags_ascending q self items self' :
  (∀ l, posting self l → ascending l) →
  _search_tags q self = (Ok items, self') → ascending items.
Proof.
  intros Hpost. unfold _search_tags, bind, attr, ret. simpl. intros [= <- _].
  assert (∀ key vals value l,
    _tags self !! key = Some vals → vals !! value = Some l → ascending l) as Hm.
  { intros key vals value l Hk Hv. apply Hpost. right. left. eauto 10. }
  revert Hm. generalize (_tags self).
  refine (map_fold_weak_ind (λ r m,
    (∀ key vals value l, m !! key = Some vals → vals !! value = Some l → ascending l) →
    ascending r) _ _ _ _).
  - intros _. apply ascending_nil.
  - intros key vals m r Hkey IH Hm.
    assert (∀ value l, vals !! value = Some l → ascending l) as Hvals.
    { intros value l. apply (Hm key). by rewrite lookup_insert_eq. }
    assert (ascending r) as IH'.
    { apply IH. intros k' vals' value l Hk'. apply (Hm k').
      by apply lookup_insert_fresh. }
    clear IH Hm. revert Hvals. generalize vals.
    refine (map_fold_weak_ind (λ r' m',
      (∀ value l, m' !! value = Some l → ascending l) → ascending r') _ _ _ _).
    + done.
    + intros value l m' r' Hvalue IH Hm'.
      assert (ascending l) as Hl by (apply (Hm' value); by rewrite lookup_insert_eq).
      assert (ascending r') as IH''.
      { apply IH. intros v' l' Hv'. apply (Hm' v'). by apply lookup_insert_fresh. }
      destruct (_path_resolver q (CtxEntry key value)) as [v|]; [|done].
      destruct (_test q v); [apply union_ascending|]; auto.
Qed.

Lemma search_items_ascending {lib : Datetime} query self rst self' :
  (∀ l, posting self l → ascending l) →
  search query self = (Ok rst, self') → ascending (_items rst).
Proof.
  intros Hpost. unfold search. revert rst self'.
  induction query as [q|op query1 IH1 query2 IH2|]; intros rst self'; simpl; [| |done].
  - destruct (_point_attr q); try done; unfold bind, attr, ret.
    + destruct (_search_timestamps q self) as [[items|] s1] eqn:Hs; [|done].
      intros [= <- _]. simpl. by eapply search_timestamps_ascending.
    + destruct (_search_measurement q self) as [[items|] s1] eqn:Hs; [|done].
      intros [= <- _]. simpl. by eapply search_measurement_ascending.
    + destruct (_search_tags q self) as [[items|] s1] eqn:Hs; [|done].
      intros [= <- _]. simpl. by eapply search_tags_ascending.
    + destruct (_search_fields q self) as [[items|] s1] eqn:Hs; [|done].
      intros [= <- _]. simpl. by eapply search_fields_ascending.
  - pose proof (search_frame query1 self) as Hf1. unfold search in Hf1.
    destruct op; try done; unfold bind, attr, ret.
    + destruct (_search_helper query1 self) as [[rst1|] s1] eqn:Hs1; [|done].
      simpl in Hf1. subst s1.
      destruct (_search_helper query2 self) as [[rst2|] s2] eqn:Hs2; [|done].
      intros [= <- _]. simpl. apply intersection_ascending. eauto.
    + destruct (_search_helper query1 self) as [[rst1|] s1] eqn:Hs1; [|done].
      simpl in Hf1. subst s1.
      destruct (_search_helper query2 self) as [[rst2|] s2] eqn:Hs2; [|done].
      intros [= <- _]. simpl. apply union_ascending; eauto.
    + destruct (_search_helper query1 self) as [[rst1|] s1] eqn:Hs1; [|done].
      destruct (is_field_leaf query1); intros [= <- _]; simpl.
      * apply ascending_range.
      * apply difference_ascending, ascending_range.
Qed.

(** ** The posting invariant under removal followed by renumbering *)

Lemma surviving_Some r_items (items kept : list nat) :
  surviving r_items items = Some kept → kept = filter (λ i, i ∉ r_items) items.
Proof. unfold surviving. destruct (filter _ items); [done|]. by intros [= <-]. Qed.

Lemma surviving_good r_items n (items kept : list nat) :
  good_posting n items → surviving r_items items = Some kept → good_posting n kept.
Proof.
  intros [Hasc Hlt] ->%surviving_Some. split.
  - eapply ascending_sublist; [apply sublist_filter|done].
  - rewrite Forall_forall in Hlt. apply Forall_forall.
    intros p [_ Hp]%list_elem_of_filter. auto.
Qed.

Lemma remap_good u n (items : list nat) :
  renumbers u (Z.of_nat n) → ascending items →
  (∀ p, p ∈ items → is_Some (u !! p)) → good_posting n (remap u items).
Proof.
  intros [Hrange Hmono] Hasc Hcov. unfold remap. split.
  - induction Hasc as [|p items Hasc IH Hp]; simpl; [constructor|].
    apply ascending_cons. split; [|apply IH; set_solver].
    apply Forall_fmap, Forall_forall. intros p' Hp'. simpl.
    destruct (Hcov p ltac:(set_solver)) as [q Hq].
    destruct (Hcov p' ltac:(set_solver)) as [q' Hq'].
    rewrite (lookup_total_correct _ _ _ Hq), (lookup_total_correct _ _ _ Hq').
    rewrite Forall_forall in Hp. eapply Hmono; eauto.
  - apply Forall_fmap, Forall_forall. intros p Hp. simpl.
    destruct (Hcov p Hp) as [q Hq]. rewrite (lookup_total_correct _ _ _ Hq).
    specialize (Hrange _ _ Hq). lia.
Qed.

Lemma well_indexed_compact r_items u_items self self' :
  well_indexed self →
  (∀ p, p ∈ r_items → (Z.of_nat p < _num_items self)%Z) →
  renumbers u_items (_num_items self - Z.of_nat (size r_items)) →
  update u_items (remove r_items self) = Some self' →
  well_indexed self'.
Proof.
  intros [Hlen Hpost] Hin Hren Hupd.
  set (n := length (_timestamps self)) in *.
  assert (∀ p, p ∈ r_items → p < n) as Hin'.
  { intros p Hp. specialize (Hin p Hp). lia. }
  pose proof (size_bounded r_items n Hin') as Hsize.
  pose proof (update_cases u_items (remove r_items self)) as Hcases.
  rewrite Hupd, remove_eq in Hcases. simpl in Hcases.
  destruct Hcases as [(Hcm&Hct&Hcf) ->].
  assert (length (without_positions r_items (_timestamps self)) = n - size r_items)
    as Hlen' by by apply without_positions_length.
  split; simpl; rewrite Hlen'; [lia|].
  assert (renumbers u_items (Z.of_nat (n - size r_items))) as Hren'.
  { by replace (Z.of_nat (n - size r_items))
      with (_num_items self - Z.of_nat (size r_items))%Z by lia. }
  intros items [(m&Hm)|[(k&vals&v&Hk&Hv)|(f&Hf)]]; simpl in *.
  - rewrite lookup_fmap in Hm.
    destruct (filter _ _ !! m) as [kept|] eqn:Hkept; simplify_eq/=.
    apply map_lookup_filter_Some in Hkept as [Hkept _].
    pose proof (λ p, Hcm _ _ p Hkept) as Hcov.
    rewrite lookup_omap in Hkept.
    destruct (_measurements self !! m) as [old|] eqn:Hold; simplify_eq/=.
    apply remap_good; [done| |by intros p; apply Hcov].
    eapply surviving_good; [|done]. apply Hpost. left. eauto.
  - rewrite lookup_fmap in Hk.
    destruct (omap _ _ !! k) as [kept_values|] eqn:Hkv; simplify_eq/=.
    pose proof (Hct _ _ Hkv) as Hcov.
    rewrite lookup_omap in Hkv.
    destruct (_tags self !! k) as [old_values|] eqn:Hold; simplify_eq/=.
    unfold surviving_values in Hkv. case_decide; simplify_eq/=.
    unfold remap_values in Hv. rewrite lookup_fmap in Hv.
    destruct (omap _ _ !! v) as [kept|] eqn:Hkept; simplify_eq/=.
    pose proof (λ p, Hcov _ _ p Hkept) as Hcov'.
    rewrite lookup_omap in Hkept.
    destruct (old_values !! v) as [old|] eqn:Hold'; simplify_eq/=.
    apply remap_good; [done| |by intros p; apply Hcov'].
    eapply surviving_good; [|done]. apply Hpost. right. left. eauto 10.
  - rewrite lookup_fmap in Hf.
    destruct (omap _ _ !! f) as [kept|] eqn:Hkept; simplify_eq/=.
    pose proof (λ p, Hcf _ _ p Hkept) as Hcov.
    rewrite lookup_omap in Hkept.
    destruct (_fields self !! f) as [old|] eqn:Hold; simplify_eq/=.
    apply remap_good; [done| |by intros p; apply Hcov].
    eapply surviving_good; [|done]. apply Hpost. right. right. eauto.
Qed.

Lemma reachable_invariant self : reachable self → well_indexed self.
Proof.
  induction 1 as [valid|points self _ _|points self _ IH|self _ _
                 |r_items u_items self self' _ IH Hin Hren Hupd].
  - apply well_indexed_init.
  - apply well_indexed_build.
  - by apply well_indexed_insert.
  - apply well_indexed_invalidate.
  - by eapply well_indexed_compact.
Qed.

(** C5, as the code has it: along every sequence of [build], [insert]
    and [invalidate] calls, and of [remove] calls on positions within
    [0 .. num_items) each followed at once by the [update] that
    renumbers the positions left in order, every posting sequence of
    measurements, tags and fields is strictly ascending, free of
    duplicates and within [0 .. num_items), and the items of every
    result of [search] are strictly ascending and free of duplicates. *)
Theorem reachable_postings_sorted {lib : Datetime} (self : Index) :
  reachable self →
  (∀ items, posting self items →
     ascending items ∧ NoDup items
     ∧ Forall (λ p, (0 ≤ Z.of_nat p < _num_items self)%Z) items)
  ∧ (∀ query rst self', search query self = (Ok rst, self') →
       ascending (_items rst) ∧ NoDup (_items rst)).
Proof.
  intros [Hlen Hpost]%reachable_invariant. split.
  - intros items [Hasc Hlt]%Hpost. split_and!; [done|by apply ascending_NoDup|].
    eapply Forall_impl; [done|]. simpl. lia.
  - intros query rst self' Hsearch.
    assert (ascending (_items rst)) as Hasc.
    { eapply search_items_ascending; [|done]. intros l Hl. by apply Hpost. }
    split; [done|by apply ascending_NoDup].
Qed.

Lemma reachable_postings_sorted_witness :
  let points := [mkPoint 10 "m" {["host" := "a"]} {["x" := 1%Z]};
                 mkPoint 20 "m" {["host" := "b"]} ∅;
                 mkPoint 20 "n" {["host" := "a"]} ∅] in
  let u_items : gmap nat nat := {[1 := 0; 2 := 1]} in
  let self := mkIndex 2 {["host" := {["a" := [1]; "b" := [0]]}]} ∅
                {["m" := [0]; "n" := [1]]} [20; 20]%Z true in
  update u_items (remove {[0]} (build points (__init__ true))) = Some self
  ∧ (∀ items, posting self items →
       ascending items ∧ NoDup items
       ∧ Forall (λ p, (0 ≤ Z.of_nat p < _num_items self)%Z) items)
  ∧ (∀ query rst self', search query self = (Ok rst, self') →
       ascending (_items rst) ∧ NoDup (_items rst)).
Proof.
  intros points u_items self.
  assert (update u_items (remove {[0]} (build points (__init__ true))) = Some self)
    as Hupd by (vm_compute; reflexivity).
  split; [exact Hupd|].
  apply (reachable_postings_sorted self).
  apply (reachable_compact {[0]} u_items (build points (__init__ true)) self).
  - apply reachable_build, reachable_init.
  - intros p ->%elem_of_singleton. vm_compute. reflexivity.
  - split.
    + intros p q Hq. subst u_items.
      apply lookup_insert_Some in Hq as [[_ <-]|[_ Hq]]; [by vm_compute|].
      apply lookup_singleton_Some in Hq as [_ <-]. by vm_compute.
    + intros p1 p2 q1 q2 H1 H2. subst u_items.
      apply lookup_insert_Some in H1 as [[<- <-]|[_ H1]];
        [|apply lookup_singleton_Some in H1 as [<- <-]];
        (apply lookup_insert_Some in H2 as [[<- <-]|[_ H2]];
          [|apply lookup_singleton_Some in H2 as [<- <-]]); lia.
  - exact Hupd.
Defined.

(** C5, as the claim has it, fails: [remove] does not renumber, so
    after [build] of three points and [remove] of position 0 the
    posting list of the measurement holds position 2 while [num_items]
    is 2, and the [insert] of one more point then indexes it at
    position 2 again. *)
Lemma postings_sorted_counterexample :
  let points := [mkPoint 10 "m" ∅ ∅; mkPoint 20 "m" ∅ ∅; mkPoint 20 "m" ∅ ∅] in
  let ops := [Build points; Remove {[0]}; Insert [mkPoint 30 "m" ∅ ∅]] in
  let by_name :=
    Simple (mkSimpleQuery attr_measurement op_eq 0 Some
              (λ c, match c with CtxName name => bool_decide (name = "m") | _ => false end))
  in
  Forall time_ordered ops
  ∧ (∃ self, run (take 2 ops) (__init__ true) = Some self
       ∧ posting self [1; 2] ∧ _num_items self = 2%Z
       ∧ ¬ Forall (λ p, (0 ≤ Z.of_nat p < _num_items self)%Z) [1; 2])
  ∧ (∃ self, run ops (__init__ true) = Some self
       ∧ posting self [1; 2; 2]
       ∧ fst (search by_name self) = Ok (mkIndexResult [1; 2; 2] true 3)
       ∧ ¬ ascending [1; 2; 2] ∧ ¬ NoDup [1; 2; 2]).
Proof.
  intros points ops by_name. split_and!.
  - repeat constructor; simpl; solve_sorted.
  - eexists. split; [reflexivity|]. split_and!.
    + left. exists "m". reflexivity.
    + reflexivity.
    + intros H. apply Forall_cons in H as [_ H]. apply Forall_cons in H as [H _].
      destruct H as [_ H]. vm_compute in H. discriminate.
  - eexists. split; [reflexivity|]. split_and!.
    + left. exists "m". reflexivity.
    + reflexivity.
    + intros H. apply ascending_cons in H as [_ H]. apply ascending_cons in H as [H _].
      apply Forall_cons in H as [H _]. lia.
    + intros H. apply NoDup_cons in H as [_ H]. apply NoDup_cons in H as [H _].
      apply H. left.
Qed.


(* ===================================================================== *)
(** * Part III: further properties of the index *)
(* ===================================================================== *)

(** ** What [build] and [insert] store *)

Lemma elem_of_positions_from P k (points : list Point) p :
  p ∈ positions_from k P points
  ↔ ∃ i point, p = k + i ∧ points !! i = Some point ∧ P point = true.
Proof.
  revert k. induction points as [|y points IH]; intros k; simpl.
  - split; [by intros ?%elem_of_nil|]. by intros (i&x&_&?&_).
  - assert (p ∈ positions_from (S k) P points ↔
            ∃ i point, p = k + S i ∧ points !! i = Some point ∧ P point = true) as IH'.
    { rewrite IH. by setoid_rewrite Nat.add_succ_r. }
    destruct (P y) eqn:HPy; [rewrite elem_of_cons|]; rewrite IH'; split.
    + intros [->|(i&x&?&?&?)]; [exists 0, y|exists (S i), x]; auto with lia.
    + intros ([|i]&x&?&Hx&?); simpl in Hx; [left; lia|right; eauto].
    + intros (i&x&?&?&?). exists (S i), x. auto.
    + intros ([|i]&x&?&Hx&?); simpl in Hx; simplify_eq; [congruence|eauto].
Qed.

Lemma elem_of_positions_where P (points : list Point) p :
  p ∈ positions_where P points ↔ ∃ point, points !! p = Some point ∧ P point = true.
Proof.
  unfold positions_where. rewrite elem_of_positions_from. split.
  - intros (i&pt&->&?&?). eauto.
  - intros (pt&?&?). exists p, pt. auto.
Qed.

Lemma positions_from_ascending P k (points : list Point) :
  ascending (positions_from k P points).
Proof.
  revert k. induction points as [|y points IH]; intros k; simpl; [constructor|].
  destruct (P y); [|done]. apply ascending_cons. split; [|done].
  apply Forall_forall. intros p (i&x&->&_)%elem_of_positions_from. lia.
Qed.

Lemma extend_posting_snoc old k new :
  extend_posting (Some (default [] old ++ [k])) new = extend_posting old (k :: new).
Proof.
  unfold extend_posting. destruct new; simpl; [done|]. by rewrite <- app_assoc.
Qed.

Lemma extend_posting_None new : extend_posting None new = as_posting new.
Proof. by destruct new. Qed.

Lemma index_points_measurements k points self name :
  _measurements (index_points k points self) !! name
  = extend_posting (_measurements self !! name)
      (positions_from k (has_measurement name) points).
Proof.
  revert k self. induction points as [|pt points IH]; intros k self; simpl; [done|].
  rewrite IH, index_point_measurements, insert_measurements_lookup.
  unfold has_measurement at 2. case_decide as Hd.
  - rewrite bool_decide_eq_true_2 by done. subst name. apply extend_posting_snoc.
  - by rewrite bool_decide_eq_false_2.
Qed.

Lemma index_points_fields k points self field_key :
  _fields (index_points k points self) !! field_key
  = extend_posting (_fields self !! field_key)
      (positions_from k (has_field field_key) points).
Proof.
  revert k self. induction points as [|pt points IH]; intros k self; simpl; [done|].
  rewrite IH, index_point_fields, insert_fields_lookup.
  unfold has_field at 2. destruct (fields pt !! field_key) as [x|] eqn:Hf.
  - rewrite bool_decide_eq_true_2 by done. apply extend_posting_snoc.
  - rewrite bool_decide_eq_false_2; [done|]. by intros [? ?].
Qed.

Lemma tagged_lookup idx tag_value (old : option (gmap string (list nat))) value :
  tagged idx tag_value old !! value
  = if decide (tag_value = value)
    then Some (default [] (old ≫= λ tag_values, tag_values !! value) ++ [idx])
    else old ≫= λ tag_values, tag_values !! value.
Proof.
  unfold tagged. case_decide as Hd.
  - subst. rewrite lookup_insert_eq. by destruct old.
  - rewrite lookup_insert_ne by done. destruct old; simpl; [done|]. apply lookup_empty.
Qed.

Lemma index_points_tags k points self tag_key tag_value :
  tag_posting (index_points k points self) tag_key tag_value
  = extend_posting (tag_posting self tag_key tag_value)
      (positions_from k (has_tag tag_key tag_value) points).
Proof.
  revert k self. induction points as [|pt points IH]; intros k self; simpl; [done|].
  rewrite IH. unfold tag_posting at 1.
  rewrite index_point_tags, insert_tags_lookup.
  unfold has_tag at 2. destruct (tags pt !! tag_key) as [tv|] eqn:Ht; simpl.
  - rewrite tagged_lookup. case_decide as Hd.
    + subst tv. rewrite (bool_decide_eq_true_2 (Some tag_value = Some tag_value)) by done.
      apply extend_posting_snoc.
    + rewrite (bool_decide_eq_false_2 (Some tv = Some tag_value)); [done|congruence].
  - done.
Qed.

(** X1: after [build], the entry of a measurement name, of a field key
    and of a tag key and value is the ascending list of the positions of
    the points that carry it, and there is no entry when no point does. *)
Theorem build_postings (points : list Point) (self : Index) :
  (∀ name, _measurements (build points self) !! name
           = as_posting (positions_where (has_measurement name) points))
  ∧ (∀ field_key, _fields (build points self) !! field_key
                  = as_posting (positions_where (has_field field_key) points))
  ∧ (∀ tag_key tag_value, tag_posting (build points self) tag_key tag_value
                          = as_posting (positions_where (has_tag tag_key tag_value) points))
  ∧ (∀ P p, p ∈ positions_where P points
            ↔ ∃ point, points !! p = Some point ∧ P point = true)
  ∧ (∀ P, ascending (positions_where P points)).
Proof.
  unfold build, positions_where. split_and!.
  - intros name. by rewrite index_points_measurements, extend_posting_None.
  - intros key. by rewrite index_points_fields, extend_posting_None.
  - intros key value. by rewrite index_points_tags, extend_posting_None.
  - intros P p. apply elem_of_positions_where.
  - intros P. apply positions_from_ascending.
Qed.

(** X2: [insert] gives the new points the positions that follow the
    timestamps already stored, appends them to the entries of the
    measurement names, field keys and tag pairs they carry, and leaves
    every other entry as it was. *)
Theorem insert_postings (points : list Point) (self : Index) :
  let start_idx := length (_timestamps self) in
  (∀ name, _measurements (insert points self) !! name
           = extend_posting (_measurements self !! name)
               (positions_from start_idx (has_measurement name) points))
  ∧ (∀ field_key, _fields (insert points self) !! field_key
                  = extend_posting (_fields self !! field_key)
                      (positions_from start_idx (has_field field_key) points))
  ∧ (∀ tag_key tag_value, tag_posting (insert points self) tag_key tag_value
                          = extend_posting (tag_posting self tag_key tag_value)
                              (positions_from start_idx (has_tag tag_key tag_value) points))
  ∧ (∀ P p, p ∈ positions_from start_idx P points
            ↔ ∃ i point, p = start_idx + i ∧ points !! i = Some point ∧ P point = true).
Proof.
  unfold insert. split_and!.
  - intros name. apply index_points_measurements.
  - intros key. apply index_points_fields.
  - intros key value. apply index_points_tags.
  - intros P p. apply elem_of_positions_from.
Qed.

(** X3: [insert] appends the times of the points to the timestamps in
    their order, adds their number to [num_items] and keeps [valid];
    [build] stores exactly the times of its points. *)
Theorem insert_appends (points : list Point) (self : Index) :
  _timestamps (insert points self) = _timestamps self ++ (time <$> points)
  ∧ __len__ (insert points self) = (__len__ self + Z.of_nat (length points))%Z
  ∧ valid (insert points self) = valid self
  ∧ _timestamps (build points self) = time <$> points
  ∧ __len__ (build points self) = Z.of_nat (length points).
Proof.
  unfold insert, build, __len__, valid.
  rewrite !index_points_timestamps, !index_points_num_items, index_points_valid.
  done.
Qed.

Lemma elem_of_as_posting_dom (items : list nat) : is_Some (as_posting items) ↔ items ≠ [].
Proof. destruct items; simpl; split; (done || by intros [? ?] || by eexists). Qed.

(** X4: after [build], [get_measurement_names] is the set of the
    measurement names of the points. *)
Theorem build_measurement_names (points : list Point) (self : Index) :
  get_measurement_names (build points self) = list_to_set (measurement <$> points).
Proof.
  unfold get_measurement_names, build. apply set_eq. intros name.
  rewrite elem_of_dom, index_points_measurements, extend_posting_None.
  rewrite elem_of_as_posting_dom, elem_of_list_to_set, list_elem_of_fmap.
  split.
  - intros Hne. destruct (positions_from 0 (has_measurement name) points) as [|p l] eqn:Hp;
      [done|].
    assert (p ∈ positions_from 0 (has_measurement name) points) as Hin
      by (rewrite Hp; left).
    apply elem_of_positions_from in Hin as (i&pt&_&Hpt&Hhas).
    apply bool_decide_eq_true in Hhas. exists pt. split; [done|].
    by eapply list_elem_of_lookup_2.
  - intros (pt&->&(i&Hi)%list_elem_of_lookup_1) Hnil.
    assert (i ∈ positions_from 0 (has_measurement (measurement pt)) points) as Hin.
    { apply elem_of_positions_from. exists i, pt. split_and!; [done..|].
      by apply bool_decide_eq_true. }
    rewrite Hnil in Hin. by apply elem_of_nil in Hin.
Qed.

Lemma index_points_app k (points1 points2 : list Point) self :
  index_points k (points1 ++ points2) self
  = index_points (k + length points1) points2 (index_points k points1 self).
Proof.
  revert k self. induction points1 as [|pt points1 IH]; intros k self; simpl.
  - by rewrite Nat.add_0_r.
  - rewrite IH. f_equal. lia.
Qed.

(** X5: indexing in two steps is indexing at once: [build] of a list
    followed by [insert] of a second list is [build] of the two lists
    joined, and two [insert]s are one [insert] of the joined lists. *)
Theorem insert_composes (points1 points2 : list Point) (self : Index) :
  insert points2 (build points1 self) = build (points1 ++ points2) self
  ∧ insert points2 (insert points1 self) = insert (points1 ++ points2) self.
Proof.
  unfold insert, build. split.
  - rewrite index_points_app, index_points_timestamps. simpl.
    by rewrite length_fmap.
  - rewrite index_points_app, index_points_timestamps, length_app, length_fmap. done.
Qed.

(** X6: a built index is [empty] exactly when it was built from no
    point; a new index and an invalidated one are empty. *)
Theorem build_empty (points : list Point) (self : Index) :
  (empty (build points self) = true ↔ points = [])
  ∧ (∀ valid, empty (__init__ valid) = true)
  ∧ empty (invalidate self) = true.
Proof.
  split_and!; [|done..]. split.
  - unfold empty. rewrite !andb_true_iff, !bool_decide_eq_true.
    intros [[[[Hn _] _] _] _]. rewrite build_num_items in Hn.
    destruct points; [done|]. simpl in Hn. lia.
  - intros ->. done.
Qed.

(** ** No empty posting list is ever stored *)

Lemma no_empty_posting_init valid : no_empty_posting (__init__ valid).
Proof.
  split.
  - intros items [(m&Hm)|[(k&vals&v&Hk&Hv)|(f&Hf)]]; simpl in *;
      by rewrite lookup_empty in *.
  - intros k. simpl. by rewrite lookup_empty.
Qed.

Lemma snoc_not_nil (l : list nat) x : l ++ [x] ≠ [].
Proof. by destruct l. Qed.

Lemma no_empty_posting_index_point idx point self :
  no_empty_posting self → no_empty_posting (index_point idx point self).
Proof.
  intros [Hpost Htags]. split.
  - intros items [(m&Hm)|[(k&vals&v&Hk&Hv)|(f&Hf)]].
    + rewrite index_point_measurements, insert_measurements_lookup in Hm.
      case_decide; simplify_eq; [apply snoc_not_nil|]. apply Hpost. left. eauto.
    + rewrite index_point_tags, insert_tags_lookup in Hk.
      destruct (tags point !! k) as [tv|]; simplify_eq.
      * rewrite tagged_lookup in Hv. case_decide; simplify_eq; [apply snoc_not_nil|].
        destruct (_tags self !! k) as [old|] eqn:Hold; simplify_eq/=.
        apply Hpost. right. left. eauto 10.
      * apply Hpost. right. left. eauto 10.
    + rewrite index_point_fields, insert_fields_lookup in Hf.
      destruct (fields point !! f); simplify_eq; [apply snoc_not_nil|].
      apply Hpost. right. right. eauto.
  - intros k. rewrite index_point_tags, insert_tags_lookup.
    destruct (tags point !! k) as [tv|]; [|apply Htags].
    intros [= Hempty]. unfold tagged in Hempty. by apply insert_non_empty in Hempty.
Qed.

Lemma no_empty_posting_index_points k points self :
  no_empty_posting self → no_empty_posting (index_points k points self).
Proof.
  revert k self. induction points as [|pt points IH]; intros k self Hne; simpl; [done|].
  by apply IH, no_empty_posting_index_point.
Qed.

Lemma surviving_not_nil r_items (items kept : list nat) :
  surviving r_items items = Some kept → kept ≠ [].
Proof. unfold surviving. destruct (filter _ items); [done|]. by intros [= <-]. Qed.

Lemma no_empty_posting_remove r_items self : no_empty_posting (remove r_items self).
Proof.
  rewrite remove_eq. split.
  - intros items [(m&Hm)|[(k&vals&v&Hk&Hv)|(f&Hf)]]; simpl in *.
    + rewrite lookup_omap in Hm.
      destruct (_measurements self !! m); simplify_eq/=. by eapply surviving_not_nil.
    + rewrite lookup_omap in Hk.
      destruct (_tags self !! k) as [old|]; simplify_eq/=.
      unfold surviving_values in Hk. case_decide; simplify_eq/=.
      rewrite lookup_omap in Hv. destruct (old !! v); simplify_eq/=.
      by eapply surviving_not_nil.
    + rewrite lookup_omap in Hf.
      destruct (_fields self !! f); simplify_eq/=. by eapply surviving_not_nil.
  - intros k. simpl. rewrite lookup_omap.
    destruct (_tags self !! k) as [old|]; simpl; [|done].
    unfold surviving_values. case_decide; [done|]. congruence.
Qed.

Lemma remap_not_nil u (items : list nat) : items ≠ [] → remap u items ≠ [].
Proof. by destruct items. Qed.

Lemma no_empty_posting_update u self self' :
  no_empty_posting self → update u self = Some self' → no_empty_posting self'.
Proof.
  intros [Hpost Htags] Hupd.
  pose proof (update_cases u self) as Hcases. rewrite Hupd in Hcases.
  destruct Hcases as [_ ->]. split.
  - intros items [(m&Hm)|[(k&vals&v&Hk&Hv)|(f&Hf)]]; simpl in *.
    + rewrite lookup_fmap in Hm.
      destruct (filter _ _ !! m) as [old|] eqn:Hold; simplify_eq/=.
      apply map_lookup_filter_Some in Hold as [_ Hne]. by apply remap_not_nil.
    + rewrite lookup_fmap in Hk.
      destruct (_tags self !! k) as [old|] eqn:Hold; simplify_eq/=.
      unfold remap_values in Hv. rewrite lookup_fmap in Hv.
      destruct (old !! v) as [l|] eqn:Hl; simplify_eq/=.
      apply remap_not_nil, Hpost. right. left. eauto 10.
    + rewrite lookup_fmap in Hf.
      destruct (_fields self !! f) as [old|] eqn:Hold; simplify_eq/=.
      apply remap_not_nil, Hpost. right. right. eauto.
  - intros k. simpl. rewrite lookup_fmap.
    destruct (_tags self !! k) as [old|] eqn:Hold; simpl; [|done].
    intros [= Hempty]. apply fmap_empty_inv in Hempty. subst old. by eapply Htags.
Qed.

Lemma no_empty_posting_apply op self self' :
  no_empty_posting self → apply_operation op self = Some self' → no_empty_posting self'.
Proof.
  intros Hne. destruct op; simpl.
  - intros [= <-]. apply no_empty_posting_index_points, (no_empty_posting_init true).
  - intros [= <-]. by apply no_empty_posting_index_points.
  - intros [= <-]. apply no_empty_posting_remove.
  - by apply no_empty_posting_update.
  - intros [= <-]. apply (no_empty_posting_init false).
Qed.

Lemma no_empty_posting_run ops self self' :
  no_empty_posting self → run ops self = Some self' → no_empty_posting self'.
Proof.
  revert self. induction ops as [|op ops IH]; intros self Hne; simpl.
  - by intros [= <-].
  - destruct (apply_operation op self) as [self1|] eqn:Hop; simpl; [|done].
    apply IH. by eapply no_empty_posting_apply.
Qed.

(** X7: whatever [build], [insert], [remove], [update] and
    [invalidate] calls a new index goes through, with any arguments,
    it never stores an empty posting list, nor a tag key without a
    value. *)
Theorem never_empty_posting (ops : list Operation) (valid : bool) (self : Index) :
  run ops (__init__ valid) = Some self → no_empty_posting self.
Proof. apply no_empty_posting_run, no_empty_posting_init. Qed.

Lemma never_empty_posting_witness :
  let points := [mkPoint 10 "m" {["host" := "a"]} {["x" := 1%Z]};
                 mkPoint 20 "n" {["host" := "b"]} ∅] in
  let ops := [Build points; Remove {[0]}; Update {[1 := 0]}; Insert points] in
  ∃ self, run ops (__init__ true) = Some self ∧ no_empty_posting self.
Proof.
  intros points ops.
  assert (∃ self, run ops (__init__ true) = Some self) as [self Hrun]
    by (eexists; vm_compute; reflexivity).
  exists self. split; [exact Hrun|].
  exact (never_empty_posting ops true self Hrun).
Defined.

(** ** What a search result carries *)

Lemma search_ok_same_index {lib : Datetime} query self rst self' :
  search query self = (Ok rst, self') → self' = self.
Proof. intros H. pose proof (search_frame query self) as Hf. by rewrite H in Hf. Qed.

Lemma search_flags_of_result {lib : Datetime} query self rst self' :
  search query self = (Ok rst, self') →
  _index_count rst = _num_items self
  ∧ _is_complete rst = negb (touches_fields query).
Proof.
  unfold search. revert rst self'.
  induction query as [q|op query1 IH1 query2 IH2|]; intros rst self'; simpl; [| |done].
  - unfold bind, attr, ret. destruct (_point_attr q); try done.
    + destruct (_search_timestamps q self) as [[items|] s1] eqn:Hs; [|done].
      pose proof (search_timestamps_frame q self) as Hf. rewrite Hs in Hf.
      simpl in Hf. subst s1. by intros [= <- _].
    + destruct (_search_measurement q self) as [[items|] s1] eqn:Hs; [|done].
      pose proof (search_measurement_frame q self) as Hf. rewrite Hs in Hf.
      simpl in Hf. subst s1. by intros [= <- _].
    + by intros [= <- _].
    + by intros [= <- _].
  - unfold bind, attr, ret. destruct op; try done.
    + destruct (_search_helper query1 self) as [[rst1|] s1] eqn:Hs1; [|done].
      apply search_ok_same_index in Hs1 as Hs1'. subst s1.
      destruct (_search_helper query2 self) as [[rst2|] s2] eqn:Hs2; [|done].
      intros [= <- _]. simpl.
      destruct (IH1 _ _ eq_refl) as [-> ->]. destruct (IH2 _ _ eq_refl) as [_ ->].
      by rewrite negb_orb.
    + destruct (_search_helper query1 self) as [[rst1|] s1] eqn:Hs1; [|done].
      apply search_ok_same_index in Hs1 as Hs1'. subst s1.
      destruct (_search_helper query2 self) as [[rst2|] s2] eqn:Hs2; [|done].
      intros [= <- _]. simpl.
      destruct (IH1 _ _ eq_refl) as [-> ->]. destruct (IH2 _ _ eq_refl) as [_ ->].
      by rewrite negb_orb.
    + destruct (_search_helper query1 self) as [[rst1|] s1] eqn:Hs1; [|done].
      apply search_ok_same_index in Hs1 as Hs1'. subst s1.
      destruct (IH1 _ _ eq_refl) as [Hcount Hcomplete].
      destruct (is_field_leaf query1); intros [= <- _]; simpl; by rewrite ?Hcount.
Qed.

(** X8: the result of a search carries the [num_items] of the index as
    its [index_count], and it is complete exactly when the evaluation
    reached no leaf on fields: negation, intersection and union never
    turn an incomplete result into a complete one. *)
Theorem search_result_flags {lib : Datetime} (query : Query) (self : Index) (rst : IndexResult)
    (self' : Index) :
  search query self = (Ok rst, self') →
  _index_count rst = _num_items self
  ∧ _is_complete rst = negb (touches_fields query).
Proof. apply search_flags_of_result. Qed.

Lemma search_result_flags_witness :
  let self := build [mkPoint 10 "m" ∅ {["x" := 1%Z]}; mkPoint 20 "m" ∅ ∅] (__init__ true) in
  let leaf attr :=
    Simple (mkSimpleQuery attr op_le 10
              (λ c, match c with CtxEntry _ _ => None | _ => Some c end) (λ _, true)) in
  let query := Compound op_or (leaf attr_time)
                 (Compound op_not (Compound op_not (leaf attr_fields) NoQuery) NoQuery) in
  _index_count (mkIndexResult [0] false 2) = _num_items self
  ∧ _is_complete (mkIndexResult [0] false 2) = negb (touches_fields query).
Proof.
  intros self leaf query.
  apply (search_result_flags query self (mkIndexResult [0] false 2) self).
  vm_compute. reflexivity.
Defined.

(** ** Which queries raise *)

Lemma scan_timestamps_no_type_error {lib : Datetime} q idx (ts : list Z) e :
  scan_timestamps q idx ts = Raise e → e ≠ TypeError.
Proof.
  revert idx. induction ts as [|t ts IH]; intros idx; simpl; [done|].
  destruct (fromtimestamp t) as [time|]; [|by intros [= <-]].
  destruct (_path_resolver q (CtxTime time)); [|by intros [= <-]].
  destruct (scan_timestamps q (S idx) ts) eqn:Hscan; [done|].
  intros [= <-]. by eapply IH.
Qed.

Lemma search_timestamps_no_type_error {lib : Datetime} q self e :
  fst (_search_timestamps q self) = Raise e → e ≠ TypeError.
Proof.
  unfold _search_timestamps, bind, attr, ret, raise. simpl.
  destruct (_operator q); simpl;
    try (repeat match goal with |- context [match ?x with _ => _ end] => destruct x end;
         done).
  destruct (scan_timestamps q 0 (_timestamps self)) eqn:Hscan; simpl; [done|].
  intros [= <-]. by eapply scan_timestamps_no_type_error.
Qed.

Lemma search_measurement_resolver_fault q self e :
  fst (_search_measurement q self) = Raise e → e = ResolverFault.
Proof.
  unfold _search_measurement, bind, attr, ret, raise. simpl.
  match goal with |- context [map_fold ?f ?b ?m] =>
    assert (∀ e, map_fold f b m = Raise e → e = ResolverFault) as Hfold end.
  { apply (map_fold_weak_ind (λ r _, ∀ e, r = Raise e → e = ResolverFault)); [done|].
    intros key items m r _ Hr e'. destruct r as [acc|e'']; [|intros [= <-]; eauto].
    destruct (_path_resolver q (CtxName key)) as [v|]; [|by intros [= <-]].
    by destruct (_test q v). }
  destruct (map_fold _ _ _) as [acc|e']; simpl; [done|]. intros [= <-]. eauto.
Qed.

Lemma search_outcome_shape {lib : Datetime} query self :
  (tree_shaped query = true → fst (search query self) ≠ Raise TypeError)
  ∧ (∀ rst, fst (search query self) = Ok rst → tree_shaped query = true).
Proof.
  unfold search.
  induction query as [q|op query1 IH1 query2 IH2|]; simpl; [| |split; [done|by intros]].
  - unfold bind, attr, ret, raise. destruct (_point_attr q) eqn:Hattr; simpl.
    + split; [|done]. intros _.
      pose proof (search_timestamps_no_type_error q self) as Hf.
      destruct (_search_timestamps q self) as [[items|e] s1]; simpl in *; [done|].
      intros [= ->]. by specialize (Hf _ eq_refl).
    + split; [|done]. intros _.
      pose proof (search_measurement_resolver_fault q self) as Hf.
      destruct (_search_measurement q self) as [[items|e] s1]; simpl in *; [done|].
      intros [= ->]. by specialize (Hf _ eq_refl).
    + done.
    + done.
    + split; [done|]. by intros.
  - unfold bind, attr, ret, raise.
    destruct IH1 as [IH1a IH1b]. destruct IH2 as [IH2a IH2b].
    destruct op; simpl; [| | |split; [done|by intros]].
    + split.
      * intros [H1 H2]%andb_true_iff.
        destruct (_search_helper query1 self) as [[rst1|e1] s1] eqn:Hs1; simpl in *.
        -- apply search_ok_same_index in Hs1 as ->.
           destruct (_search_helper query2 self) as [[rst2|e2] s2]; simpl in *; auto.
        -- auto.
      * intros rst.
        destruct (_search_helper query1 self) as [[rst1|e1] s1] eqn:Hs1; simpl in *;
          [|done].
        apply search_ok_same_index in Hs1 as ->.
        destruct (_search_helper query2 self) as [[rst2|e2] s2]; simpl in *; [|done].
        intros _. rewrite (IH1b _ eq_refl), (IH2b _ eq_refl). done.
    + split.
      * intros [H1 H2]%andb_true_iff.
        destruct (_search_helper query1 self) as [[rst1|e1] s1] eqn:Hs1; simpl in *.
        -- apply search_ok_same_index in Hs1 as ->.
           destruct (_search_helper query2 self) as [[rst2|e2] s2]; simpl in *; auto.
        -- auto.
      * intros rst.
        destruct (_search_helper query1 self) as [[rst1|e1] s1] eqn:Hs1; simpl in *;
          [|done].
        apply search_ok_same_index in Hs1 as ->.
        destruct (_search_helper query2 self) as [[rst2|e2] s2]; simpl in *; [|done].
        intros _. rewrite (IH1b _ eq_refl), (IH2b _ eq_refl). done.
    + split.
      * intros H1.
        destruct (_search_helper query1 self) as [[rst1|e1] s1] eqn:Hs1; simpl in *.
        -- by destruct (is_field_leaf query1).
        -- auto.
      * intros rst.
        destruct (_search_helper query1 self) as [[rst1|e1] s1] eqn:Hs1; simpl in *;
          [|done].
        intros _. eauto.
Qed.

(** X9: [search] raises its [TypeError] only for a query in which the
    evaluation meets something that is not a leaf on one of the four
    attributes or an AND, OR or NOT node, and it answers no such query;
    the second child of a negation is never looked at. *)
Theorem search_type_error {lib : Datetime} (query : Query) (self : Index) :
  (fst (search query self) = Raise TypeError → tree_shaped query = false)
  ∧ (tree_shaped query = false → ∃ e, fst (search query self) = Raise e)
  ∧ (∀ query1 query2,
       search (Compound op_not query1 query2) self
       = search (Compound op_not query1 NoQuery) self).
Proof.
  destruct (search_outcome_shape query self) as [Hshaped Hok]. split_and!.
  - intros Herr. destruct (tree_shaped query); [|done]. by destruct Hshaped.
  - intros Hshape. destruct (fst (search query self)) as [rst|e] eqn:Hs; [|by eexists].
    rewrite (Hok _ eq_refl) in Hshape. done.
  - done.
Qed.

Lemma search_type_error_witness :
  let leaf := Simple (mkSimpleQuery attr_time op_eq 10 Some (λ _, true)) in
  let query := Compound op_and leaf (Compound op_unknown leaf leaf) in
  ∃ e, fst (search query (__init__ true)) = Raise e.
Proof.
  intros leaf query.
  apply (proj1 (proj2 (search_type_error query (__init__ true)))). reflexivity.
Defined.

(** ** What the leaves on measurement, tags and fields answer *)

Lemma search_measurement_fold q (m : gmap string (list nat)) :
  match map_fold (λ key items acc,
                    match acc with
                    | Raise e => Raise e
                    | Ok rst_items =>
                        match _path_resolver q (CtxName key) with
                        | None => Raise ResolverFault
                        | Some test_value =>
                            if _test q test_value
                            then Ok (union_two_sorted_lists rst_items items)
                            else Ok rst_items
                        end
                    end) (Ok []) m with
  | Raise e =>
      e = ResolverFault
      ∧ ∃ name, is_Some (m !! name) ∧ _path_resolver q (CtxName name) = None
  | Ok rst_items =>
      (∀ name, is_Some (m !! name) → is_Some (_path_resolver q (CtxName name)))
      ∧ ∀ p, p ∈ rst_items ↔
          ∃ name items v, m !! name = Some items
            ∧ _path_resolver q (CtxName name) = Some v ∧ _test q v = true ∧ p ∈ items
  end.
Proof.
  apply (map_fold_weak_ind (λ r m,
    match r with
    | Raise e =>
        e = ResolverFault
        ∧ ∃ name, is_Some (m !! name) ∧ _path_resolver q (CtxName name) = None
    | Ok rst_items =>
        (∀ name, is_Some (m !! name) → is_Some (_path_resolver q (CtxName name)))
        ∧ ∀ p, p ∈ rst_items ↔
            ∃ name items v, m !! name = Some items
              ∧ _path_resolver q (CtxName name) = Some v ∧ _test q v = true ∧ p ∈ items
    end)).
  - split.
    + intros name. rewrite lookup_empty. by intros [? ?].
    + intros p. split; [by intros ?%elem_of_nil|].
      intros (name&items&v&Hm&_). by rewrite lookup_empty in Hm.
  - intros key items m' r Hkey IH. destruct r as [acc|e].
    + destruct IH as [Hres Hmem].
      destruct (_path_resolver q (CtxName key)) as [v|] eqn:Hv.
      * assert (∀ name, is_Some (<[key:=items]> m' !! name) →
                        is_Some (_path_resolver q (CtxName name))) as Hres'.
        { intros name. destruct (decide (key = name)) as [<-|Hne].
          - by rewrite Hv.
          - rewrite lookup_insert_ne by done. apply Hres. }
        destruct (_test q v) eqn:Htest; (split; [done|]); intros p.
        -- rewrite elem_of_union, Hmem. split.
           ++ intros [(name&l&v'&Hl&?&?&?)|Hp].
              ** exists name, l, v'. split_and!; [|done..].
                 by apply lookup_insert_fresh.
              ** exists key, items, v. by rewrite lookup_insert_eq.
           ++ intros (name&l&v'&Hl&Hv'&?&?).
              destruct (decide (key = name)) as [<-|Hne].
              ** rewrite lookup_insert_eq in Hl. simplify_eq. by right.
              ** rewrite lookup_insert_ne in Hl by done. left. eauto 10.
        -- rewrite Hmem. split.
           ++ intros (name&l&v'&Hl&?&?&?). exists name, l, v'.
              split_and!; [|done..]. by apply lookup_insert_fresh.
           ++ intros (name&l&v'&Hl&Hv'&?&?).
              destruct (decide (key = name)) as [<-|Hne].
              ** rewrite lookup_insert_eq in Hl. simplify_eq. congruence.
              ** rewrite lookup_insert_ne in Hl by done. eauto 10.
      * split; [done|]. exists key. by rewrite lookup_insert_eq.
    + destruct IH as [-> (name&[l Hl]&Hnone)]. split; [done|].
      exists name. split; [|done]. exists l. by apply lookup_insert_fresh.
Qed.

Lemma search_fields_fold q (m : gmap string (list nat)) p :
  p ∈ map_fold (λ field_key items rst_items,
                  match _path_resolver q (CtxEntry field_key "") with
                  | None => rst_items
                  | Some _ => union_two_sorted_lists rst_items items
                  end) [] m
  ↔ ∃ field_key items, m !! field_key = Some items
      ∧ is_Some (_path_resolver q (CtxEntry field_key "")) ∧ p ∈ items.
Proof.
  revert p. apply (map_fold_weak_ind (λ r m, ∀ p,
    p ∈ r ↔ ∃ field_key items, m !! field_key = Some items
              ∧ is_Some (_path_resolver q (CtxEntry field_key "")) ∧ p ∈ items)).
  - intros p. split; [by intros ?%elem_of_nil|].
    intros (key&items&Hm&_). by rewrite lookup_empty in Hm.
  - intros key items m' r Hkey IH p.
    destruct (_path_resolver q (CtxEntry key "")) as [v|] eqn:Hv.
    + rewrite elem_of_union, IH. split.
      * intros [(k&l&Hl&?&?)|Hp].
        -- exists k, l. split_and!; [|done..]. by apply lookup_insert_fresh.
        -- exists key, items. rewrite lookup_insert_eq, Hv. eauto.
      * intros (k&l&Hl&?&?). destruct (decide (key = k)) as [<-|Hne].
        -- rewrite lookup_insert_eq in Hl. simplify_eq. by right.
        -- rewrite lookup_insert_ne in Hl by done. left. eauto 10.
    + rewrite IH. split.
      * intros (k&l&Hl&?&?). exists k, l. split_and!; [|done..].
        by apply lookup_insert_fresh.
      * intros (k&l&Hl&Hs&?). destruct (decide (key = k)) as [<-|Hne].
        -- rewrite Hv in Hs. by destruct Hs.
        -- rewrite lookup_insert_ne in Hl by done. eauto 10.
Qed.

Lemma search_tag_values_fold q tag_key (tag_values : gmap string (list nat)) acc p :
  p ∈ map_fold (λ value items rst_items,
                  match _path_resolver q (CtxEntry tag_key value) with
                  | None => rst_items
                  | Some test_value =>
                      if _test q test_value
                      then union_two_sorted_lists rst_items items
                      else rst_items
                  end) acc tag_values
  ↔ p ∈ acc
    ∨ ∃ value items v, tag_values !! value = Some items
        ∧ _path_resolver q (CtxEntry tag_key value) = Some v ∧ _test q v = true
        ∧ p ∈ items.
Proof.
  revert p. apply (map_fold_weak_ind (λ r m, ∀ p,
    p ∈ r ↔ p ∈ acc
            ∨ ∃ value items v, m !! value = Some items
                ∧ _path_resolver q (CtxEntry tag_key value) = Some v ∧ _test q v = true
                ∧ p ∈ items)).
  - intros p. split; [by left|]. intros [?|(value&items&v&Hm&_)]; [done|].
    by rewrite lookup_empty in Hm.
  - intros value items m' r Hvalue IH p.
    assert (p ∈ r → p ∈ acc ∨
      ∃ value0 items0 v, <[value:=items]> m' !! value0 = Some items0
        ∧ _path_resolver q (CtxEntry tag_key value0) = Some v ∧ _test q v = true
        ∧ p ∈ items0) as Hold.
    { intros [?|(value0&l&v'&Hl&?&?&?)]%IH; [by left|]. right.
      exists value0, l, v'. split_and!; [|done..]. by apply lookup_insert_fresh. }
    destruct (_path_resolver q (CtxEntry tag_key value)) as [v|] eqn:Hv;
      [destruct (_test q v) eqn:Htest|].
    + rewrite elem_of_union. split.
      * intros [Hp|Hp]; [auto|]. right. exists value, items, v.
        by rewrite lookup_insert_eq.
      * intros [Hp|(value0&l&v'&Hl&Hv'&?&?)]; [left; apply IH; auto|].
        destruct (decide (value = value0)) as [<-|Hne].
        -- rewrite lookup_insert_eq in Hl. simplify_eq. by right.
        -- rewrite lookup_insert_ne in Hl by done. left. apply IH. right. eauto 10.
    + split; [done|].
      intros [Hp|(value0&l&v'&Hl&Hv'&?&?)]; [apply IH; auto|].
      destruct (decide (value = value0)) as [<-|Hne].
      * rewrite lookup_insert_eq in Hl. simplify_eq. congruence.
      * rewrite lookup_insert_ne in Hl by done. apply IH. right. eauto 10.
    + split; [done|].
      intros [Hp|(value0&l&v'&Hl&Hv'&?&?)]; [apply IH; auto|].
      destruct (decide (value = value0)) as [<-|Hne].
      * congruence.
      * rewrite lookup_insert_ne in Hl by done. apply IH. right. eauto 10.
Qed.

Lemma search_tags_fold q (m : gmap string (gmap string (list nat))) p :
  p ∈ map_fold (λ tag_key tag_values rst_items,
                  map_fold (λ value items rst_items,
                              match _path_resolver q (CtxEntry tag_key value) with
                              | None => rst_items
                              | Some test_value =>
                                  if _test q test_value
                                  then union_two_sorted_lists rst_items items
                                  else rst_items
                              end) rst_items tag_values) [] m
  ↔ ∃ tag_key tag_values value items v,
      m !! tag_key = Some tag_values ∧ tag_values !! value = Some items
      ∧ _path_resolver q (CtxEntry tag_key value) = Some v ∧ _test q v = true
      ∧ p ∈ items.
Proof.
  revert p. apply (map_fold_weak_ind (λ r m, ∀ p,
    p ∈ r ↔ ∃ tag_key tag_values value items v,
              m !! tag_key = Some tag_values ∧ tag_values !! value = Some items
              ∧ _path_resolver q (CtxEntry tag_key value) = Some v ∧ _test q v = true
              ∧ p ∈ items)).
  - intros p. split; [by intros ?%elem_of_nil|].
    intros (key&vals&value&items&v&Hm&_). by rewrite lookup_empty in Hm.
  - intros key vals m' r Hkey IH p. rewrite search_tag_values_fold, IH. split.
    + intros [(k&vs&value&l&v&Hk&?&?&?&?)|(value&l&v&?&?&?&?)].
      * exists k, vs, value, l, v. split_and!; [|done..]. by apply lookup_insert_fresh.
      * exists key, vals, value, l, v. by rewrite lookup_insert_eq.
    + intros (k&vs&value&l&v&Hk&?&?&?&?). destruct (decide (key = k)) as [<-|Hne].
      * rewrite lookup_insert_eq in Hk. simplify_eq. right. eauto 10.
      * rewrite lookup_insert_ne in Hk by done. left. eauto 15.
Qed.

Lemma search_measurement_leaf {lib : Datetime} q self :
  _point_attr q = attr_measurement →
  search (Simple q) self =
    match map_fold (λ key items acc,
                      match acc with
                      | Raise e => Raise e
                      | Ok rst_items =>
                          match _path_resolver q (CtxName key) with
                          | None => Raise ResolverFault
                          | Some test_value =>
                              if _test q test_value
                              then Ok (union_two_sorted_lists rst_items items)
                              else Ok rst_items
                          end
                      end) (Ok []) (_measurements self) with
    | Ok items => (Ok (mkIndexResult items true (_num_items self)), self)
    | Raise e => (Raise e, self)
    end.
Proof.
  intros Hattr. unfold search. simpl. rewrite Hattr.
  unfold _search_measurement, bind, attr, ret, raise. simpl.
  by destruct (map_fold _ _ _).
Qed.

Lemma search_fields_leaf {lib : Datetime} q self :
  _point_attr q = attr_fields →
  search (Simple q) self =
    (Ok (mkIndexResult
           (map_fold (λ field_key items rst_items,
                        match _path_resolver q (CtxEntry field_key "") with
                        | None => rst_items
                        | Some _ => union_two_sorted_lists rst_items items
                        end) [] (_fields self))
           false (_num_items self)), self).
Proof. intros Hattr. unfold search. simpl. by rewrite Hattr. Qed.

Lemma search_tags_leaf {lib : Datetime} q self :
  _point_attr q = attr_tags →
  search (Simple q) self =
    (Ok (mkIndexResult
           (map_fold (λ tag_key tag_values rst_items,
                        map_fold (λ value items rst_items,
                                    match _path_resolver q (CtxEntry tag_key value) with
                                    | None => rst_items
                                    | Some test_value =>
                                        if _test q test_value
                                        then union_two_sorted_lists rst_items items
                                        else rst_items
                                    end) rst_items tag_values) [] (_tags self))
           true (_num_items self)), self).
Proof. intros Hattr. unfold search. simpl. by rewrite Hattr. Qed.

(** X10: a leaf on the measurement raises the fault of its resolver
    exactly when the resolver faults on a measurement name the index
    holds, the scan of the names having no guard; the scans of the tag
    pairs and of the field keys catch the fault, so a leaf on tags or
    on fields always answers. *)
Theorem search_resolver_fault {lib : Datetime} (q : SimpleQuery) (self : Index) :
  (_point_attr q = attr_measurement →
   ((∃ e, fst (search (Simple q) self) = Raise e)
    ↔ ∃ name, name ∈ get_measurement_names self ∧ _path_resolver q (CtxName name) = None)
   ∧ ∀ e, fst (search (Simple q) self) = Raise e → e = ResolverFault)
  ∧ (_point_attr q = attr_tags ∨ _point_attr q = attr_fields →
     ∃ rst, search (Simple q) self = (Ok rst, self)).
Proof.
  split.
  - intros Hattr. rewrite (search_measurement_leaf _ _ Hattr).
    pose proof (search_measurement_fold q (_measurements self)) as Hfold.
    unfold get_measurement_names. setoid_rewrite elem_of_dom.
    destruct (map_fold _ _ _) as [items|e]; simpl.
    + destruct Hfold as [Hres _]. split; [|done]. split; [by intros [? ?]|].
      intros (name&Hin&Hnone). destruct (Hres name Hin) as [? ?]. congruence.
    + destruct Hfold as [-> Hex]. split; [|by intros ? [= <-]]. split; [done|].
      by eexists.
  - intros [Hattr|Hattr].
    + rewrite (search_tags_leaf _ _ Hattr). by eexists.
    + rewrite (search_fields_leaf _ _ Hattr). by eexists.
Qed.

Lemma search_resolver_fault_witness :
  let self := build [mkPoint 10 "m" {["host" := "a"]} {["x" := 1%Z]}] (__init__ true) in
  let q := mkSimpleQuery attr_tags op_eq 0 (λ _, None) (λ _, true) in
  ∃ rst, search (Simple q) self = (Ok rst, self).
Proof.
  intros self q. apply (proj2 (search_resolver_fault q self)). left. reflexivity.
Defined.

Lemma as_posting_Some (items l : list nat) :
  as_posting items = Some l ↔ items = l ∧ l ≠ [].
Proof.
  destruct items; simpl; split; try done.
  - by intros [<- ?].
  - by intros [= <-].
  - by intros [<- _].
Qed.

Lemma elem_of_as_posting (items : list nat) p :
  (∃ l, as_posting items = Some l ∧ p ∈ l) ↔ p ∈ items.
Proof.
  split.
  - by intros (l&[-> _]%as_posting_Some&?).
  - intros Hp. exists items. split; [|done]. apply as_posting_Some. split; [done|].
    intros ->. by apply elem_of_nil in Hp.
Qed.

(** X11: on a built index, a leaf on the measurement whose resolver
    applies to the names of the points answers a complete result with
    exactly the positions of the points whose name passes the test, in
    ascending order. *)
Theorem search_measurement_built {lib : Datetime} (points : list Point) (self : Index) (q : SimpleQuery) :
  _point_attr q = attr_measurement →
  (∀ point, point ∈ points → is_Some (_path_resolver q (CtxName (measurement point)))) →
  ∃ rst, search (Simple q) (build points self) = (Ok rst, build points self)
    ∧ (∀ p, p ∈ _items rst ↔
         ∃ point v, points !! p = Some point
           ∧ _path_resolver q (CtxName (measurement point)) = Some v
           ∧ _test q v = true)
    ∧ ascending (_items rst)
    ∧ _is_complete rst = true.
Proof.
  intros Hattr Hres.
  pose proof (search_items_ascending (Simple q) (build points self)) as Hasc.
  rewrite (search_measurement_leaf _ _ Hattr) in *.
  pose proof (search_measurement_fold q (_measurements (build points self))) as Hfold.
  assert (∀ name items p, _measurements (build points self) !! name = Some items →
            (p ∈ items ↔ ∃ point, points !! p = Some point ∧ measurement point = name))
    as Hlookup.
  { intros name items p Hm. unfold build in Hm.
    rewrite index_points_measurements, extend_posting_None in Hm.
    apply as_posting_Some in Hm as [<- _]. rewrite elem_of_positions_from.
    unfold has_measurement. setoid_rewrite bool_decide_eq_true. split.
    - intros (i&pt&->&?&?). eauto.
    - intros (pt&?&?). exists p, pt. auto. }
  destruct (map_fold _ _ _) as [items|e].
  - destruct Hfold as [_ Hmem]. eexists. split; [reflexivity|]. simpl.
    split_and!; [| |done].
    + intros p. rewrite Hmem. split.
      * intros (name&l&v&Hl&Hv&Ht&Hp). apply (Hlookup _ _ _ Hl) in Hp as (pt&Hpt&<-).
        eauto.
      * intros (pt&v&Hpt&Hv&Ht).
        destruct (_measurements (build points self) !! measurement pt) as [l|] eqn:Hl.
        -- exists (measurement pt), l, v. split_and!; [done..|].
           apply (Hlookup _ _ _ Hl). eauto.
        -- unfold build in Hl.
           rewrite index_points_measurements, extend_posting_None in Hl.
           assert (p ∈ positions_from 0 (has_measurement (measurement pt)) points) as Hp.
           { apply elem_of_positions_from. exists p, pt. split_and!; [done..|].
             by apply bool_decide_eq_true. }
           destruct (positions_from 0 _ points); [by apply elem_of_nil in Hp|done].
    + refine (Hasc _ _ _ eq_refl). intros l Hl.
      by apply (well_indexed_build points self).
  - exfalso. destruct Hfold as [_ (name&[l Hl]&Hnone)].
    unfold build in Hl. rewrite index_points_measurements, extend_posting_None in Hl.
    apply as_posting_Some in Hl as [<- Hne].
    destruct (positions_from 0 (has_measurement name) points) as [|p l'] eqn:Hpos; [done|].
    assert (p ∈ positions_from 0 (has_measurement name) points) as Hp
      by (rewrite Hpos; left).
    apply elem_of_positions_from in Hp as (i&pt&_&Hpt&Hhas).
    apply bool_decide_eq_true in Hhas. subst name.
    destruct (Hres pt) as [v Hv]; [by eapply list_elem_of_lookup_2|]. congruence.
Qed.

Lemma search_measurement_built_witness :
  let points := [mkPoint 10 "m" ∅ ∅; mkPoint 20 "n" ∅ ∅; mkPoint 20 "m" ∅ ∅] in
  let q := mkSimpleQuery attr_measurement op_eq 0 Some
             (λ c, match c with CtxName name => bool_decide (name = "m") | _ => false end) in
  ∃ rst, search (Simple q) (build points (__init__ true))
           = (Ok rst, build points (__init__ true))
    ∧ (∀ p, p ∈ _items rst ↔
         ∃ point v, points !! p = Some point
           ∧ _path_resolver q (CtxName (measurement point)) = Some v
           ∧ _test q v = true)
    ∧ ascending (_items rst)
    ∧ _is_complete rst = true.
Proof.
  intros points q. apply (search_measurement_built points (__init__ true) q).
  - reflexivity.
  - intros point _. by eexists.
Defined.

Lemma build_fields_elem points self field_key p :
  (∃ items, _fields (build points self) !! field_key = Some items ∧ p ∈ items)
  ↔ ∃ point, points !! p = Some point ∧ is_Some (fields point !! field_key).
Proof.
  unfold build. rewrite index_points_fields, extend_posting_None, elem_of_as_posting.
  fold (positions_where (has_field field_key) points).
  rewrite elem_of_positions_where. unfold has_field.
  by setoid_rewrite bool_decide_eq_true.
Qed.

Lemma build_tags_elem points self tag_key tag_value p :
  (∃ tag_values items, _tags (build points self) !! tag_key = Some tag_values
     ∧ tag_values !! tag_value = Some items ∧ p ∈ items)
  ↔ ∃ point, points !! p = Some point ∧ tags point !! tag_key = Some tag_value.
Proof.
  transitivity (∃ items, tag_posting (build points self) tag_key tag_value = Some items
                         ∧ p ∈ items).
  { unfold tag_posting. split.
    - intros (vals&items&Hk&Hv&Hp). exists items. by rewrite Hk.
    - intros (items&Hk&Hp). apply bind_Some in Hk as (vals&?&?). eauto. }
  unfold build. rewrite index_points_tags, extend_posting_None, elem_of_as_posting.
  fold (positions_where (has_tag tag_key tag_value) points).
  rewrite elem_of_positions_where. unfold has_tag.
  by setoid_rewrite bool_decide_eq_true.
Qed.

(** X12: on a built index, a leaf on fields answers an incomplete
    result with exactly the positions of the points that have a field
    key the resolver applies to, in ascending order: the values and the
    test play no part. *)
Theorem search_fields_built {lib : Datetime} (points : list Point) (self : Index) (q : SimpleQuery) :
  _point_attr q = attr_fields →
  ∃ rst, search (Simple q) (build points self) = (Ok rst, build points self)
    ∧ (∀ p, p ∈ _items rst ↔
         ∃ point field_key, points !! p = Some point
           ∧ is_Some (fields point !! field_key)
           ∧ is_Some (_path_resolver q (CtxEntry field_key "")))
    ∧ ascending (_items rst)
    ∧ _is_complete rst = false.
Proof.
  intros Hattr.
  pose proof (search_items_ascending (Simple q) (build points self)) as Hasc.
  rewrite (search_fields_leaf _ _ Hattr) in *.
  eexists. split; [reflexivity|]. simpl. split_and!; [| |done].
  - intros p. rewrite search_fields_fold. split.
    + intros (key&items&Hl&Hres&Hp).
      destruct (proj1 (build_fields_elem points self key p)) as (pt&?&?); eauto.
    + intros (pt&key&Hpt&Hf&Hres).
      destruct (proj2 (build_fields_elem points self key p)) as (items&?&?); eauto.
  - refine (Hasc _ _ _ eq_refl). intros l Hl.
    by apply (well_indexed_build points self).
Qed.

Lemma search_fields_built_witness :
  let points := [mkPoint 10 "m" ∅ {["x" := 1%Z]}; mkPoint 20 "m" ∅ {["y" := 2%Z]}] in
  let q := mkSimpleQuery attr_fields op_eq 0
             (λ c, match c with
                   | CtxEntry key _ => if bool_decide (key = "x") then Some c else None
                   | _ => None
                   end) (λ _, false) in
  ∃ rst, search (Simple q) (build points (__init__ true))
           = (Ok rst, build points (__init__ true))
    ∧ (∀ p, p ∈ _items rst ↔
         ∃ point field_key, points !! p = Some point
           ∧ is_Some (fields point !! field_key)
           ∧ is_Some (_path_resolver q (CtxEntry field_key "")))
    ∧ ascending (_items rst)
    ∧ _is_complete rst = false.
Proof.
  intros points q. apply (search_fields_built points (__init__ true) q). reflexivity.
Defined.

(** X13: on a built index, a leaf on tags answers a complete result
    with exactly the positions of the points that have a tag pair the
    resolver applies to and whose resolved value passes the test, in
    ascending order; a pair the resolver faults on is skipped. *)
Theorem search_tags_built {lib : Datetime} (points : list Point) (self : Index) (q : SimpleQuery) :
  _point_attr q = attr_tags →
  ∃ rst, search (Simple q) (build points self) = (Ok rst, build points self)
    ∧ (∀ p, p ∈ _items rst ↔
         ∃ point tag_key tag_value v, points !! p = Some point
           ∧ tags point !! tag_key = Some tag_value
           ∧ _path_resolver q (CtxEntry tag_key tag_value) = Some v
           ∧ _test q v = true)
    ∧ ascending (_items rst)
    ∧ _is_complete rst = true.
Proof.
  intros Hattr.
  pose proof (search_items_ascending (Simple q) (build points self)) as Hasc.
  rewrite (search_tags_leaf _ _ Hattr) in *.
  eexists. split; [reflexivity|]. simpl. split_and!; [| |done].
  - intros p. rewrite search_tags_fold. split.
    + intros (key&vals&value&items&v&Hk&Hv&Hres&Ht&Hp).
      destruct (proj1 (build_tags_elem points self key value p)) as (pt&?&?); eauto 10.
    + intros (pt&key&value&v&Hpt&Htag&Hres&Ht).
      destruct (proj2 (build_tags_elem points self key value p)) as (vals&items&?&?&?);
        eauto 15.
  - refine (Hasc _ _ _ eq_refl). intros l Hl.
    by apply (well_indexed_build points self).
Qed.

Lemma search_tags_built_witness :
  let points := [mkPoint 10 "m" {["host" := "a"]} ∅; mkPoint 20 "m" {["host" := "b"]} ∅] in
  let q := mkSimpleQuery attr_tags op_eq 0
             (λ c, match c with
                   | CtxEntry key value =>
                       if bool_decide (key = "host") then Some (CtxName value) else None
                   | _ => None
                   end)
             (λ c, match c with CtxName value => bool_decide (value = "b") | _ => false end)
  in
  ∃ rst, search (Simple q) (build points (__init__ true))
           = (Ok rst, build points (__init__ true))
    ∧ (∀ p, p ∈ _items rst ↔
         ∃ point tag_key tag_value v, points !! p = Some point
           ∧ tags point !! tag_key = Some tag_value
           ∧ _path_resolver q (CtxEntry tag_key tag_value) = Some v
           ∧ _test q v = true)
    ∧ ascending (_items rst)
    ∧ _is_complete rst = true.
Proof.
  intros points q. apply (search_tags_built points (__init__ true) q). reflexivity.
Defined.

(** ** The other branches of the timestamp search *)

Lemma scan_timestamps_answers {lib : Datetime} q idx (ts : list Z) :
  (∀ timestamp, timestamp ∈ ts → converts_and_resolves q timestamp) →
  scan_timestamps q idx ts = Ok (manual_scan_from idx (fallback_test q) ts).
Proof.
  revert idx. induction ts as [|t ts IH]; intros idx Hres; simpl; [done|].
  destruct (Hres t) as (time&Hconv&[v Hv]); [by left|].
  assert (fallback_test q t = _test q v) as ->
    by (unfold fallback_test; by rewrite Hconv, Hv).
  rewrite Hconv, Hv, IH; [by destruct (_test q v)|].
  intros t' Ht'. apply Hres. by right.
Qed.

Lemma scan_timestamps_first_fault {lib : Datetime} q idx (before : list Z) t after :
  (∀ timestamp, timestamp ∈ before → converts_and_resolves q timestamp) →
  (fromtimestamp t = None →
   scan_timestamps q idx (before ++ t :: after) = Raise ValueError)
  ∧ (∀ time, fromtimestamp t = Some time → _path_resolver q (CtxTime time) = None →
       scan_timestamps q idx (before ++ t :: after) = Raise ResolverFault).
Proof.
  revert idx. induction before as [|b before IH]; intros idx Hres; simpl.
  - split; [by intros ->|by intros time -> ->].
  - destruct (Hres b) as (time&Hconv&[v Hv]); [by left|]. rewrite Hconv, Hv.
    destruct (IH (S idx)) as [IHconv IHres]; [intros t' Ht'; apply Hres; by right|].
    split; [intros Hnone; by rewrite IHconv|intros time' Ht Hr; by rewrite (IHres _ Ht Hr)].
Qed.

(** X14: for an operator that is none of the six comparisons, a leaf on
    time scans every timestamp, in any order they are stored,
    converting each one with [datetime.fromtimestamp] before the
    resolver and the test see it.  When every stored timestamp converts
    and resolves, the search answers the positions whose resolved time
    passes the test.  Otherwise the first stored timestamp that does not
    decides: the search raises the library's error when the conversion
    fails, and the resolver's fault when the resolver does not apply to
    the time; the index is unchanged. *)
Theorem search_time_fallback {lib : Datetime} (self : Index) (q : SimpleQuery) :
  _point_attr q = attr_time →
  _operator q = op_other →
  ((∀ timestamp, timestamp ∈ _timestamps self → converts_and_resolves q timestamp) →
   search (Simple q) self
   = (Ok (mkIndexResult (manual_scan (fallback_test q) (_timestamps self))
            true (_num_items self)), self))
  ∧ (∀ before t after,
       _timestamps self = before ++ t :: after →
       (∀ timestamp, timestamp ∈ before → converts_and_resolves q timestamp) →
       (fromtimestamp t = None →
        search (Simple q) self = (Raise ValueError, self))
       ∧ (∀ time, fromtimestamp t = Some time →
            _path_resolver q (CtxTime time) = None →
            search (Simple q) self = (Raise ResolverFault, self))).
Proof.
  intros Hattr Hop. rewrite (search_time_leaf _ _ Hattr).
  unfold _search_timestamps, bind, attr, ret, raise. rewrite Hop. split.
  - intros Hres. by rewrite scan_timestamps_answers.
  - intros before t after -> Hres.
    destruct (scan_timestamps_first_fault q 0 before t after Hres) as [Hconv Hfault].
    split; [intros Hnone; by rewrite Hconv|intros time Ht Hr; by rewrite (Hfault _ Ht Hr)].
Qed.

Lemma search_time_fallback_witness :
  let q := mkSimpleQuery attr_time op_other 0 Some
             (λ c, match c with CtxTime t => (t mod 20 =? 10)%Z | _ => false end) in
  let self := build [mkPoint 30 "m" ∅ ∅; mkPoint 10 "m" ∅ ∅; mkPoint 20 "m" ∅ ∅]
                (__init__ true) in
  let late := build [mkPoint 10 "m" ∅ ∅; mkPoint 253402300800 "m" ∅ ∅; mkPoint 20 "m" ∅ ∅]
                (__init__ true) in
  search (Simple q) self = (Ok (mkIndexResult [0; 1] true 3), self)
  ∧ search (Simple q) late = (Raise ValueError, late).
Proof.
  intros q self late. split.
  - refine (eq_trans (proj1 (search_time_fallback self q eq_refl eq_refl) _) _);
      [|reflexivity].
    intros timestamp Hin.
    assert (_timestamps self = [30; 10; 20]%Z) as Hts by reflexivity.
    rewrite Hts in Hin.
    repeat (apply elem_of_cons in Hin as [->|Hin];
            [eexists; split; [reflexivity|by eexists]|]).
    by apply elem_of_nil in Hin.
  - refine (proj1 (proj2 (search_time_fallback late q eq_refl eq_refl)
                     [10%Z] 253402300800%Z [20%Z] eq_refl _) eq_refl).
    intros timestamp ->%list_elem_of_singleton.
    exists 10%Z. split; [reflexivity|by eexists].
Defined.

(** X15: on an index whose timestamps are in non-descending order, the
    search for [time != t] answers a complete result with exactly the
    positions whose timestamp differs from [t]. *)
Theorem search_time_ne {lib : Datetime} (self : Index) (q : SimpleQuery) :
  non_descending (_timestamps self) →
  _point_attr q = attr_time →
  _operator q = op_ne →
  search (Simple q) self
  = (Ok (mkIndexResult
           (manual_scan (λ x, negb (x =? _rhs q)%Z) (_timestamps self))
           true (_num_items self)), self).
Proof.
  intros Hsorted Hattr Hop. rewrite (search_time_leaf _ _ Hattr).
  unfold _search_timestamps, bind, attr, ret. rewrite Hop.
  set (ts := _timestamps self) in *. set (t := _rhs q).
  pose proof (find_eq_scan ts t Hsorted) as Hscan.
  assert (difference_generator_and_sorted_lists (seq 0 (length ts))
            (manual_scan (λ x, (x =? t)%Z) ts)
          = manual_scan (λ x, negb (x =? t)%Z) ts) as Hdiff.
  { apply ascending_ext;
      [apply difference_ascending, ascending_seq|apply ascending_manual_scan_from|].
    intros p. rewrite elem_of_difference_sorted
      by (apply ascending_seq || apply ascending_manual_scan_from).
    unfold manual_scan. rewrite !elem_of_manual_scan_from, elem_of_seq. split.
    - intros [Hp Hne]. destruct (lookup_lt_is_Some_2 ts p ltac:(lia)) as [x Hx].
      exists p, x. split_and!; [done..|].
      destruct (x =? t)%Z eqn:Heq; [|done]. exfalso. apply Hne. eauto.
    - intros (i&x&->&Hx&Hneg). split.
      + apply lookup_lt_Some in Hx. lia.
      + intros (j&y&Hj&Hy&Heq). assert (j = i) as -> by lia. simplify_eq.
        by rewrite Heq in Hneg. }
  destruct (find_eq ts t) as [m|].
  - by rewrite Hscan, Hdiff.
  - rewrite <- Hdiff, <- Hscan. by rewrite difference_nil_r.
Qed.

Lemma search_time_ne_witness :
  let self := build [mkPoint 10 "m" ∅ ∅; mkPoint 20 "m" ∅ ∅; mkPoint 20 "m" ∅ ∅;
                     mkPoint 30 "m" ∅ ∅] (__init__ true) in
  let q := mkSimpleQuery attr_time op_ne 20 Some (λ _, true) in
  search (Simple q) self = (Ok (mkIndexResult [0; 3] true 4), self).
Proof.
  intros self q. apply (search_time_ne self q).
  - subst self. solve_sorted.
  - reflexivity.
  - reflexivity.
Defined.

(** ** The order of the timestamps under removal *)

Lemma non_descending_sublist (l k : list Z) :
  l `sublist_of` k → non_descending k → non_descending l.
Proof.
  unfold non_descending.
  induction 1 as [|x l k Hs IH|x l k Hs IH]; intros Hk; [done|..];
    apply StronglySorted_cons in Hk as [Hx Hk].
  - apply StronglySorted_cons. split; [|auto].
    apply Forall_forall. intros y Hy. rewrite Forall_forall in Hx.
    apply Hx. eapply elem_of_sublist; eauto.
  - auto.
Qed.

Lemma remove_timestamps_from_sublist i r_items (ts : list Z) :
  remove_timestamps_from i r_items ts `sublist_of` ts.
Proof.
  revert i. induction ts as [|t ts IH]; intros i; simpl; [done|].
  destruct (decide (i ∈ r_items)); [by apply sublist_cons|by apply sublist_skip].
Qed.

(** X16: [remove] keeps the timestamps in non-descending order, and
    [update] does not touch them, so the searches by time stay valid
    across a removal and the renumbering that follows. *)
Theorem remove_keeps_time_order (r_items : gset nat) (u_items : gmap nat nat)
    (self self' : Index) :
  non_descending (_timestamps self) →
  update u_items (remove r_items self) = Some self' →
  non_descending (_timestamps (remove r_items self))
  ∧ _timestamps self' = _timestamps (remove r_items self)
  ∧ non_descending (_timestamps self').
Proof.
  intros Hsorted Hupd.
  assert (non_descending (_timestamps (remove r_items self))) as Hrem.
  { eapply non_descending_sublist; [|done]. apply remove_timestamps_from_sublist. }
  pose proof (update_cases u_items (remove r_items self)) as Hcases.
  rewrite Hupd in Hcases. destruct Hcases as [_ ->]. done.
Qed.

Lemma remove_keeps_time_order_witness :
  let self := build [mkPoint 10 "m" ∅ ∅; mkPoint 20 "m" ∅ ∅; mkPoint 30 "m" ∅ ∅]
                (__init__ true) in
  let u_items : gmap nat nat := {[0 := 0; 2 := 1]} in
  ∃ self', update u_items (remove {[1]} self) = Some self'
    ∧ _timestamps self' = [10; 30]%Z
    ∧ non_descending (_timestamps self').
Proof.
  intros self u_items.
  assert (∃ self', update u_items (remove {[1]} self) = Some self') as [self' Hupd]
    by (eexists; vm_compute; reflexivity).
  exists self'. split; [exact Hupd|].
  assert (non_descending (_timestamps self)) as Hsorted by (subst self; solve_sorted).
  destruct (remove_keeps_time_order {[1]} u_items self self' Hsorted Hupd)
    as (_&Hts&Hord).
  split; [|exact Hord]. rewrite Hts. reflexivity.
Defined.

(** ** Removing nothing, renumbering to the same positions *)

Lemma filter_not_in_disjoint (r_items : gset nat) (items : list nat) :
  (∀ p, p ∈ items → p ∉ r_items) → filter (λ i, i ∉ r_items) items = items.
Proof.
  induction items as [|p items IH]; intros Hdis; [done|].
  rewrite filter_cons_True by (apply Hdis; left).
  rewrite IH; [done|]. intros q Hq. apply Hdis. by right.
Qed.

Lemma surviving_empty (items : list nat) :
  items ≠ [] → surviving ∅ items = Some items.
Proof.
  unfold surviving. rewrite filter_not_in_disjoint by set_solver. by destruct items.
Qed.

Lemma omap_surviving_empty (m : gmap string (list nat)) :
  (∀ key items, m !! key = Some items → items ≠ []) → omap (surviving ∅) m = m.
Proof.
  intros Hne. apply map_eq. intros key. rewrite lookup_omap.
  destruct (m !! key) as [items|] eqn:Hm; simpl; [|done].
  apply surviving_empty. eauto.
Qed.

Lemma remove_timestamps_from_empty i (ts : list Z) :
  remove_timestamps_from i ∅ ts = ts.
Proof.
  revert i. induction ts as [|t ts IH]; intros i; simpl; [done|].
  rewrite decide_False by set_solver. by rewrite IH.
Qed.

(** X17: removing the empty set of positions leaves an index that
    stores no empty posting list exactly as it was. *)
Theorem remove_nothing (self : Index) :
  no_empty_posting self → remove ∅ self = self.
Proof.
  intros [Hpost Htags]. rewrite remove_eq.
  destruct self as [n tg fl ms ts v]. simpl in *. f_equal.
  - change (set_size _) with (size (∅ : gset nat)). rewrite size_empty. lia.
  - apply map_eq. intros key. rewrite lookup_omap.
    destruct (tg !! key) as [vals|] eqn:Hk; simpl; [|done].
    unfold surviving_values. rewrite omap_surviving_empty.
    + rewrite decide_False; [done|]. intros ->. by eapply Htags.
    + intros value items Hv. apply Hpost. right. left. eauto 10.
  - apply omap_surviving_empty. intros key items Hf. apply Hpost. right. right. eauto.
  - apply omap_surviving_empty. intros key items Hm. apply Hpost. left. eauto.
  - unfold without_positions. rewrite <- remove_timestamps_from_zip.
    apply remove_timestamps_from_empty.
Qed.

Lemma remove_nothing_witness :
  let self := build [mkPoint 10 "m" {["host" := "a"]} {["x" := 1%Z]};
                     mkPoint 20 "n" {["host" := "b"]} ∅] (__init__ true) in
  remove ∅ self = self.
Proof.
  intros self. apply (remove_nothing self).
  apply (no_empty_posting_run [Build [mkPoint 10 "m" {["host" := "a"]} {["x" := 1%Z]};
                                      mkPoint 20 "n" {["host" := "b"]} ∅]] (__init__ true)).
  - apply no_empty_posting_init.
  - reflexivity.
Defined.

Lemma remap_id u (items : list nat) :
  (∀ p, p ∈ items → u !! p = Some p) → remap u items = items.
Proof.
  unfold remap. induction items as [|p items IH]; intros Hid; [done|].
  rewrite fmap_cons. f_equal.
  - apply lookup_total_correct, Hid. left.
  - apply IH. intros q Hq. apply Hid. by right.
Qed.

(** X18: an [update] whose map sends every referenced position to
    itself returns and leaves an index that stores no empty posting
    list exactly as it was. *)
Theorem update_identity (u_items : gmap nat nat) (self : Index) :
  no_empty_posting self →
  (∀ p, referenced self p → u_items !! p = Some p) →
  update u_items self = Some self.
Proof.
  intros [Hpost Htags] Hid.
  pose proof (update_cases u_items self) as Hcases.
  destruct (update u_items self) as [self'|].
  - destruct Hcases as [_ ->]. f_equal.
    assert (∀ items, posting self items → remap u_items items = items) as Hremap.
    { intros items Hitems. apply remap_id. intros p Hp. apply Hid. by exists items. }
    destruct self as [n tg fl ms ts v]. simpl in *. f_equal.
    + apply map_eq. intros key. rewrite lookup_fmap.
      destruct (tg !! key) as [vals|] eqn:Hk; simpl; [|done]. f_equal.
      apply map_eq. intros value. unfold remap_values. rewrite lookup_fmap.
      destruct (vals !! value) as [items|] eqn:Hv; simpl; [|done]. f_equal.
      apply Hremap. right. left. eauto 10.
    + apply map_eq. intros key. rewrite lookup_fmap.
      destruct (fl !! key) as [items|] eqn:Hf; simpl; [|done]. f_equal.
      apply Hremap. right. right. eauto.
    + rewrite map_filter_id.
      * apply map_eq. intros key. rewrite lookup_fmap.
        destruct (ms !! key) as [items|] eqn:Hm; simpl; [|done]. f_equal.
        apply Hremap. left. eauto.
      * intros key items Hm. simpl. apply Hpost. left. eauto.
  - exfalso. apply referenced_missing in Hcases as (p&Hp&Hnone).
    rewrite (Hid p Hp) in Hnone. done.
Qed.

Lemma update_identity_witness :
  let self := build [mkPoint 10 "m" {["host" := "a"]} {["x" := 1%Z]};
                     mkPoint 20 "n" {["host" := "b"]} ∅] (__init__ true) in
  update {[0 := 0; 1 := 1]} self = Some self.
Proof.
  intros self. apply (update_identity {[0 := 0; 1 := 1]} self).
  - apply (no_empty_posting_run [Build [mkPoint 10 "m" {["host" := "a"]} {["x" := 1%Z]};
                                        mkPoint 20 "n" {["host" := "b"]} ∅]]
             (__init__ true)); [apply no_empty_posting_init|reflexivity].
  - intros p (items&Hposting&Hp).
    destruct (well_indexed_build [mkPoint 10 "m" {["host" := "a"]} {["x" := 1%Z]};
                                  mkPoint 20 "n" {["host" := "b"]} ∅] (__init__ true))
      as [_ Hgood].
    destruct (Hgood items Hposting) as [_ Hlt]. rewrite Forall_forall in Hlt.
    specialize (Hlt p Hp). simpl in Hlt.
    destruct p as [|[|p]]; [reflexivity|reflexivity|lia].
Defined.

(** ** Removal and renumbering against a fresh build *)

Lemma rank_S r_items p :
  rank r_items (S p) = if decide (p ∈ r_items) then rank r_items p else S (rank r_items p).
Proof.
  unfold rank. rewrite seq_S, filter_app, length_app. simpl.
  rewrite filter_cons, filter_nil.
  destruct (decide (p ∈ r_items)), (decide (p ∉ r_items)); simpl; try done; lia.
Qed.

Lemma remap_filter_positions u r_items P i (points : list Point) :
  (∀ p, i ≤ p < i + length points → p ∉ r_items → u !! p = Some (rank r_items p)) →
  remap u (filter (λ p, p ∉ r_items) (positions_from i P points))
  = positions_from (rank r_items i) P (delete_from i r_items points).
Proof.
  revert i. induction points as [|pt points IH]; intros i Hu; simpl; [done|].
  assert (remap u (filter (λ p, p ∉ r_items) (positions_from (S i) P points))
          = positions_from (rank r_items (S i)) P (delete_from (S i) r_items points))
    as IH'.
  { apply IH. intros p Hp. apply Hu. simpl. lia. }
  rewrite rank_S in IH'.
  destruct (decide (i ∈ r_items)) as [Hin|Hin].
  - destruct (P pt); [|done]. by rewrite filter_cons_False by tauto.
  - simpl. destruct (P pt); [|done].
    rewrite filter_cons_True by done. unfold remap in *. rewrite fmap_cons.
    rewrite IH'. f_equal. apply lookup_total_correct, Hu; [simpl; lia|done].
Qed.

Lemma surviving_as_posting r_items (items : list nat) :
  as_posting items ≫= surviving r_items
  = as_posting (filter (λ i, i ∉ r_items) items).
Proof.
  destruct items as [|p items]; [done|]. simpl. unfold surviving.
  by destruct (filter _ (p :: items)).
Qed.

Lemma remap_as_posting u (items : list nat) :
  remap u <$> as_posting items = as_posting (remap u items).
Proof. by destruct items. Qed.

(** The entry of a built index after removal and renumbering. *)
Lemma compact_posting u r_items P (points : list Point) :
  (∀ p, p < length points → p ∉ r_items → u !! p = Some (rank r_items p)) →
  remap u <$> (as_posting (positions_where P points) ≫= surviving r_items)
  = as_posting (positions_where P (delete_positions r_items points)).
Proof.
  intros Hu. rewrite surviving_as_posting, remap_as_posting.
  unfold positions_where, delete_positions.
  rewrite (remap_filter_positions u r_items P 0 points).
  - done.
  - intros p Hp. apply Hu. lia.
Qed.

Lemma delete_from_length i r_items (points : list Point) :
  length (delete_from i r_items points)
  = length (filter (λ p, p ∉ r_items) (seq i (length points))).
Proof.
  revert i. induction points as [|pt points IH]; intros i; simpl; [done|].
  rewrite filter_cons.
  destruct (decide (i ∈ r_items)), (decide (i ∉ r_items)); simpl; try done;
    by rewrite IH.
Qed.

Lemma delete_from_times i r_items (points : list Point) :
  remove_timestamps_from i r_items (time <$> points)
  = time <$> delete_from i r_items points.
Proof.
  revert i. induction points as [|pt points IH]; intros i; simpl; [done|].
  destruct (decide (i ∈ r_items)); simpl; by rewrite IH.
Qed.

(** Two nested mappings without empty inner mappings that agree on
    every pair of keys are equal. *)
Lemma nested_map_eq (m1 m2 : gmap string (gmap string (list nat))) :
  (∀ key, m1 !! key ≠ Some ∅) → (∀ key, m2 !! key ≠ Some ∅) →
  (∀ key value, (m1 !! key ≫= λ vals, vals !! value) = (m2 !! key ≫= λ vals, vals !! value)) →
  m1 = m2.
Proof.
  intros Hne1 Hne2 Heq. apply map_eq. intros key.
  destruct (m1 !! key) as [vals1|] eqn:H1, (m2 !! key) as [vals2|] eqn:H2.
  - f_equal. apply map_eq. intros value. specialize (Heq key value).
    by rewrite H1, H2 in Heq.
  - exfalso. destruct (map_choose vals1) as (value&items&Hv).
    { intros ->. by eapply Hne1. }
    specialize (Heq key value). rewrite H1, H2 in Heq. simpl in Heq. congruence.
  - exfalso. destruct (map_choose vals2) as (value&items&Hv).
    { intros ->. by eapply Hne2. }
    specialize (Heq key value). rewrite H1, H2 in Heq. simpl in Heq. congruence.
  - done.
Qed.

Lemma posting_remove r_items self items :
  posting (remove r_items self) items →
  ∃ old, posting self old ∧ items = filter (λ i, i ∉ r_items) old.
Proof.
  rewrite remove_eq. intros [(m&Hm)|[(k&vals&v&Hk&Hv)|(f&Hf)]]; simpl in *.
  - rewrite lookup_omap in Hm.
    destruct (_measurements self !! m) as [old|] eqn:Hold; simplify_eq/=.
    exists old. split; [left; eauto|]. by apply surviving_Some.
  - rewrite lookup_omap in Hk.
    destruct (_tags self !! k) as [old_values|] eqn:Hold; simplify_eq/=.
    unfold surviving_values in Hk. case_decide; simplify_eq/=.
    rewrite lookup_omap in Hv.
    destruct (old_values !! v) as [old|] eqn:Hold'; simplify_eq/=.
    exists old. split; [right; left; eauto 10|]. by apply surviving_Some.
  - rewrite lookup_omap in Hf.
    destruct (_fields self !! f) as [old|] eqn:Hold; simplify_eq/=.
    exists old. split; [right; right; eauto|]. by apply surviving_Some.
Qed.

Lemma build_tag_posting points self tag_key tag_value :
  tag_posting (build points self) tag_key tag_value
  = as_posting (positions_where (has_tag tag_key tag_value) points).
Proof. unfold build. by rewrite index_points_tags, extend_posting_None. Qed.

Lemma build_fields_lookup points self field_key :
  _fields (build points self) !! field_key
  = as_posting (positions_where (has_field field_key) points).
Proof. unfold build. by rewrite index_points_fields, extend_posting_None. Qed.

Lemma build_measurements_lookup points self name :
  _measurements (build points self) !! name
  = as_posting (positions_where (has_measurement name) points).
Proof. unfold build. by rewrite index_points_measurements, extend_posting_None. Qed.

Lemma no_empty_posting_build points self : no_empty_posting (build points self).
Proof. apply no_empty_posting_index_points, (no_empty_posting_init true). Qed.

Lemma index_eta (self : Index) :
  self = mkIndex (_num_items self) (_tags self) (_fields self) (_measurements self)
           (_timestamps self) (_valid self).
Proof. by destruct self. Qed.

(** X19: on a built index, removing a set of positions and then
    updating with the map that sends each position left to its rank
    among the positions left gives the index that [build] makes from
    the points left. *)
Theorem remove_update_is_rebuild (points : list Point) (self : Index)
    (r_items : gset nat) (u_items : gmap nat nat) :
  (∀ p, p ∈ r_items → p < length points) →
  (∀ p, p < length points → p ∉ r_items → u_items !! p = Some (rank r_items p)) →
  update u_items (remove r_items (build points self))
  = Some (build (delete_positions r_items points) self).
Proof.
  intros Hin Hu.
  pose proof (update_cases u_items (remove r_items (build points self))) as Hcases.
  destruct (update u_items (remove r_items (build points self))) as [self'|] eqn:Hupd.
  - assert (no_empty_posting self') as [_ Htags'].
    { eapply no_empty_posting_update; [|done]. apply no_empty_posting_remove. }
    destruct Hcases as [_ Hself']. rewrite remove_eq in Hself'. simpl in Hself'.
    f_equal. rewrite Hself' in *. clear Hself' Hupd.
    rewrite (index_eta (build (delete_positions r_items points) self)).
    f_equal.
    + rewrite !build_num_items. unfold delete_positions.
      rewrite delete_from_length, length_filter_not_in by done.
      pose proof (size_bounded r_items (length points) Hin). lia.
    + apply nested_map_eq.
      * done.
      * apply (no_empty_posting_build (delete_positions r_items points) self).
      * intros key value.
        fold (tag_posting (build (delete_positions r_items points) self) key value).
        rewrite build_tag_posting, <- (compact_posting u_items r_items) by done.
        rewrite <- (build_tag_posting points self). unfold tag_posting.
        rewrite lookup_fmap, lookup_omap.
        destruct (_tags (build points self) !! key) as [vals|]; simpl; [|done].
        unfold surviving_values. case_decide as Hempty; simpl.
        -- rewrite <- lookup_omap, Hempty, lookup_empty. done.
        -- unfold remap_values. by rewrite lookup_fmap, lookup_omap.
    + apply map_eq. intros key.
      rewrite lookup_fmap, lookup_omap, !build_fields_lookup.
      by apply compact_posting.
    + rewrite map_filter_id.
      * apply map_eq. intros key.
        rewrite lookup_fmap, lookup_omap, !build_measurements_lookup.
        by apply compact_posting.
      * intros key items Hm. simpl. rewrite lookup_omap in Hm.
        destruct (_measurements (build points self) !! key); simplify_eq/=.
        by eapply surviving_not_nil.
    + rewrite !build_timestamps. unfold without_positions, delete_positions.
      by rewrite <- remove_timestamps_from_zip, delete_from_times.
    + unfold build. by rewrite !index_points_valid.
  - exfalso. apply referenced_missing in Hcases as (p&(items&Hitems&Hp)&Hnone).
    apply posting_remove in Hitems as (old&Hold&->).
    apply list_elem_of_filter in Hp as [Hnot Hp].
    destruct (well_indexed_build points self) as [_ Hgood].
    destruct (Hgood old Hold) as [_ Hlt]. rewrite Forall_forall in Hlt.
    specialize (Hlt p Hp). rewrite build_timestamps, length_fmap in Hlt.
    rewrite (Hu p Hlt Hnot) in Hnone. done.
Qed.

Lemma remove_update_is_rebuild_witness :
  let a := mkPoint 10 "m" {["host" := "a"]} {["x" := 1%Z]} in
  let b := mkPoint 20 "n" {["host" := "b"]} ∅ in
  let c := mkPoint 30 "m" {["host" := "b"]} {["y" := 2%Z]} in
  update {[0 := 0; 2 := 1]} (remove {[1]} (build [a; b; c] (__init__ true)))
  = Some (build [a; c] (__init__ true)).
Proof.
  intros a b c.
  assert (delete_positions {[1]} [a; b; c] = [a; c]) as <- by (vm_compute; reflexivity).
  apply (remove_update_is_rebuild [a; b; c] (__init__ true) {[1]} {[0 := 0; 2 := 1]}).
  - intros p ->%elem_of_singleton. simpl. lia.
  - intros p Hp Hnot. simpl in Hp.
    destruct p as [|[|[|p]]]; [reflexivity|set_solver|reflexivity|lia].
Defined.

(** ** The items of a result lie within the index *)

Lemma bisect_loop_bounds below (a : list Z) fuel lo hi :
  lo ≤ hi → lo ≤ bisect_loop below a fuel lo hi ≤ hi.
Proof.
  revert lo hi. induction fuel as [|fuel IH]; intros lo hi Hle; [simpl; lia|].
  rewrite bisect_loop_step. destruct (Nat.ltb_spec lo hi) as [Hlt|Hge]; [|lia].
  pose proof (Nat.div_mod_eq (lo + hi) 2) as Hdiv.
  pose proof (Nat.mod_upper_bound (lo + hi) 2 ltac:(lia)) as Hmod.
  set (mid := (lo + hi) / 2) in *.
  destruct (a !! mid) as [y|]; [|lia].
  destruct (below y).
  - specialize (IH (S mid) hi ltac:(lia)). lia.
  - specialize (IH lo mid ltac:(lia)). lia.
Qed.

Lemma sublist_seq_bound (items : list nat) start len n :
  items `sublist_of` seq start len → start + len ≤ n → Forall (λ p, p < n) items.
Proof.
  intros Hsub Hn. apply Forall_forall. intros p Hp.
  eapply elem_of_sublist in Hp; [|done]. apply elem_of_seq in Hp. lia.
Qed.

Lemma search_timestamps_in_range {lib : Datetime} q self items self' :
  _search_timestamps q self = (Ok items, self') →
  Forall (λ p, p < length (_timestamps self)) items.
Proof.
  unfold _search_timestamps, bind, attr, ret, raise. simpl.
  set (ts := _timestamps self).
  assert (∀ x, bisect_left ts x ≤ length ts) as Hleft.
  { intros x. pose proof (bisect_loop_bounds (λ y, y <? x)%Z ts (length ts) 0 (length ts)).
    unfold bisect_left. lia. }
  assert (∀ x, bisect_right ts x ≤ length ts) as Hright.
  { intros x. pose proof (bisect_loop_bounds (λ y, y <=? x)%Z ts (length ts) 0 (length ts)).
    unfold bisect_right. lia. }
  assert (∀ m, find_eq ts (_rhs q) = Some m →
            Forall (λ p, p < length ts) (equal_run ts (_rhs q) m)) as Hrun.
  { intros m Hm. unfold find_eq in Hm.
    destruct (ts !! bisect_left ts (_rhs q)) as [y|] eqn:Hy; [|done].
    destruct (y =? _rhs q)%Z; simplify_eq. apply lookup_lt_Some in Hy.
    apply (sublist_seq_bound _ (bisect_left ts (_rhs q))
             (S (length (drop (S (bisect_left ts (_rhs q))) ts)))).
    - simpl. apply sublist_skip, collect_equal_sublist.
    - rewrite length_drop. lia. }
  destruct (_operator q); simpl.
  - destruct (find_eq ts (_rhs q)) as [m|] eqn:Hm; intros [= <- _]; [auto|constructor].
  - destruct (find_eq ts (_rhs q)) as [m|] eqn:Hm; intros [= <- _].
    + eapply (sublist_seq_bound _ 0); [apply difference_sublist|lia].
    + by apply (sublist_seq_bound _ 0 (length ts)).
  - unfold find_lt. specialize (Hleft (_rhs q)).
    destruct (bisect_left ts (_rhs q)) as [|m]; intros [= <- _]; [constructor|].
    apply (sublist_seq_bound _ 0 (m + 1)); [done|lia].
  - unfold find_le. specialize (Hright (_rhs q)).
    destruct (bisect_right ts (_rhs q)) as [|m]; intros [= <- _]; [constructor|].
    apply (sublist_seq_bound _ 0 (m + 1)); [done|lia].
  - unfold find_gt. destruct (Nat.ltb_spec (bisect_right ts (_rhs q)) (length ts));
      intros [= <- _]; [|constructor].
    eapply sublist_seq_bound; [done|lia].
  - unfold find_ge. destruct (Nat.ltb_spec (bisect_left ts (_rhs q)) (length ts));
      intros [= <- _]; [|constructor].
    eapply sublist_seq_bound; [done|lia].
  - destruct (scan_timestamps q 0 ts) as [items'|] eqn:Hscan; [|done].
    intros [= <- _].
    apply (sublist_seq_bound _ 0 (length ts)); [by eapply scan_timestamps_sublist|done].
Qed.

Lemma search_items_below_length {lib : Datetime} query self rst self' :
  well_indexed self →
  search query self = (Ok rst, self') →
  Forall (λ p, p < length (_timestamps self)) (_items rst).
Proof.
  intros [Hlen Hpost]. set (n := length (_timestamps self)) in *.
  assert (∀ items p, posting self items → p ∈ items → p < n) as Hin.
  { intros items p Hitems Hp. destruct (Hpost items Hitems) as [_ Hlt].
    rewrite Forall_forall in Hlt. auto. }
  revert rst self'.
  induction query as [q|op query1 IH1 query2 IH2|]; intros rst self'; [| |done].
  - destruct (_point_attr q) eqn:Hattr.
    + rewrite (search_time_leaf _ _ Hattr).
      destruct (_search_timestamps q self) as [[items|] s1] eqn:Hs; [|done].
      intros [= <- _]. simpl. by eapply search_timestamps_in_range.
    + rewrite (search_measurement_leaf _ _ Hattr).
      pose proof (search_measurement_fold q (_measurements self)) as Hfold.
      destruct (map_fold _ _ _) as [items|]; [|done].
      intros [= <- _]. simpl. destruct Hfold as [_ Hmem].
      apply Forall_forall. intros p (name&l&v&Hl&_&_&Hp)%Hmem.
      apply (Hin l); [left; eauto|done].
    + rewrite (search_tags_leaf _ _ Hattr). intros [= <- _]. simpl.
      apply Forall_forall. intros p (k&vals&value&l&v&Hk&Hv&_&_&Hp)%search_tags_fold.
      apply (Hin l); [right; left; eauto 10|done].
    + rewrite (search_fields_leaf _ _ Hattr). intros [= <- _]. simpl.
      apply Forall_forall. intros p (k&l&Hl&_&Hp)%search_fields_fold.
      apply (Hin l); [right; right; eauto|done].
    + unfold search. simpl. by rewrite Hattr.
  - unfold search in *. simpl. unfold bind, attr, ret. destruct op; try done.
    + destruct (_search_helper query1 self) as [[rst1|] s1] eqn:Hs1; [|done].
      apply search_ok_same_index in Hs1 as Hs1'. subst s1.
      destruct (_search_helper query2 self) as [[rst2|] s2] eqn:Hs2; [|done].
      intros [= <- _]. simpl. specialize (IH1 _ _ eq_refl).
      rewrite Forall_forall in IH1. apply Forall_forall.
      intros p [Hp _]%elem_of_intersection_1. auto.
    + destruct (_search_helper query1 self) as [[rst1|] s1] eqn:Hs1; [|done].
      apply search_ok_same_index in Hs1 as Hs1'. subst s1.
      destruct (_search_helper query2 self) as [[rst2|] s2] eqn:Hs2; [|done].
      intros [= <- _]. simpl. specialize (IH1 _ _ eq_refl). specialize (IH2 _ _ eq_refl).
      rewrite Forall_forall in IH1. rewrite Forall_forall in IH2. apply Forall_forall.
      intros p [Hp|Hp]%elem_of_union; auto.
    + destruct (_search_helper query1 self) as [[rst1|] s1] eqn:Hs1; [|done].
      apply search_ok_same_index in Hs1 as Hs1'. subst s1.
      destruct (search_flags_of_result query1 self rst1 self Hs1) as [Hcount _].
      destruct (is_field_leaf query1); intros [= <- _]; simpl.
      * apply (sublist_seq_bound _ 0 (Z.to_nat (_num_items self))); [done|lia].
      * apply (sublist_seq_bound _ 0 (Z.to_nat (_index_count rst1)));
          [apply difference_sublist|lia].
Qed.

(** X20: on an index that keeps the invariant of the data model, the
    items of every result of a search are strictly ascending positions
    within [0 .. index_count): the result is one that complement,
    intersection and union take. *)
Theorem search_items_in_range {lib : Datetime} (query : Query) (self : Index) (rst : IndexResult)
    (self' : Index) :
  well_indexed self →
  search query self = (Ok rst, self') →
  ascending (_items rst)
  ∧ Forall (λ p, (0 ≤ Z.of_nat p < _index_count rst)%Z) (_items rst).
Proof.
  intros Hwi Hsearch. split.
  - eapply search_items_ascending; [|done]. intros l Hl. by apply Hwi.
  - destruct (search_flags_of_result _ _ _ _ Hsearch) as [-> _].
    pose proof (search_items_below_length _ _ _ _ Hwi Hsearch) as Hlt.
    destruct Hwi as [Hlen _]. eapply Forall_impl; [done|]. simpl. lia.
Qed.

Lemma search_items_in_range_witness :
  let self := build [mkPoint 10 "m" ∅ {["x" := 1%Z]}; mkPoint 20 "n" ∅ ∅;
                     mkPoint 20 "m" ∅ ∅] (__init__ true) in
  let by_time := Simple (mkSimpleQuery attr_time op_ge 20 Some (λ _, true)) in
  let by_name :=
    Simple (mkSimpleQuery attr_measurement op_eq 0 Some
              (λ c, match c with CtxName name => bool_decide (name = "m") | _ => false end))
  in
  let rst := mkIndexResult [0; 2] true 3 in
  ascending (_items rst)
  ∧ Forall (λ p, (0 ≤ Z.of_nat p < _index_count rst)%Z) (_items rst).
Proof.
  intros self by_time by_name rst.
  apply (search_items_in_range
           (Compound op_or (Compound op_not by_time NoQuery)
              (Compound op_and by_name by_time)) self rst self).
  - apply well_indexed_build.
  - vm_compute. reflexivity.
Defined.

(** X21: a search on an index that holds no point answers no position,
    whatever the query: also a negation, whose range [0 .. num_items)
    is empty. *)
Theorem search_empty_index {lib : Datetime} (query : Query) (valid : bool) (rst : IndexResult)
    (self' : Index) :
  search query (__init__ valid) = (Ok rst, self') →
  _items rst = [] ∧ _index_count rst = 0%Z ∧ self' = __init__ valid.
Proof.
  intros Hsearch.
  pose proof (search_items_below_length _ _ _ _ (well_indexed_init valid) Hsearch) as Hlt.
  destruct (search_flags_of_result _ _ _ _ Hsearch) as [Hcount _].
  split_and!; [|done|by eapply search_ok_same_index].
  destruct (_items rst) as [|p items]; [done|].
  apply Forall_cons in Hlt as [Hp _]. simpl in Hp. lia.
Qed.

Lemma search_empty_index_witness :
  let leaf := Simple (mkSimpleQuery attr_time op_le 10 Some (λ _, true)) in
  let rst := mkIndexResult [] true 0 in
  _items rst = [] ∧ _index_count rst = 0%Z ∧ __init__ false = __init__ false.
Proof.
  intros leaf rst.
  apply (search_empty_index (Compound op_not leaf NoQuery) false rst (__init__ false)).
  reflexivity.
Defined.

(** ** The measurement names after an insertion *)

Lemma is_Some_extend_posting old new :
  is_Some (extend_posting old new) ↔ is_Some old ∨ new ≠ [].
Proof.
  unfold extend_posting. destruct new as [|p new]; split.
  - by left.
  - by intros [?|?].
  - by right.
  - by eexists.
Qed.

(** X22: after [insert], [get_measurement_names] is the set it was
    before together with the measurement names of the new points. *)
Theorem insert_measurement_names (points : list Point) (self : Index) :
  get_measurement_names (insert points self)
  = get_measurement_names self ∪ list_to_set (measurement <$> points).
Proof.
  unfold get_measurement_names, insert. apply set_eq. intros name.
  rewrite base.elem_of_union, !elem_of_dom, index_points_measurements.
  rewrite is_Some_extend_posting, elem_of_list_to_set, list_elem_of_fmap.
  set (k := length (_timestamps self)).
  assert (positions_from k (has_measurement name) points ≠ []
          ↔ ∃ pt, name = measurement pt ∧ pt ∈ points) as ->; [|done].
  split.
  - intros Hne. destruct (positions_from k (has_measurement name) points) as [|p l] eqn:Hp;
      [done|].
    assert (p ∈ positions_from k (has_measurement name) points) as Hin
      by (rewrite Hp; left).
    apply elem_of_positions_from in Hin as (i&pt&_&Hpt&Hhas).
    apply bool_decide_eq_true in Hhas. exists pt. split; [done|].
    by eapply list_elem_of_lookup_2.
  - intros (pt&->&(i&Hi)%list_elem_of_lookup_1) Hnil.
    assert (k + i ∈ positions_from k (has_measurement (measurement pt)) points) as Hin.
    { apply elem_of_positions_from. exists i, pt. split_and!; [done..|].
      by apply bool_decide_eq_true. }
    rewrite Hnil in Hin. by apply elem_of_nil in Hin.
Qed.

(** ** Two renumberings in a row *)

Lemma posting_update u self self' items :
  update u self = Some self' → posting self items → items ≠ [] →
  posting self' (remap u items) ∧ ∀ p, p ∈ items → is_Some (u !! p).
Proof.
  intros Hupd Hposting Hne.
  pose proof (update_cases u self) as Hcases. rewrite Hupd in Hcases.
  destruct Hcases as [(Hcm&Hct&Hcf) ->].
  destruct Hposting as [(m&Hm)|[(k&vals&v&Hk&Hv)|(f&Hf)]].
  - split; [|by intros p; apply (Hcm m)]. left. exists m. simpl.
    rewrite lookup_fmap.
    rewrite (map_lookup_filter_Some_2 _ _ _ items); done.
  - split; [|by intros p; apply (Hct k vals Hk v)]. right. left.
    exists k, (remap_values u vals), v. simpl. rewrite lookup_fmap, Hk. split; [done|].
    unfold remap_values. by rewrite lookup_fmap, Hv.
  - split; [|by intros p; apply (Hcf f)]. right. right. exists f. simpl.
    by rewrite lookup_fmap, Hf.
Qed.

Lemma remap_compose u v (items : list nat) :
  (∀ p, p ∈ items → is_Some (u !! p)) →
  (∀ q, q ∈ remap u items → is_Some (v !! q)) →
  remap (omap (λ q, v !! q) u) items = remap v (remap u items).
Proof.
  unfold remap. induction items as [|p items IH]; intros Hu Hv; [done|].
  rewrite !fmap_cons. f_equal.
  - destruct (Hu p ltac:(left)) as [q Hq].
    rewrite (lookup_total_correct u p q Hq).
    destruct (Hv q) as [r Hr].
    { rewrite fmap_cons, (lookup_total_correct u p q Hq). left. }
    rewrite (lookup_total_correct v q r Hr).
    apply lookup_total_correct. by rewrite lookup_omap, Hq.
  - apply IH.
    + intros p' Hp'. apply Hu. by right.
    + intros q Hq. apply Hv. rewrite fmap_cons. by right.
Qed.

(** X23: two [update]s in a row that both return leave the index that
    one [update] with the composed position map leaves. *)
Theorem update_composes (u_items v_items : gmap nat nat) (self self1 self2 : Index) :
  update u_items self = Some self1 →
  update v_items self1 = Some self2 →
  update (omap (λ q, v_items !! q) u_items) self = Some self2.
Proof.
  intros Hu Hv. set (w := omap (λ q, v_items !! q) u_items).
  assert (∀ items, posting self items →
            remap w items = remap v_items (remap u_items items)
            ∧ ∀ p, p ∈ items → is_Some (w !! p)) as Hcomp.
  { intros items Hitems. destruct items as [|p0 items]; [split; [done|]|].
    { intros p Hp. by apply elem_of_nil in Hp. }
    destruct (posting_update _ _ _ _ Hu Hitems ltac:(done)) as [Hitems1 Hcu].
    destruct (posting_update _ _ _ _ Hv Hitems1 ltac:(done)) as [_ Hcv].
    split; [by apply remap_compose|].
    intros p Hp. destruct (Hcu p Hp) as [q Hq]. destruct (Hcv q) as [r Hr].
    { unfold remap. apply list_elem_of_fmap. exists p.
      by rewrite (lookup_total_correct u_items p q Hq). }
    exists r. subst w. by rewrite lookup_omap, Hq. }
  pose proof (update_cases u_items self) as Hu'. rewrite Hu in Hu'.
  destruct Hu' as [_ Hself1].
  pose proof (update_cases v_items self1) as Hv'. rewrite Hv in Hv'.
  destruct Hv' as [_ Hself2].
  pose proof (update_cases w self) as Hw.
  destruct (update w self) as [self3|].
  - destruct Hw as [_ ->]. f_equal. rewrite Hself2, Hself1. simpl. f_equal.
    + apply map_eq. intros key. rewrite !lookup_fmap.
      destruct (_tags self !! key) as [vals|] eqn:Hk; simpl; [|done]. f_equal.
      apply map_eq. intros value. unfold remap_values. rewrite !lookup_fmap.
      destruct (vals !! value) as [items|] eqn:Hvl; simpl; [|done]. f_equal.
      apply Hcomp. right. left. eauto 10.
    + apply map_eq. intros key. rewrite !lookup_fmap.
      destruct (_fields self !! key) as [items|] eqn:Hf; simpl; [|done]. f_equal.
      apply Hcomp. right. right. eauto.
    + rewrite (map_filter_id _ (remap u_items <$> _)).
      * apply map_eq. intros key. rewrite !lookup_fmap.
        destruct (filter _ (_measurements self) !! key) as [items|] eqn:Hm; simpl; [|done].
        f_equal. apply map_lookup_filter_Some in Hm as [Hm _].
        apply Hcomp. left. eauto.
      * intros key items Hm. simpl. rewrite lookup_fmap in Hm.
        destruct (filter _ (_measurements self) !! key) as [old|] eqn:Hold;
          simplify_eq/=.
        apply map_lookup_filter_Some in Hold as [_ Hne]. by apply remap_not_nil.
  - exfalso. apply referenced_missing in Hw as (p&(items&Hitems&Hp)&Hnone).
    destruct (Hcomp items Hitems) as [_ Hcov]. destruct (Hcov p Hp) as [? ?]. congruence.
Qed.

Lemma update_composes_witness :
  let self := build [mkPoint 10 "m" {["host" := "a"]} ∅;
                     mkPoint 20 "n" {["host" := "a"]} {["x" := 1%Z]}] (__init__ true) in
  let u_items : gmap nat nat := {[0 := 5; 1 := 7]} in
  let v_items : gmap nat nat := {[5 := 1; 7 := 0]} in
  let self1 := mkIndex 2 {["host" := {["a" := [5; 7]]}]} {["x" := [7]]}
                 {["m" := [5]; "n" := [7]]} [10; 20]%Z true in
  let self2 := mkIndex 2 {["host" := {["a" := [1; 0]]}]} {["x" := [0]]}
                 {["m" := [1]; "n" := [0]]} [10; 20]%Z true in
  update (omap (λ q, v_items !! q) u_items) self = Some self2.
Proof.
  intros self u_items v_items self1 self2.
  apply (update_composes u_items v_items self self1 self2).
  - vm_compute. reflexivity.
  - vm_compute. reflexivity.
Defined.

(** ** The flag [valid] and the count [num_items] *)

Lemma update_valid u self self' : update u self = Some self' → _valid self' = _valid self.
Proof.
  intros Hupd. pose proof (update_cases u self) as Hcases. rewrite Hupd in Hcases.
  by destruct Hcases as [_ ->].
Qed.

(** X24: after any sequence of calls the index is valid exactly when
    the last [build] or [invalidate] among them is a [build]; when
    there is none, [valid] is what it was: [insert], [remove] and
    [update] never change it. *)
Theorem valid_after_run (ops : list Operation) (self self' : Index) :
  run ops self = Some self' → valid self' = expected_valid ops (valid self).
Proof.
  unfold valid. revert self. induction ops as [|op ops IH]; intros self; simpl.
  - by intros [= <-].
  - destruct (apply_operation op self) as [self1|] eqn:Hop; simpl; [|done].
    intros Hrun. rewrite (IH _ Hrun). destruct op; simpl in Hop; simplify_eq.
    + unfold build. by rewrite index_points_valid.
    + unfold insert. by rewrite index_points_valid.
    + by rewrite remove_eq.
    + by rewrite (update_valid _ _ _ Hop).
    + done.
Qed.

Lemma valid_after_run_witness :
  let point := mkPoint 10 "m" ∅ ∅ in
  let ops := [Invalidate; Insert [point]; Build [point; point]; Remove {[0]}; Update {[1 := 0]}]
  in
  ∃ self', run ops (__init__ true) = Some self' ∧ valid self' = true.
Proof.
  intros point ops.
  assert (∃ self', run ops (__init__ true) = Some self') as [self' Hrun]
    by (eexists; vm_compute; reflexivity).
  exists self'. split; [exact Hrun|].
  exact (valid_after_run ops (__init__ true) self' Hrun).
Defined.

Lemma length_filter_in (r_items : gset nat) n :
  length (filter (λ p, p ∈ r_items) (seq 0 n)) ≤ size r_items
  ∧ (length (filter (λ p, p ∈ r_items) (seq 0 n)) = size r_items
     ↔ ∀ p, p ∈ r_items → p < n).
Proof.
  assert (NoDup (filter (λ p, p ∈ r_items) (seq 0 n))) as Hnd
    by apply NoDup_filter, NoDup_seq.
  assert (filter (λ p, p ∈ r_items) (seq 0 n) ⊆+ elements r_items) as Hsub.
  { apply NoDup_submseteq; [done|]. intros p [Hp _]%list_elem_of_filter.
    by apply elem_of_elements. }
  split; [apply submseteq_length in Hsub; by unfold size, set_size|].
  split.
  - intros Hlen p Hp.
    assert (elements r_items ≡ₚ filter (λ p, p ∈ r_items) (seq 0 n)) as Hperm.
    { symmetry. apply submseteq_length_Permutation; [done|].
      unfold size, set_size in Hlen. simpl in Hlen. lia. }
    assert (p ∈ filter (λ p, p ∈ r_items) (seq 0 n)) as Hin.
    { rewrite <- Hperm. by apply elem_of_elements. }
    apply list_elem_of_filter in Hin as [_ Hin]. apply elem_of_seq in Hin. lia.
  - intros Hin.
    pose proof (filter_app_complement (λ p, p ∈ r_items) (seq 0 n)) as Hperm.
    apply Permutation_length in Hperm. rewrite length_app, length_seq in Hperm.
    pose proof (length_filter_not_in r_items n Hin).
    pose proof (size_bounded r_items n Hin). lia.
Qed.

(** X25: [remove] takes the size of the set off [num_items] whether or
    not the positions are in the index, so on an index whose
    [num_items] is the number of its timestamps it keeps the two equal
    exactly when every position to remove lies within the index. *)
Theorem remove_keeps_aligned (r_items : gset nat) (self : Index) :
  aligned self →
  (aligned (remove r_items self)
   ↔ ∀ p, p ∈ r_items → (Z.of_nat p < _num_items self)%Z).
Proof.
  unfold aligned. intros Hal. rewrite remove_eq. simpl.
  unfold without_positions. rewrite <- remove_timestamps_from_zip.
  rewrite remove_timestamps_from_length.
  set (n := length (_timestamps self)) in *.
  pose proof (filter_app_complement (λ p, p ∈ r_items) (seq 0 n)) as Hperm.
  apply Permutation_length in Hperm. rewrite length_app, length_seq in Hperm.
  destruct (length_filter_in r_items n) as [Hle Hiff].
  split.
  - intros Heq p Hp. assert (p < n); [|lia]. apply Hiff; [lia|done].
  - intros Hin. assert (∀ p, p ∈ r_items → p < n) as Hin'.
    { intros p Hp. specialize (Hin p Hp). lia. }
    apply Hiff in Hin'. lia.
Qed.

Lemma remove_keeps_aligned_witness :
  let self := build [mkPoint 10 "m" ∅ ∅] (__init__ true) in
  ¬ aligned (remove {[5]} self).
Proof.
  intros self Hal.
  assert (aligned self) as Hself by reflexivity.
  pose proof (proj1 (remove_keeps_aligned {[5]} self Hself) Hal 5) as Hlt.
  specialize (Hlt ltac:(set_solver)). vm_compute in Hlt. discriminate.
Defined.
